(** * AdaLead: a shallow embedding of boda/generator/AdaLead.py

    The development follows the Python class method by method.

    - Sequences are Python [str] values: [string].
    - Fitness scores are the entries of the arrays returned by
      [get_fitness]; they are compared, multiplied and sorted, and are
      represented by exact rationals [Q] (rounding, infinities and NaN of
      the machine numbers are not represented).  The arrays keep their
      number of dimensions: [squeeze()] turns the scores of a batch of one
      into a zero-dimensional array, which has a maximum but no entry to
      index and no index to select.
    - [np.argsort] leaves the order of equal scores open: it is a
      parameter of the instance.
    - [self.model_cost], the global Mersenne Twister of module [random] and
      [self.initial_top_fitness] are the mutable state; it is threaded
      explicitly and survives a raised exception, as in Python.
    - The [while] loops are run with fuel: each execution of a loop gets
      [fuel] iterations and reports [Diverge] with the name of the loop when
      they are used up.  An outcome [Ok] or [Raise] is the same for every
      larger amount of fuel ([propose_sequences_extends]); the Python call
      returns when some amount of fuel gives such an outcome. *)

From Stdlib Require Import String Ascii Bool Arith ZArith NArith QArith Lia Lqa List.
From Stdlib Require Import Permutation Sorted.
Import ListNotations.

Local Open Scope nat_scope.

(* ===================================================================== *)
(** ** Outcomes, state and the monad of the interpreter                   *)
(* ===================================================================== *)

(** The exceptions the modelled code can raise. *)
Inductive exn : Type :=
| NoSequencesGenerated   (* ValueError("No sequences generated. ...") *)
| RangeStepZero          (* ValueError: range() arg 3 must not be zero *)
| EmptyReduction         (* ValueError: max of a zero-size array *)
| IndexError
| ZeroDivisionError
| TypeError
| ScorerError.           (* anything raised while scoring a batch *)

(** The three [while] loops of [propose_sequences]. *)
Inductive loop : Type :=
| BudgetLoop             (* while self.model_cost - previous_model_cost < ... *)
| RolloutLoop            (* while len(nodes) > 0 and ... *)
| MutantLoop.            (* while len(children) < len(nodes) *)

Inductive outcome (A : Type) : Type :=
| Ok (a : A)
| Raise (e : exn)
| Diverge (l : loop).

Arguments Ok {A} a.
Arguments Raise {A} e.
Arguments Diverge {A} l.

(** Mutable state: the query counter of the instance, the attribute set by
    [propose_sequences], and the random generator, a tape of raw draws with
    a read position. *)
Record state : Type := mkState {
  model_cost : nat;
  initial_top_fitness : option Q;
  rng_tape : nat -> N;
  rng_pos : nat
}.

Definition M (A : Type) : Type := state -> outcome A * state.

Definition ret {A} (a : A) : M A := fun st => (Ok a, st).

Definition bind {A B} (m : M A) (f : A -> M B) : M B :=
  fun st =>
    match m st with
    | (Ok a, st1) => f a st1
    | (Raise e, st1) => (Raise e, st1)
    | (Diverge l, st1) => (Diverge l, st1)
    end.

Definition raise {A} (e : exn) : M A := fun st => (Raise e, st).
Definition diverge {A} (l : loop) : M A := fun st => (Diverge l, st).
Definition get_state : M state := fun st => (Ok st, st).

Declare Scope monad_scope.
Delimit Scope monad_scope with monad.
Notation "x <- m ;; k" := (bind m (fun x => k))
  (at level 61, m at next level, right associativity) : monad_scope.
Notation "' pat <- m ;; k" := (bind m (fun x => match x with pat => k end))
  (at level 61, pat pattern, m at next level, right associativity) : monad_scope.
Local Open Scope monad_scope.

(** [for x in l: body(x, acc)], with the accumulator threaded through. *)
Fixpoint for_each {A B} (body : A -> B -> M B) (l : list A) (acc : B) : M B :=
  match l with
  | [] => ret acc
  | x :: l' => acc' <- body x acc ;; for_each body l' acc'
  end.

(** [for i in range(n): acc = body(acc)]. *)
Fixpoint repeat_m {B} (n : nat) (body : B -> M B) (acc : B) : M B :=
  match n with
  | 0 => ret acc
  | S n' => acc' <- body acc ;; repeat_m n' body acc'
  end.

(* ===================================================================== *)
(** ** Module [random]                                                     *)
(* ===================================================================== *)

Definition two53 : N := 9007199254740992.

(** [random.random()]: a 53-bit integer divided by 2^53, so a value in
    [0, 1). *)
Definition unit_value (raw : N) : Q :=
  Z.of_N (raw mod two53) # 9007199254740992.

Definition advance (st : state) : state :=
  mkState (model_cost st) (initial_top_fitness st) (rng_tape st) (S (rng_pos st)).

Definition random_random : M Q :=
  fun st => (Ok (unit_value (rng_tape st (rng_pos st))), advance st).

(** [_randbelow(n)] for [n > 0]: some integer below [n]. *)
Definition randbelow (n : nat) : M nat :=
  fun st => (Ok (N.to_nat (rng_tape st (rng_pos st) mod N.of_nat n)), advance st).

(** [random.choice(alphabet)] on a [str]; an empty one raises IndexError. *)
Definition random_choice (alphabet : string) : M ascii :=
  match alphabet with
  | EmptyString => raise IndexError
  | String _ _ =>
      j <- randbelow (String.length alphabet) ;;
      match String.get j alphabet with
      | Some c => ret c
      | None => raise IndexError
      end
  end.

Fixpoint list_set {A} (i : nat) (a : A) (l : list A) : list A :=
  match l, i with
  | [], _ => []
  | _ :: l', 0 => a :: l'
  | x :: l', S i' => x :: list_set i' a l'
  end.

(** [x[i], x[j] = x[j], x[i]] *)
Definition swap {A} (x : list A) (i j : nat) : list A :=
  match nth_error x i, nth_error x j with
  | Some xi, Some xj => list_set j xi (list_set i xj x)
  | _, _ => x
  end.

(** [for i in reversed(range(1, k + 1)): j = randbelow(i + 1); swap]. *)
Fixpoint shuffle_down {A} (k : nat) (x : list A) : M (list A) :=
  match k with
  | 0 => ret x
  | S k' => j <- randbelow (S k) ;; shuffle_down k' (swap x k j)
  end.

(** [random.shuffle(x)] (Fisher-Yates, from the last index down). *)
Definition random_shuffle {A} (x : list A) : M (list A) :=
  shuffle_down (length x - 1) x.

(* ===================================================================== *)
(** ** Scores                                                              *)
(* ===================================================================== *)

Definition Qltb (x y : Q) : bool := negb (Qle_bool y x).

(** [np.sign] *)
Definition Qsign (x : Q) : Q :=
  match Qnum x with
  | Z0 => 0
  | Zpos _ => 1
  | Zneg _ => -1
  end%Q.

(** [a.max()] of a one-dimensional array, also [max(a)]; a zero-size
    array raises. *)
Definition array_max (a : list Q) : M Q :=
  match a with
  | [] => raise EmptyReduction
  | x :: a' => ret (fold_left (fun m y => if Qltb m y then y else m) a' x)
  end.

(** An array of scores as [get_fitness] returns it: of dimension zero
    (shape [()]) or one. *)
Inductive ndarray : Type :=
| Array0 (x : Q)
| Array1 (a : list Q).

(** [squeeze()] of the scores of a batch: every axis of length one is
    dropped, so a single score is left without an axis. *)
Definition squeeze (scores : list Q) : ndarray :=
  match scores with
  | [x] => Array0 x
  | _ => Array1 scores
  end.

(** [a.reshape(-1).tolist()] *)
Definition tolist (a : ndarray) : list Q :=
  match a with
  | Array0 x => [x]
  | Array1 a => a
  end.

(** [a.max()] *)
Definition ndarray_max (a : ndarray) : M Q :=
  match a with
  | Array0 x => ret x
  | Array1 a => array_max a
  end.

(** [a[idx]]; a zero-dimensional array has no axis to index, and [None]
    is the IndexError. *)
Definition getitem (a : ndarray) (idx : nat) : option Q :=
  match a with
  | Array0 _ => None
  | Array1 a => nth_error a idx
  end.

(* ===================================================================== *)
(** ** The class                                                           *)
(* ===================================================================== *)

(** The attributes set by [__init__].  [fitness_fn] stands for the scoring
    pipeline of [get_fitness] between the counter update and [squeeze()]:
    [string_list_to_tensor], [pad] and the injected callable, whose result
    is taken as the scores in batch order; [None] is an exception raised
    anywhere in it.

    [tie_break] is not an attribute: it stands for what the class leaves
    to numpy.  [np.argsort] with its default kind is not a stable sort,
    and the order it gives to equal scores is not fixed; [tie_break a i]
    is the rank of index [i] among the indices of [a] that hold the same
    score.  Every order of the indices along which the scores do not
    decrease is the order of some [tie_break] ([argsort_any_order]), and
    the theorems below hold for every [tie_break]. *)
Record AdaLead : Type := mkAdaLead {
  fitness_fn : list string -> option (list Q);
  sequences_batch_size : nat;
  model_queries_per_batch : nat;
  seq_len : nat;
  padding_len : nat;
  vocab : string;
  mu : Q;
  recomb_rate : Q;
  threshold : Q;
  rho : nat;
  eval_batch_size : nat;
  tie_break : list Q -> nat -> nat
}.

Definition add_cost (n : nat) (st : state) : state :=
  mkState (model_cost st + n) (initial_top_fitness st) (rng_tape st) (rng_pos st).

Definition set_initial_top_fitness (q : Q) : M unit :=
  fun st => (Ok tt, mkState (model_cost st) (Some q) (rng_tape st) (rng_pos st)).

Section Methods.

Variable self : AdaLead.

(** [get_fitness]: the counter is charged first, then the batch is
    scored and the scores are squeezed. *)
Definition get_fitness (sequence_list : list string) : M ndarray :=
  fun st =>
    let st' := add_cost (length sequence_list) st in
    match fitness_fn self sequence_list with
    | Some fitnesses => (Ok (squeeze fitnesses), st')
    | None => (Raise ScorerError, st')
    end.

(** The loop of [generate_random_mutant] over the characters. *)
Fixpoint mutate_chars (sequence : list ascii) (mu : Q) (alphabet : string)
  : M (list ascii) :=
  match sequence with
  | [] => ret []
  | s :: rest =>
      r <- random_random ;;
      c <- (if Qltb r mu then random_choice alphabet else ret s) ;;
      mutant <- mutate_chars rest mu alphabet ;;
      ret (c :: mutant)
  end.

Definition generate_random_mutant (sequence : string) (mu : Q) (alphabet : string)
  : M string :=
  mutant <- mutate_chars (list_ascii_of_string sequence) mu alphabet ;;
  ret (string_of_list_ascii mutant).

(** The inner loop of [recombine_population] over the positions of
    [gen[i]]; [b] is what is left of [gen[i + 1]], and reading past its end
    raises IndexError. *)
Fixpoint crossover (a b : list ascii) (switch : bool)
  : M (list ascii * list ascii) :=
  match a with
  | [] => ret ([], [])
  | ca :: a' =>
      r <- random_random ;;
      let switch := if Qltb r (recomb_rate self) then negb switch else switch in
      match b with
      | [] => raise IndexError
      | cb :: b' =>
          '(strA, strB) <- crossover a' b' switch ;;
          if switch then ret (ca :: strA, cb :: strB)
          else ret (cb :: strA, ca :: strB)
      end
  end.

(** [for i in range(0, len(gen) - 1, 2)] *)
Fixpoint recombine_pairs (gen : list string) : M (list string) :=
  match gen with
  | gi :: gi1 :: rest =>
      '(strA, strB) <- crossover (list_ascii_of_string gi)
                                 (list_ascii_of_string gi1) false ;;
      ret' <- recombine_pairs rest ;;
      ret (string_of_list_ascii strA :: string_of_list_ascii strB :: ret')
  | _ => ret []
  end.

Definition recombine_population (gen : list string) : M (list string) :=
  if length gen =? 1 then ret gen
  else
    gen' <- random_shuffle gen ;;
    recombine_pairs gen'.


(** *** Arrays, the dict of discovered sequences and slicing *)

(** [np.argwhere(a >= cutoff).reshape(-1).tolist()] on a one-dimensional
    array. *)
Fixpoint argwhere_ge_from (i : nat) (a : list Q) (cutoff : Q) : list nat :=
  match a with
  | [] => []
  | x :: a' =>
      if Qle_bool cutoff x then i :: argwhere_ge_from (S i) a' cutoff
      else argwhere_ge_from (S i) a' cutoff
  end.

Definition argwhere_ge (a : list Q) (cutoff : Q) : list nat :=
  argwhere_ge_from 0 a cutoff.

(** The same on an array of either dimension.  For a zero-dimensional
    array [np.argwhere] returns an array of shape (1, 0) or (0, 0), one
    row per true entry and one column per axis (numpy 1.18 and later):
    after [reshape(-1)] no index is left, whatever the comparison
    gives. *)
Definition ndarray_argwhere_ge (a : ndarray) (cutoff : Q) : list nat :=
  match a with
  | Array0 _ => []
  | Array1 a => argwhere_ge a cutoff
  end.

(** [[a[i] for i in inds]], also [a[inds]] on an array. *)
Fixpoint index_all {A} (a : list A) (inds : list nat) : M (list A) :=
  match inds with
  | [] => ret []
  | i :: inds' =>
      match nth_error a i with
      | None => raise IndexError
      | Some x => rest <- index_all a inds' ;; ret (x :: rest)
      end
  end.

Definition ceil_div (n d : nat) : nat := (n + d - 1) / d.

(** [np.resize(np.array(a), new_size)]: the array is repeated and cut to
    [new_size] entries.  An empty [a] gives [new_size] zeros of the default
    float dtype, which are not sequences: [inr new_size]. *)
Definition np_resize (a : list string) (new_size : nat) : list string + nat :=
  if length a =? 0 then inr new_size
  else if new_size =? 0 then inl []
  else inl (firstn new_size (concat (repeat a (ceil_div new_size (length a))))).

(** The slices [a[i : i + step]] for [i in range(0, len(a), step)]. *)
Fixpoint chunks_aux {A} (n step : nat) (a : list A) : list (list A) :=
  match n with
  | 0 => []
  | S n' =>
      match a with
      | [] => []
      | _ :: _ => firstn step a :: chunks_aux n' step (skipn step a)
      end
  end.

Definition chunks {A} (step : nat) (a : list A) : list (list A) :=
  chunks_aux (length a) step a.

(** [list(enumerate(roots))] *)
Definition enumerate {A} (l : list A) : list (nat * A) :=
  combine (seq 0 (length l)) l.

(** The dict [sequences]: keys in insertion order, no key twice. *)
Definition dict : Type := list (string * Q).

Fixpoint dict_set (k : string) (v : Q) (d : dict) : dict :=
  match d with
  | [] => [(k, v)]
  | (k', v') :: d' =>
      if String.eqb k k' then (k', v) :: d' else (k', v') :: dict_set k v d'
  end.

(** [d.update(zip(keys, values))] *)
Definition dict_update (kvs : list (string * Q)) (d : dict) : dict :=
  fold_left (fun d kv => dict_set (fst kv) (snd kv) d) kvs d.

Fixpoint dict_get (k : string) (d : dict) : option Q :=
  match d with
  | [] => None
  | (k', v) :: d' => if String.eqb k k' then Some v else dict_get k d'
  end.

(** [k in d] *)
Definition dict_mem (k : string) (d : dict) : bool :=
  existsb (String.eqb k) (map fst d).

(** [k in set(l)] *)
Definition set_mem (k : string) (l : list string) : bool :=
  existsb (String.eqb k) l.

(** [np.argsort]: the indices in non-decreasing order of their values,
    equal values in the order of their [rank] (an insertion sort on the
    pairs of value and rank). *)
Definition sorts_before (rank : nat -> nat) (x y : nat * Q) : bool :=
  Qltb (snd x) (snd y)
  || (Qle_bool (snd x) (snd y) && (rank (fst x) <=? rank (fst y))).

Fixpoint insert_sorted (rank : nat -> nat) (x : nat * Q) (l : list (nat * Q))
  : list (nat * Q) :=
  match l with
  | [] => [x]
  | y :: l' =>
      if sorts_before rank x y then x :: y :: l'
      else y :: insert_sorted rank x l'
  end.

Definition sort_pairs (rank : nat -> nat) (l : list (nat * Q)) : list (nat * Q) :=
  fold_right (insert_sorted rank) [] l.

Definition argsort (a : list Q) : list nat :=
  map fst (sort_pairs (tie_break self a) (enumerate a)).

(** The stop index of a slice with a negative step, adjusted to a
    sequence of length [n] as Python does. *)
Definition adjust_stop (n stop : Z) : Z :=
  if (stop <? 0)%Z then (if (stop + n <? 0)%Z then -1 else stop + n)%Z
  else (if (n <=? stop)%Z then n - 1 else stop)%Z.

(** [a[: stop : -1]]: from the last entry down to, not including, [stop]. *)
Definition slice_down_to {A} (stop : Z) (a : list A) : list A :=
  let n := Z.of_nat (length a) in
  firstn (Z.to_nat (n - 1 - adjust_stop n stop)) (rev a).

(** *** [propose_sequences] *)

(** Fuel of every [while] loop execution. *)
Variable fuel : nat.

Section Round.

(** [measured_sequence_set] and [previous_model_cost] are fixed for the
    round once they are bound. *)
Variable measured_sequence_set : list string.
Variable previous_model_cost : nat.

(** [while len(children) < len(nodes)]: one mutant per node, drawn again
    until it is in neither the seed population nor [sequences]. *)
Fixpoint gen_children (n : nat) (sequences : dict) (nodes : list (nat * string))
    (child_idxs : list nat) (children : list string)
  : M (list nat * list string) :=
  if length children <? length nodes then
    match n with
    | 0 => diverge MutantLoop
    | S n' =>
        match nth_error nodes (length children) with
        | None => raise IndexError
        | Some (idx, node) =>
            if String.length node =? 0 then raise ZeroDivisionError
            else
              child <- generate_random_mutant node
                         (mu self * 1 / inject_Z (Z.of_nat (String.length node)))
                         (vocab self) ;;
              if negb (set_mem child measured_sequence_set)
                 && negb (dict_mem child sequences)
              then gen_children n' sequences nodes
                     (child_idxs ++ [idx]) (children ++ [child])
              else gen_children n' sequences nodes child_idxs children
        end
    end
  else ret (child_idxs, children).

(** [for idx, child, fitness in zip(child_idxs, children, fitnesses)]:
    the children that beat the root of their rollout. *)
Fixpoint prune (root_fitnesses : ndarray) (zipped : list (nat * string * Q))
  : M (list (nat * string)) :=
  match zipped with
  | [] => ret []
  | (idx, child, fitness) :: zipped' =>
      match getitem root_fitnesses idx with
      | None => raise IndexError
      | Some root_fitness =>
          nodes <- prune root_fitnesses zipped' ;;
          ret (if Qltb root_fitness fitness then (idx, child) :: nodes else nodes)
      end
  end.

(** The body of the rollout loop: draw the children, score them, record
    them in [sequences], keep the improving ones as the next nodes. *)
Definition rollout_step (root_fitnesses : ndarray) (nodes : list (nat * string))
    (sequences : dict) : M (list (nat * string) * dict) :=
  '(child_idxs, children) <- gen_children fuel sequences nodes [] [] ;;
  fitnesses <- get_fitness children ;;
  let fitnesses := tolist fitnesses in
  let sequences := dict_update (combine children fitnesses) sequences in
  nodes <- prune root_fitnesses
             (combine (combine child_idxs children) fitnesses) ;;
  ret (nodes, sequences).

(** [while len(nodes) > 0 and cost - previous + eval_batch_size < budget] *)
Fixpoint rollout (n : nat) (root_fitnesses : ndarray) (nodes : list (nat * string))
    (sequences : dict) : M dict :=
  st <- get_state ;;
  if (0 <? length nodes)
     && (model_cost st - previous_model_cost + eval_batch_size self
         <? model_queries_per_batch self)
  then
    match n with
    | 0 => diverge RolloutLoop
    | S n' =>
        '(nodes, sequences) <- rollout_step root_fitnesses nodes sequences ;;
        rollout n' root_fitnesses nodes sequences
    end
  else ret sequences.

(** The body of [for i in range(0, len(parents), self.eval_batch_size)]. *)
Definition rollout_chunk (roots : list string) (sequences : dict) : M dict :=
  root_fitnesses <- get_fitness roots ;;
  rollout fuel root_fitnesses (enumerate roots) sequences.

(** [while self.model_cost - previous_model_cost < budget] *)
Fixpoint budget_loop (n : nat) (parents : list string) (sequences : dict)
  : M dict :=
  st <- get_state ;;
  if model_cost st - previous_model_cost <? model_queries_per_batch self then
    match n with
    | 0 => diverge BudgetLoop
    | S n' =>
        parents <- repeat_m (rho self) recombine_population parents ;;
        sequences <-
          (if eval_batch_size self =? 0 then raise RangeStepZero
           else for_each rollout_chunk (chunks (eval_batch_size self) parents)
                  sequences) ;;
        budget_loop n' parents sequences
    end
  else ret sequences.

(** The budget loop when [parents] holds [n > 0] float zeros instead of
    sequences: the first use of an entry as a sequence raises.  With
    [rho > 0] and two or more entries that is [len(gen[i])] after the
    shuffle; otherwise it is the scoring of the first chunk, after the
    counter was charged. *)
Definition budget_loop_zeros (n : nat) : M dict :=
  st <- get_state ;;
  if model_cost st - previous_model_cost <? model_queries_per_batch self then
    if (0 <? rho self) && negb (n =? 1) then
      _ <- random_shuffle (repeat tt n) ;; raise TypeError
    else if eval_batch_size self =? 0 then raise RangeStepZero
    else fun st => (Raise ScorerError, add_cost (Nat.min (eval_batch_size self) n) st)
  else ret [].

End Round.

(** The cutoff of the parent selection, in exact arithmetic.  The code
    evaluates the same expression in the floating-point type of the
    scores: a score within a rounding error of the cutoff can fall on the
    other side of it. *)
Definition cutoff (top_fitness : Q) : Q :=
  (top_fitness * (1 - Qsign top_fitness * threshold self))%Q.

(** Lines 255-261: the sequences within the threshold of the best score,
    in population order. *)
Definition select_parents (initial_sequences : list string)
    (measured_fitnesses : ndarray) : M (list string) :=
  top_fitness <- ndarray_max measured_fitnesses ;;
  let top_inds := ndarray_argwhere_ge measured_fitnesses (cutoff top_fitness) in
  _ <- set_initial_top_fitness top_fitness ;;
  index_all initial_sequences top_inds.

(** Lines 251-306 of [propose_sequences]: everything up to the end of the
    budget loop; the result is the dict [sequences]. *)
Definition discover (initial_sequences : list string) : M dict :=
  measured_fitnesses <- get_fitness initial_sequences ;;
  parents <- select_parents initial_sequences measured_fitnesses ;;
  st <- get_state ;;
  let previous_model_cost := model_cost st in
  match np_resize parents (sequences_batch_size self) with
  | inl parents =>
      budget_loop initial_sequences previous_model_cost fuel parents []
  | inr 0 =>
      budget_loop initial_sequences previous_model_cost fuel [] []
  | inr (S n) => budget_loop_zeros previous_model_cost (S n)
  end.

(** Lines 308-317: the error on an empty dict and the top of the dict. *)
Definition select_top (sequences : dict) : M (list string * list Q) :=
  if length sequences =? 0 then raise NoSequencesGenerated
  else
    let new_seqs := map fst sequences in
    let preds := map snd sequences in
    let sorted_order :=
      slice_down_to (- Z.of_nat (sequences_batch_size self)) (argsort preds) in
    seqs <- index_all new_seqs sorted_order ;;
    scores <- index_all preds sorted_order ;;
    ret (seqs, scores).

Definition propose_sequences (initial_sequences : list string)
  : M (list string * list Q) :=
  sequences <- discover initial_sequences ;;
  select_top sequences.

End Methods.


(* ===================================================================== *)
(** ** Vocabulary of the statements                                        *)
(* ===================================================================== *)

(** A computation that leaves the query counter alone, whatever its
    outcome. *)
Definition keeps_cost {A} (m : M A) : Prop :=
  forall st, model_cost (snd (m st)) = model_cost st.

(** A computation that never lowers the query counter. *)
Definition grows_cost {A} (m : M A) : Prop :=
  forall st, model_cost st <= model_cost (snd (m st)).

(** A computation that can raise, but not the error of the empty dict. *)
Definition not_empty_error {A} (m : M A) : Prop :=
  forall st st', m st <> (Raise NoSequencesGenerated, st').

(** A computation in which only the mutant loop can run out of fuel. *)
Definition only_mutant_loop {A} (m : M A) : Prop :=
  forall st l st', m st = (Diverge l, st') -> l = MutantLoop.

(** An outcome other than running out of fuel. *)
Definition returns {A} (r : outcome A) : Prop :=
  match r with
  | Diverge _ => False
  | _ => True
  end.

(** [m'] does what [m] does whenever [m] does not run out of fuel. *)
Definition extends {A} (m m' : M A) : Prop :=
  forall st r st', m st = (r, st') -> returns r -> m' st = (r, st').

(** A scorer that returns on every batch that is not empty, one score
    per sequence. *)
Definition total_scorer (self : AdaLead) : Prop :=
  forall batch, batch <> [] ->
    exists fitnesses,
      fitness_fn self batch = Some fitnesses
      /\ length fitnesses = length batch.

(** A run of [get_fitness] calls, one batch after the other, each call
    made whatever the previous one returned or raised. *)
Fixpoint get_fitness_calls (self : AdaLead) (batches : list (list string))
    (st : state) : state :=
  match batches with
  | [] => st
  | batch :: batches' =>
      get_fitness_calls self batches' (snd (get_fitness self batch st))
  end.

(** The test applied by [prune] to one entry of the zipped lists. *)
Definition beats_root (root_fitnesses : ndarray) (z : nat * string * Q) : bool :=
  match getitem root_fitnesses (fst (fst z)) with
  | Some root_fitness => Qltb root_fitness (snd z)
  | None => false
  end.

(** What the mutant loop guarantees of the child drawn for a node. *)
Definition fresh_child (measured_sequence_set : list string) (sequences : dict)
    (node : nat * string) (child : string) : Prop :=
  String.length child = String.length (snd node)
  /\ set_mem child measured_sequence_set = false
  /\ dict_mem child sequences = false.

(** The order of [np.argsort] on (index, value) pairs. *)
Definition le_snd (x y : nat * Q) : Prop := (snd x <= snd y)%Q.
Definition ge_snd (x y : nat * Q) : Prop := (snd y <= snd x)%Q.

(** The place of index [i] in an order of the indices. *)
Fixpoint position (i : nat) (order : list nat) : nat :=
  match order with
  | [] => 0
  | j :: order' => if i =? j then 0 else S (position i order')
  end.

(** A dict whose keys are pairwise different and all satisfy [P]. *)
Definition dict_ok (P : string -> Prop) (d : dict) : Prop :=
  NoDup (map fst d) /\ Forall P (map fst d).

(** An (index, score) pair of the sorted order and the sequence returned
    for it: the dict holds that sequence with that score at that index. *)
Definition entry_at (sequences : dict) (p : nat * Q) (s : string) : Prop :=
  nth_error sequences (fst p) = Some (s, snd p).

(** Scores in non-increasing order. *)
Definition descending (scores : list Q) : Prop :=
  forall i j x y, i < j ->
    nth_error scores i = Some x -> nth_error scores j = Some y -> (y <= x)%Q.

(** *** Example instances *)

(** The fitness of the end-to-end example: the number of ['A'] in the
    sequence. *)
Fixpoint count_A (s : string) : Z :=
  match s with
  | EmptyString => 0
  | String c s' => ((if Ascii.eqb c "A" then 1 else 0) + count_A s')%Z
  end.

Definition count_A_fitness (batch : list string) : option (list Q) :=
  Some (map (fun s => inject_Z (count_A s)) batch).

(** A scorer that always raises. *)
Definition failing_fitness (batch : list string) : option (list Q) := None.

(** A fitness without ties: the sequence read as a number in base 4,
    with the digits A = 0, C = 1, G = 2, T = 3. *)
Definition base4_digit (c : ascii) : Z :=
  if Ascii.eqb c "C" then 1
  else if Ascii.eqb c "G" then 2
  else if Ascii.eqb c "T" then 3
  else 0.

Fixpoint base4 (s : string) (acc : Z) : Z :=
  match s with
  | EmptyString => acc
  | String c s' => base4 s' (4 * acc + base4_digit c)
  end.

Definition base4_fitness (batch : list string) : option (list Q) :=
  Some (map (fun s => inject_Z (base4 s 0)) batch).

(** An instance with the arguments of [__init__] that matter here: the
    fitness function, [recomb_rate], [mu] and [rho]; four sequences per
    batch, forty queries per round, chunks of two.  In the example
    instances [np.argsort] leaves equal scores in index order. *)
Definition example_instance (fitness : list string -> option (list Q))
    (recomb_rate mu : Q) (rho : nat) : AdaLead :=
  mkAdaLead fitness 4 40 4 0 "ACGT" mu recomb_rate (1 # 10) rho 2 (fun _ i => i).

(** The same instance with chunks of a single root. *)
Definition one_root_instance : AdaLead :=
  mkAdaLead count_A_fitness 4 40 4 0 "ACGT" 1 (1 # 2) (1 # 10) 1 1 (fun _ i => i).

(** An instance with two sequences per batch and the fitness without
    ties. *)
Definition two_per_batch_instance : AdaLead :=
  mkAdaLead base4_fitness 2 40 4 0 "ACGT" 1 (1 # 2) (1 # 10) 1 2 (fun _ i => i).

(** An instance whose budget of three queries is below its chunk size of
    five. *)
Definition small_budget_instance : AdaLead :=
  mkAdaLead count_A_fitness 4 3 4 0 "ACGT" 1 (1 # 2) (1 # 10) 1 5 (fun _ i => i).

(** The seed population of the examples. *)
Definition example_population : list string :=
  ["AACC"; "ACCC"; "CCCC"; "GGGA"]%string.

(** A fixed random tape and the initial state of an instance. *)
Definition example_tape (k : nat) : N :=
  (((N.of_nat k + 1) * 6364136223846793005 + 1442695040888963407)
     mod 18446744073709551616) / 2048.

Definition initial_state (tape : nat -> N) : state := mkState 0 None tape 0.

(* ===================================================================== *)
(** ** The other methods of the class                                      *)
(* ===================================================================== *)

(** [''.join(random.choice(self.vocab) for i in range(n))], before the
    join. *)
Fixpoint random_chars (alphabet : string) (n : nat) : M (list ascii) :=
  match n with
  | 0 => ret []
  | S n' =>
      c <- random_choice alphabet ;;
      rest <- random_chars alphabet n' ;;
      ret (c :: rest)
  end.

(** [start_from_random_sequences]: [num_sequences] strings of [seq_len]
    characters drawn from [vocab], appended one after the other. *)
Definition start_from_random_sequences (self : AdaLead) (num_sequences : nat)
  : M (list string) :=
  repeat_m num_sequences
    (fun sequence_list =>
       chars <- random_chars (vocab self) (seq_len self) ;;
       ret (sequence_list ++ [string_of_list_ascii chars]))
    [].

(** What [run] can raise: an exception of a round, or the
    UnboundLocalError of [self.preds = preds] when the loop body never
    ran; the line before it has set the attribute [new_seqs] by then. *)
Inductive run_exn : Type :=
| RoundError (e : exn)
| UnboundLocalError (new_seqs : list string).

(** The outcome of [run]: the attributes [new_seqs] and [preds] it sets at
    its end, an exception, or a loop of a round out of fuel. *)
Inductive run_outcome : Type :=
| Finished (new_seqs : list string) (preds : list Q)
| Failed (e : run_exn)
| Unfinished (l : loop).

(** [for iteration in pbar] and the two assignments after it: each round
    proposes from the output of the round before and takes [max(preds)]
    for the progress bar; [preds] is [None] as long as no round has
    assigned it. *)
Fixpoint run_rounds (self : AdaLead) (fuel iterations : nat)
    (new_seqs : list string) (preds : option (list Q)) (st : state)
  : run_outcome * state :=
  match iterations with
  | 0 =>
      match preds with
      | Some preds => (Finished new_seqs preds, st)
      | None => (Failed (UnboundLocalError new_seqs), st)
      end
  | S iterations' =>
      match propose_sequences self fuel new_seqs st with
      | (Ok (new_seqs, preds), st1) =>
          match array_max preds st1 with
          | (Ok final_top_fitness, st2) =>
              run_rounds self fuel iterations' new_seqs (Some preds) st2
          | (Raise e, st2) => (Failed (RoundError e), st2)
          | (Diverge l, st2) => (Unfinished l, st2)
          end
      | (Raise e, st1) => (Failed (RoundError e), st1)
      | (Diverge l, st1) => (Unfinished l, st1)
      end
  end.

(** [run]; [measured_sequences] is the attribute of that name, [None] or
    the initial sequences. *)
Definition run (self : AdaLead) (fuel : nat)
    (measured_sequences : option (list string)) (num_iterations : nat)
    (st : state) : run_outcome * state :=
  match measured_sequences with
  | None =>
      match start_from_random_sequences self (sequences_batch_size self) st with
      | (Ok new_seqs, st1) => run_rounds self fuel num_iterations new_seqs None st1
      | (Raise e, st1) => (Failed (RoundError e), st1)
      | (Diverge l, st1) => (Unfinished l, st1)
      end
  | Some new_seqs => run_rounds self fuel num_iterations new_seqs None st
  end.

(** *** More vocabulary *)

(** The number of sequences [run] starts from: those given, or
    [sequences_batch_size] random ones. *)
Definition start_size (self : AdaLead) (measured_sequences : option (list string))
  : nat :=
  match measured_sequences with
  | Some new_seqs => length new_seqs
  | None => sequences_batch_size self
  end.

(** The dict [d'] is [d] with new entries appended, whose keys are in
    neither the seed population nor [d]. *)
Definition grows (measured_sequence_set : list string) (d d' : dict) : Prop :=
  exists added,
    d' = d ++ added
    /\ Forall (fun kv => set_mem (fst kv) measured_sequence_set = false
                         /\ dict_mem (fst kv) d = false) added.

(** The state after [n] more draws from the random tape. *)
Definition advance_by (n : nat) (st : state) : state :=
  mkState (model_cost st) (initial_top_fitness st) (rng_tape st) (rng_pos st + n).

(** Every character of [s] is a character of [alphabet]. *)
Definition over_alphabet (alphabet : string) (s : string) : Prop :=
  Forall (fun c => In c (list_ascii_of_string alphabet)) (list_ascii_of_string s).

(** A computation that reads the random tape and may charge queries, and
    does nothing else to the state. *)
Definition keeps_frame {A} (m : M A) : Prop :=
  forall st,
    rng_tape (snd (m st)) = rng_tape st
    /\ initial_top_fitness (snd (m st)) = initial_top_fitness st
    /\ rng_pos st <= rng_pos (snd (m st)).

(** Two children of a crossover of [a] and [b]: at each position of [a]
    one child holds the character of [a] and the other the character of
    [b]. *)
Inductive mixed : list ascii -> list ascii -> list ascii -> list ascii -> Prop :=
| mixed_end b : mixed [] b [] []
| mixed_switch ca a cb b strA strB :
    mixed a b strA strB -> mixed (ca :: a) (cb :: b) (ca :: strA) (cb :: strB)
| mixed_straight ca a cb b strA strB :
    mixed a b strA strB -> mixed (ca :: a) (cb :: b) (cb :: strA) (ca :: strB).

(** The list returned for a shuffled list: two mixed children for each
    consecutive pair, nothing for a last entry without partner. *)
Inductive children_of : list string -> list string -> Prop :=
| children_none : children_of [] []
| children_odd x : children_of [x] []
| children_pair x y gen strA strB ret :
    mixed (list_ascii_of_string x) (list_ascii_of_string y)
      (list_ascii_of_string strA) (list_ascii_of_string strB) ->
    children_of gen ret ->
    children_of (x :: y :: gen) (strA :: strB :: ret).

(** The list returned without mixing: each consecutive pair in swapped
    order. *)
Fixpoint swap_pairs (gen : list string) : list string :=
  match gen with
  | x :: y :: rest => y :: x :: swap_pairs rest
  | _ => []
  end.

(* ===================================================================== *)
(** ** Reasoning about monadic code                                        *)
(* ===================================================================== *)

Create HintDb cost.

Lemma bind_ok {A B} (m : M A) (f : A -> M B) st b st' :
  bind m f st = (Ok b, st') ->
  exists a st1, m st = (Ok a, st1) /\ f a st1 = (Ok b, st').
Proof.
  unfold bind. destruct (m st) as [[a | e | l] st1]; intro H; try discriminate.
  exists a, st1. auto.
Qed.

Lemma bind_diverge {A B} (m : M A) (f : A -> M B) st l st' :
  bind m f st = (Diverge l, st') ->
  m st = (Diverge l, st') \/
  exists a st1, m st = (Ok a, st1) /\ f a st1 = (Diverge l, st').
Proof.
  unfold bind. destruct (m st) as [[a | e | l0] st1]; intro H; try discriminate.
  - right. exists a, st1. auto.
  - left. inversion H. reflexivity.
Qed.

Lemma bind_raise {A B} (m : M A) (f : A -> M B) st e st' :
  bind m f st = (Raise e, st') ->
  m st = (Raise e, st') \/
  exists a st1, m st = (Ok a, st1) /\ f a st1 = (Raise e, st').
Proof.
  unfold bind. destruct (m st) as [[a | e0 | l0] st1]; intro H; try discriminate.
  - right. exists a, st1. auto.
  - left. inversion H. reflexivity.
Qed.

Lemma bind_run {A B} (m : M A) (f : A -> M B) st a st1 :
  m st = (Ok a, st1) -> bind m f st = f a st1.
Proof. unfold bind. intros ->. reflexivity. Qed.

Lemma bind_get_state {B} (f : state -> M B) st :
  bind get_state f st = f st st.
Proof. reflexivity. Qed.

Lemma ret_ok {A} (a b : A) st st' : ret a st = (Ok b, st') -> a = b /\ st = st'.
Proof. unfold ret. intro H. inversion H. auto. Qed.

(** Split a hypothesis [H : (x <- m ;; k) st = (Ok b, st')] into the run of
    [m] and the run of the continuation, as long as that is possible. *)
Ltac ok_inv H :=
  let a := fresh "a" in
  let st1 := fresh "st" in
  let H1 := fresh "Hrun" in
  match type of H with
  | bind _ _ _ = (Ok _, _) =>
      apply bind_ok in H; destruct H as (a & st1 & H1 & H)
  | ret _ _ = (Ok _, _) =>
      unfold ret in H; inversion H; subst; clear H
  | raise _ _ = (Ok _, _) => discriminate H
  | diverge _ _ = (Ok _, _) => discriminate H
  | get_state _ = (Ok _, _) =>
      unfold get_state in H; inversion H; subst; clear H
  end.

Lemma keeps_cost_ret {A} (a : A) : keeps_cost (ret a).
Proof. intro st. reflexivity. Qed.

Lemma keeps_cost_raise {A} e : keeps_cost (@raise A e).
Proof. intro st. reflexivity. Qed.

Lemma keeps_cost_diverge {A} l : keeps_cost (@diverge A l).
Proof. intro st. reflexivity. Qed.

Lemma keeps_cost_bind {A B} (m : M A) (f : A -> M B) :
  keeps_cost m -> (forall a, keeps_cost (f a)) -> keeps_cost (bind m f).
Proof.
  intros Hm Hf st. unfold bind. specialize (Hm st).
  destruct (m st) as [[a | e | l] st1]; simpl in *; auto.
  rewrite Hf. exact Hm.
Qed.

Lemma grows_cost_bind {A B} (m : M A) (f : A -> M B) :
  grows_cost m -> (forall a, grows_cost (f a)) -> grows_cost (bind m f).
Proof.
  intros Hm Hf st. unfold bind. specialize (Hm st).
  destruct (m st) as [[a | e | l] st1]; simpl in *; auto.
  specialize (Hf a st1). lia.
Qed.

Lemma keeps_grows {A} (m : M A) : keeps_cost m -> grows_cost m.
Proof. intros H st. rewrite H. lia. Qed.

Lemma keeps_cost_run {A} (m : M A) st r st' :
  keeps_cost m -> m st = (r, st') -> model_cost st' = model_cost st.
Proof. intros H E. specialize (H st). rewrite E in H. exact H. Qed.

Lemma grows_cost_run {A} (m : M A) st r st' :
  grows_cost m -> m st = (r, st') -> model_cost st <= model_cost st'.
Proof. intros H E. specialize (H st). rewrite E in H. exact H. Qed.

Lemma keeps_cost_random_random : keeps_cost random_random.
Proof. intro st. reflexivity. Qed.

Lemma keeps_cost_randbelow n : keeps_cost (randbelow n).
Proof. intro st. reflexivity. Qed.

Lemma keeps_cost_random_choice alphabet : keeps_cost (random_choice alphabet).
Proof.
  destruct alphabet as [| c s]; unfold random_choice.
  - apply keeps_cost_raise.
  - apply keeps_cost_bind; [apply keeps_cost_randbelow |].
    intro j. destruct (String.get j (String c s)).
    + apply keeps_cost_ret.
    + apply keeps_cost_raise.
Qed.

Lemma keeps_cost_shuffle_down {A} k (x : list A) : keeps_cost (shuffle_down k x).
Proof.
  revert x. induction k as [| k IH]; intro x; simpl.
  - apply keeps_cost_ret.
  - apply keeps_cost_bind; [apply keeps_cost_randbelow | intro j; apply IH].
Qed.

Lemma keeps_cost_random_shuffle {A} (x : list A) : keeps_cost (random_shuffle x).
Proof. apply keeps_cost_shuffle_down. Qed.

#[local] Hint Resolve keeps_cost_ret keeps_cost_raise keeps_cost_diverge
  keeps_cost_random_random keeps_cost_randbelow keeps_cost_random_choice
  keeps_cost_random_shuffle : cost.

(** *** The unit interval *)

Lemma unit_value_nonneg raw : (0 <= unit_value raw)%Q.
Proof.
  unfold unit_value, Qle. simpl. rewrite Z.mul_1_r. apply N2Z.is_nonneg.
Qed.

Lemma unit_value_lt_1 raw : (unit_value raw < 1)%Q.
Proof.
  unfold unit_value, Qlt. simpl. rewrite Z.mul_1_r.
  change 9007199254740992%Z with (Z.of_N two53).
  apply N2Z.inj_lt. apply N.mod_upper_bound. discriminate.
Qed.

Lemma Qltb_true x y : Qltb x y = true <-> (x < y)%Q.
Proof.
  unfold Qltb. rewrite negb_true_iff. split.
  - intro H. apply Qnot_le_lt. intro Hle. apply Qle_bool_iff in Hle. congruence.
  - intro H. destruct (Qle_bool y x) eqn:E; [| reflexivity].
    apply Qle_bool_iff in E. apply Qlt_not_le in H. contradiction.
Qed.

Lemma Qltb_false x y : Qltb x y = false <-> (y <= x)%Q.
Proof.
  unfold Qltb. rewrite negb_false_iff. apply Qle_bool_iff.
Qed.

Lemma random_random_run st :
  random_random st = (Ok (unit_value (rng_tape st (rng_pos st))), advance st).
Proof. reflexivity. Qed.

(* ===================================================================== *)
(** ** [get_fitness] and the query counter                                 *)
(* ===================================================================== *)

Lemma get_fitness_cost self sequence_list st :
  model_cost (snd (get_fitness self sequence_list st))
  = model_cost st + length sequence_list.
Proof.
  unfold get_fitness. destruct (fitness_fn self sequence_list); reflexivity.
Qed.

Lemma grows_cost_get_fitness self sequence_list :
  grows_cost (get_fitness self sequence_list).
Proof. intro st. rewrite get_fitness_cost. lia. Qed.

Lemma tolist_squeeze scores : tolist (squeeze scores) = scores.
Proof. destruct scores as [| x [| y scores]]; reflexivity. Qed.

Lemma squeeze_two x y scores : squeeze (x :: y :: scores) = Array1 (x :: y :: scores).
Proof. reflexivity. Qed.

Lemma get_fitness_ok self sequence_list st a st' :
  get_fitness self sequence_list st = (Ok a, st') ->
  exists fitnesses,
    fitness_fn self sequence_list = Some fitnesses
    /\ a = squeeze fitnesses
    /\ st' = add_cost (length sequence_list) st.
Proof.
  unfold get_fitness. destruct (fitness_fn self sequence_list) as [fitnesses |];
    intro H; inversion H. exists fitnesses. auto.
Qed.

Lemma get_fitness_calls_cost self batches :
  forall st,
    model_cost (get_fitness_calls self batches st)
    = model_cost st + list_sum (map (@length string) batches).
Proof.
  induction batches as [| batch batches IH]; intro st; simpl.
  - lia.
  - rewrite IH, get_fitness_cost. lia.
Qed.


(* ===================================================================== *)
(** ** Parent selection                                                    *)
(* ===================================================================== *)

Lemma fold_max_spec (a : list Q) :
  forall x,
    let r := fold_left (fun m y => if Qltb m y then y else m) a x in
    In r (x :: a) /\ (x <= r)%Q /\ (forall y, In y a -> (y <= r)%Q).
Proof.
  induction a as [| z a IH]; intro x; simpl.
  - split; [auto | split; [apply Qle_refl | tauto]].
  - destruct (Qltb x z) eqn:E.
    + destruct (IH z) as (Hin & Hle & Hall).
      apply Qltb_true in E.
      split; [| split].
      * destruct Hin as [<- | Hin]; auto.
      * eapply Qle_trans; [apply Qlt_le_weak; exact E | exact Hle].
      * intros y [<- | Hy]; auto.
    + destruct (IH x) as (Hin & Hle & Hall).
      apply Qltb_false in E.
      split; [| split].
      * destruct Hin as [<- | Hin]; auto.
      * exact Hle.
      * intros y [<- | Hy]; auto.
        eapply Qle_trans; [exact E | exact Hle].
Qed.

Lemma array_max_ok a st top st' :
  array_max a st = (Ok top, st') ->
  st' = st /\ In top a /\ (forall x, In x a -> (x <= top)%Q).
Proof.
  destruct a as [| x a]; simpl; intro H; [discriminate |].
  unfold ret in H. inversion H; subst. clear H.
  destruct (fold_max_spec a x) as (Hin & Hle & Hall).
  split; [reflexivity | split; [exact Hin |]].
  intros y [<- | Hy]; auto.
Qed.

Lemma argwhere_ge_from_spec (a : list Q) (cutoff : Q) :
  forall k i,
    In i (argwhere_ge_from k a cutoff) <->
    k <= i /\ exists x, nth_error a (i - k) = Some x /\ (cutoff <= x)%Q.
Proof.
  induction a as [| y a IH]; intros k i; simpl.
  - split; [tauto |]. intros (_ & x & H & _). destruct (i - k); discriminate.
  - assert (Hrec : In i (argwhere_ge_from (S k) a cutoff) <->
                   k < i /\ exists x, nth_error a (i - S k) = Some x /\ (cutoff <= x)%Q).
    { rewrite IH. unfold lt. reflexivity. }
    destruct (Qle_bool cutoff y) eqn:E.
    + simpl. rewrite Hrec. split.
      * intros [<- | (Hlt & x & Hx & Hc)].
        -- split; [lia |]. exists y. rewrite Nat.sub_diag.
           split; [reflexivity | apply Qle_bool_iff; exact E].
        -- split; [lia |]. exists x. replace (i - k) with (S (i - S k)) by lia.
           auto.
      * intros (Hle & x & Hx & Hc).
        destruct (Nat.eq_dec k i) as [-> | Hne]; [left; reflexivity | right].
        split; [lia |]. exists x.
        replace (i - k) with (S (i - S k)) in Hx by lia. auto.
    + rewrite Hrec. split.
      * intros (Hlt & x & Hx & Hc).
        split; [lia |]. exists x. replace (i - k) with (S (i - S k)) by lia.
        auto.
      * intros (Hle & x & Hx & Hc).
        destruct (Nat.eq_dec k i) as [-> | Hne].
        -- rewrite Nat.sub_diag in Hx. inversion Hx; subst.
           apply Qle_bool_iff in Hc. congruence.
        -- split; [lia |]. exists x.
           replace (i - k) with (S (i - S k)) in Hx by lia. auto.
Qed.

Lemma argwhere_ge_spec a cutoff i :
  In i (argwhere_ge a cutoff) <->
  exists x, nth_error a i = Some x /\ (cutoff <= x)%Q.
Proof.
  unfold argwhere_ge. rewrite argwhere_ge_from_spec, Nat.sub_0_r.
  split; [tauto | intro H; split; [lia | exact H]].
Qed.

Lemma argwhere_ge_from_sorted a cutoff :
  forall k, StronglySorted lt (argwhere_ge_from k a cutoff).
Proof.
  induction a as [| y a IH]; intro k; simpl; [constructor |].
  destruct (Qle_bool cutoff y); [| apply IH].
  constructor; [apply IH |].
  apply Forall_forall. intros i Hi.
  apply argwhere_ge_from_spec in Hi. lia.
Qed.

Lemma index_all_ok {A} (a : list A) inds st r st' :
  index_all a inds st = (Ok r, st') ->
  st' = st /\ map Some r = map (nth_error a) inds.
Proof.
  revert r st'. induction inds as [| i inds IH]; intros r st' H; simpl in H.
  - ok_inv H. auto.
  - destruct (nth_error a i) as [x |] eqn:E; [| discriminate].
    ok_inv H. ok_inv H. apply IH in Hrun. destruct Hrun as [-> Hmap].
    split; [reflexivity |]. simpl. rewrite E, Hmap. reflexivity.
Qed.

Lemma index_all_total {A} (a : list A) inds st :
  Forall (fun i => i < length a) inds ->
  exists r, index_all a inds st = (Ok r, st).
Proof.
  induction inds as [| i inds IH]; intro H; simpl.
  - exists []. reflexivity.
  - inversion H; subst.
    destruct (nth_error a i) as [x |] eqn:E.
    + destruct (IH H3) as [r Hr]. exists (x :: r).
      erewrite bind_run by exact Hr. reflexivity.
    + apply nth_error_None in E. lia.
Qed.

Lemma ndarray_max_ok a st top st' :
  ndarray_max a st = (Ok top, st') ->
  st' = st /\ In top (tolist a) /\ (forall x, In x (tolist a) -> (x <= top)%Q).
Proof.
  destruct a as [x | a]; [| apply array_max_ok].
  simpl. intro H. ok_inv H. split; [reflexivity | split; [left; reflexivity |]].
  intros y [<- | []]. apply Qle_refl.
Qed.

Lemma select_parents_ok self population fitnesses st parents st' :
  select_parents self population fitnesses st = (Ok parents, st') ->
  exists top_fitness,
    In top_fitness (tolist fitnesses)
    /\ (forall x, In x (tolist fitnesses) -> (x <= top_fitness)%Q)
    /\ map Some parents
       = map (nth_error population)
           (ndarray_argwhere_ge fitnesses (cutoff self top_fitness))
    /\ model_cost st' = model_cost st.
Proof.
  unfold select_parents. intro H.
  ok_inv H. apply ndarray_max_ok in Hrun. destruct Hrun as (-> & Hin & Hmax).
  ok_inv H. unfold set_initial_top_fitness in Hrun. inversion Hrun; subst. clear Hrun.
  apply index_all_ok in H. destruct H as [-> Hmap].
  exists a. auto.
Qed.

Lemma nth_error_concat_repeat {A} (a : list A) c :
  a <> [] ->
  forall j, j < c * length a ->
    nth_error (concat (repeat a c)) j = nth_error a (j mod length a).
Proof.
  intro Hne.
  assert (Hlen : length a <> 0) by (destruct a; [congruence | discriminate]).
  induction c as [| c IH]; intros j Hj; [simpl in Hj; lia |].
  simpl repeat. simpl concat.
  destruct (Nat.lt_ge_cases j (length a)) as [Hlt | Hge].
  - rewrite nth_error_app1 by exact Hlt. rewrite Nat.mod_small by exact Hlt.
    reflexivity.
  - rewrite nth_error_app2 by exact Hge. rewrite IH by (simpl in Hj; lia).
    f_equal.
    replace j with ((j - length a) + 1 * length a) at 2 by lia.
    rewrite Nat.Div0.mod_add. reflexivity.
Qed.

Lemma length_concat_repeat {A} (a : list A) c :
  length (concat (repeat a c)) = c * length a.
Proof.
  induction c as [| c IH]; simpl; [reflexivity |].
  rewrite length_app, IH. reflexivity.
Qed.

Lemma ceil_div_covers n d : d <> 0 -> n <= ceil_div n d * d.
Proof.
  intro Hd. unfold ceil_div.
  pose proof (Nat.div_mod_eq (n + d - 1) d) as H.
  pose proof (Nat.mod_upper_bound (n + d - 1) d Hd) as Hm.
  nia.
Qed.

Lemma np_resize_wraps a new_size parents :
  np_resize a new_size = inl parents ->
  length parents = new_size
  /\ forall j, j < new_size ->
       nth_error parents j = nth_error a (j mod length a).
Proof.
  unfold np_resize. intro E.
  destruct (length a =? 0) eqn:Ea; [discriminate |].
  apply Nat.eqb_neq in Ea.
  destruct (new_size =? 0) eqn:Ek.
  - apply Nat.eqb_eq in Ek. inversion E; subst. split; [reflexivity |].
    intros j Hj. lia.
  - inversion E; subst. clear E.
    pose proof (ceil_div_covers new_size (length a) Ea) as Hc.
    pose proof (length_concat_repeat a (ceil_div new_size (length a))) as Hcl.
    split.
    + rewrite length_firstn, Hcl. lia.
    + intros j Hj. rewrite nth_error_firstn.
      apply Nat.ltb_lt in Hj. rewrite Hj. apply Nat.ltb_lt in Hj.
      apply nth_error_concat_repeat; [| lia].
      intros ->. simpl in Ea. congruence.
Qed.


(* ===================================================================== *)
(** ** Mutation                                                            *)
(* ===================================================================== *)

Lemma length_string_of_list_ascii l :
  String.length (string_of_list_ascii l) = length l.
Proof. induction l as [| c l IH]; simpl; congruence. Qed.

Lemma length_list_ascii_of_string s :
  length (list_ascii_of_string s) = String.length s.
Proof. induction s as [| c s IH]; simpl; congruence. Qed.

Lemma keeps_cost_mutate_chars sequence mu alphabet :
  keeps_cost (mutate_chars sequence mu alphabet).
Proof.
  induction sequence as [| s rest IH]; simpl; auto with cost.
  apply keeps_cost_bind; [auto with cost | intro r].
  apply keeps_cost_bind; [destruct (Qltb r mu); auto with cost | intro c].
  apply keeps_cost_bind; [exact IH | intro m; auto with cost].
Qed.

Lemma keeps_cost_generate_random_mutant sequence mu alphabet :
  keeps_cost (generate_random_mutant sequence mu alphabet).
Proof.
  unfold generate_random_mutant.
  apply keeps_cost_bind; [apply keeps_cost_mutate_chars | auto with cost].
Qed.

Lemma mutate_chars_length sequence mu alphabet :
  forall st mutant st',
    mutate_chars sequence mu alphabet st = (Ok mutant, st') ->
    length mutant = length sequence.
Proof.
  induction sequence as [| s rest IH]; intros st mutant st' H; simpl in H.
  - ok_inv H. reflexivity.
  - ok_inv H. ok_inv H. ok_inv H. ok_inv H.
    simpl. f_equal. eapply IH. exact Hrun1.
Qed.

Lemma generate_random_mutant_length sequence mu alphabet st child st' :
  generate_random_mutant sequence mu alphabet st = (Ok child, st') ->
  String.length child = String.length sequence.
Proof.
  unfold generate_random_mutant. intro H. ok_inv H. ok_inv H.
  apply mutate_chars_length in Hrun.
  rewrite length_string_of_list_ascii, Hrun. apply length_list_ascii_of_string.
Qed.

Lemma mutate_chars_never_diverges sequence mu alphabet :
  forall st l st', mutate_chars sequence mu alphabet st <> (Diverge l, st').
Proof.
  induction sequence as [| s rest IH]; intros st l st' H; simpl in H.
  - discriminate.
  - apply bind_diverge in H. destruct H as [H | (r & st1 & _ & H)]; [discriminate |].
    apply bind_diverge in H. destruct H as [H | (c & st2 & _ & H)].
    + destruct (Qltb r mu); [| discriminate].
      destruct alphabet as [| c0 s0]; [discriminate |].
      unfold random_choice in H.
      apply bind_diverge in H. destruct H as [H | (j & st2 & _ & H)]; [discriminate |].
      destruct (String.get j (String c0 s0)); discriminate.
    + apply bind_diverge in H. destruct H as [H | (m & st3 & _ & H)].
      * eapply IH; exact H.
      * discriminate.
Qed.

Lemma generate_random_mutant_never_diverges sequence mu alphabet st l st' :
  generate_random_mutant sequence mu alphabet st <> (Diverge l, st').
Proof.
  unfold generate_random_mutant. intro H.
  apply bind_diverge in H. destruct H as [H | (m & st1 & _ & H)].
  - eapply mutate_chars_never_diverges; exact H.
  - discriminate.
Qed.

(** With a mutation rate that is not positive no draw of [random()] is
    below it, and the mutant is the sequence itself. *)
Lemma mutate_chars_rate_0 sequence mu alphabet :
  (mu <= 0)%Q ->
  forall st, exists st',
    mutate_chars sequence mu alphabet st = (Ok sequence, st').
Proof.
  intro Hmu. induction sequence as [| s rest IH]; intro st; simpl.
  - exists st. reflexivity.
  - unfold bind at 1. rewrite random_random_run.
    assert (E : Qltb (unit_value (rng_tape st (rng_pos st))) mu = false).
    { apply Qltb_false. eapply Qle_trans; [exact Hmu | apply unit_value_nonneg]. }
    rewrite E. unfold bind at 1. unfold ret at 1.
    destruct (IH (advance st)) as [st' Hst']. exists st'.
    erewrite bind_run by exact Hst'. reflexivity.
Qed.

Lemma generate_random_mutant_rate_0 sequence mu alphabet st :
  (mu <= 0)%Q ->
  exists st', generate_random_mutant sequence mu alphabet st = (Ok sequence, st').
Proof.
  intro Hmu. unfold generate_random_mutant.
  destruct (mutate_chars_rate_0 (list_ascii_of_string sequence) mu alphabet Hmu st)
    as [st' Hst'].
  exists st'. erewrite bind_run by exact Hst'.
  unfold ret. rewrite string_of_list_ascii_of_string. reflexivity.
Qed.

(* ===================================================================== *)
(** ** The mutant loop and the pruning                                     *)
(* ===================================================================== *)

Section MutantLoop.

Variable self : AdaLead.
Variable measured_sequence_set : list string.

Lemma gen_children_ok n sequences nodes :
  forall child_idxs children st child_idxs' children' st',
    gen_children self measured_sequence_set n sequences nodes child_idxs children st
    = (Ok (child_idxs', children'), st') ->
    length children <= length nodes ->
    exists new_children,
      child_idxs' = child_idxs ++ map fst (skipn (length children) nodes)
      /\ children' = children ++ new_children
      /\ Forall2 (fresh_child measured_sequence_set sequences) (skipn (length children) nodes) new_children
      /\ model_cost st' = model_cost st.
Proof.
  induction n as [| n IH]; intros child_idxs children st ci' ch' st' H Hlen;
    simpl in H.
  - destruct (length children <? length nodes) eqn:E; [discriminate |].
    ok_inv H. apply Nat.ltb_ge in E.
    exists []. rewrite skipn_all2 by lia. simpl. rewrite !app_nil_r. auto.
  - destruct (length children <? length nodes) eqn:E.
    + apply Nat.ltb_lt in E.
      destruct (nth_error nodes (length children)) as [[idx node] |] eqn:Hnth;
        [| discriminate].
      destruct (String.length node =? 0); [discriminate |].
      ok_inv H.
      assert (Hcost : model_cost st0 = model_cost st)
        by (eapply keeps_cost_run; [apply keeps_cost_generate_random_mutant | exact Hrun]).
      apply generate_random_mutant_length in Hrun.
      destruct (negb (set_mem a measured_sequence_set)
                && negb (dict_mem a sequences)) eqn:Hnew.
      * apply IH in H; [| rewrite length_app; simpl; lia].
        destruct H as (new & Hci & Hch & Hall & Hc).
        rewrite length_app in Hci, Hall. simpl in Hci, Hall.
        assert (Hskip : skipn (length children) nodes
                        = (idx, node) :: skipn (length children + 1) nodes).
        { rewrite Nat.add_1_r.
          clear - Hnth. revert nodes Hnth.
          induction (length children) as [| k IHk]; intros nodes Hnth;
            destruct nodes as [| x nodes]; simpl in *; try discriminate.
          - inversion Hnth. reflexivity.
          - apply IHk. exact Hnth. }
        exists (a :: new). rewrite Hskip. simpl.
        rewrite <- !app_assoc in *. simpl in *.
        split; [exact Hci | split; [exact Hch | split; [| lia]]].
        constructor; [| exact Hall].
        apply andb_true_iff in Hnew. destruct Hnew as [H1 H2].
        apply negb_true_iff in H1. apply negb_true_iff in H2.
        unfold fresh_child. simpl. auto.
      * apply IH in H; [| exact Hlen].
        destruct H as (new & Hci & Hch & Hall & Hc).
        exists new. split; [exact Hci | split; [exact Hch | split; [exact Hall | lia]]].
    + ok_inv H. apply Nat.ltb_ge in E.
      exists []. rewrite skipn_all2 by lia. simpl. rewrite !app_nil_r. auto.
Qed.

Lemma gen_children_diverges_in_mutant_loop n sequences nodes :
  forall child_idxs children st l st',
    gen_children self measured_sequence_set n sequences nodes child_idxs children st
    = (Diverge l, st') ->
    l = MutantLoop.
Proof.
  induction n as [| n IH]; intros child_idxs children st l st' H; simpl in H.
  - destruct (length children <? length nodes); [| discriminate].
    inversion H. reflexivity.
  - destruct (length children <? length nodes); [| discriminate].
    destruct (nth_error nodes (length children)) as [[idx node] |]; [| discriminate].
    destruct (String.length node =? 0); [discriminate |].
    apply bind_diverge in H. destruct H as [H | (child & st1 & _ & H)].
    + exfalso. eapply generate_random_mutant_never_diverges; exact H.
    + destruct (negb (set_mem child measured_sequence_set)
                && negb (dict_mem child sequences)); eapply IH; exact H.
Qed.

Lemma keeps_cost_gen_children n sequences nodes :
  forall child_idxs children,
    keeps_cost (gen_children self measured_sequence_set n sequences nodes
                  child_idxs children).
Proof.
  induction n as [| n IH]; intros child_idxs children; simpl.
  - destruct (length children <? length nodes); auto with cost.
  - destruct (length children <? length nodes); auto with cost.
    destruct (nth_error nodes (length children)) as [[idx node] |]; auto with cost.
    destruct (String.length node =? 0); auto with cost.
    apply keeps_cost_bind; [apply keeps_cost_generate_random_mutant |].
    intro child.
    destruct (negb (set_mem child measured_sequence_set)
              && negb (dict_mem child sequences)); apply IH.
Qed.

Lemma prune_ok root_fitnesses zipped :
  forall st nodes st',
    prune root_fitnesses zipped st = (Ok nodes, st') ->
    st' = st
    /\ nodes = map fst (filter (beats_root root_fitnesses) zipped).
Proof.
  induction zipped as [| [[idx child] fitness] zipped IH]; intros st nodes st' H;
    simpl in H.
  - ok_inv H. auto.
  - unfold beats_root at 1. simpl.
    destruct (getitem root_fitnesses idx) as [r |] eqn:E; [| discriminate].
    ok_inv H. ok_inv H. apply IH in Hrun. destruct Hrun as [-> ->].
    split; [reflexivity |].
    destruct (Qltb r fitness); reflexivity.
Qed.

Lemma keeps_cost_prune root_fitnesses zipped :
  keeps_cost (prune root_fitnesses zipped).
Proof.
  induction zipped as [| [[idx child] fitness] zipped IH]; simpl; auto with cost.
  destruct (getitem root_fitnesses idx); auto with cost.
  apply keeps_cost_bind; [exact IH | auto with cost].
Qed.

Lemma prune_never_diverges root_fitnesses zipped :
  forall st l st', prune root_fitnesses zipped st <> (Diverge l, st').
Proof.
  induction zipped as [| [[idx child] fitness] zipped IH]; intros st l st' H;
    simpl in H; [discriminate |].
  destruct (getitem root_fitnesses idx); [| discriminate].
  apply bind_diverge in H. destruct H as [H | (x & st1 & _ & H)].
  - eapply IH; exact H.
  - discriminate.
Qed.

End MutantLoop.

Lemma rollout_step_ok self fuel measured root_fitnesses nodes sequences
    st nodes' sequences' st' :
  rollout_step self fuel measured root_fitnesses nodes sequences st
  = (Ok (nodes', sequences'), st') ->
  exists children fitnesses,
    Forall2 (fresh_child measured sequences) nodes children
    /\ fitness_fn self children = Some fitnesses
    /\ sequences' = dict_update (combine children fitnesses) sequences
    /\ nodes' = map fst (filter (beats_root root_fitnesses)
                           (combine (combine (map fst nodes) children) fitnesses))
    /\ model_cost st' = model_cost st + length nodes.
Proof.
  unfold rollout_step. intro H.
  ok_inv H. destruct a as [child_idxs children].
  apply gen_children_ok in Hrun; [| simpl; lia].
  destruct Hrun as (new & Hci & Hch & Hall & Hcost). simpl in *. subst.
  ok_inv H. apply get_fitness_ok in Hrun.
  destruct Hrun as (fitnesses & Hfit & -> & ->).
  cbv zeta in H. rewrite tolist_squeeze in H.
  ok_inv H. apply prune_ok in Hrun. destruct Hrun as [-> ->].
  ok_inv H.
  exists new, fitnesses. repeat split; auto.
  simpl. rewrite Hcost. f_equal. symmetry. eapply Forall2_length. exact Hall.
Qed.

Lemma prune_zero_dimensional root_fitness zipped st :
  zipped <> [] -> prune (Array0 root_fitness) zipped st = (Raise IndexError, st).
Proof. destruct zipped as [| [[idx child] fitness] zipped]; [congruence | reflexivity]. Qed.

(** C2: in one step of a rollout the children are scored and the child
    of a node becomes a node of the next step exactly when its score is
    strictly above the score of the root whose index the node carries,
    which is the root of the lineage and not the node it was mutated
    from: this is what the step does when the scores of the roots are an
    array with an axis, that is for a chunk of two or more roots.  For a
    chunk of a single root [squeeze()] has left a zero-dimensional array:
    the children are drawn, scored and recorded, and the comparison with
    [root_fitnesses[idx]] raises IndexError for the first child, whatever
    its score. *)
Theorem C2_rollout_pruning self fuel measured nodes sequences st :
  (forall root_fitnesses nodes' sequences' st',
      rollout_step self fuel measured (Array1 root_fitnesses) nodes sequences st
      = (Ok (nodes', sequences'), st') ->
      exists children fitnesses,
        length children = length nodes
        /\ fitness_fn self children = Some fitnesses
        /\ (let evaluated := combine (combine (map fst nodes) children) fitnesses in
            nodes' = map fst (filter (beats_root (Array1 root_fitnesses)) evaluated)
            /\ (forall idx child,
                   In (idx, child) nodes' <->
                   exists fitness root_fitness,
                     In (idx, child, fitness) evaluated
                     /\ nth_error root_fitnesses idx = Some root_fitness
                     /\ (root_fitness < fitness)%Q))
        /\ (forall idx child,
               In (idx, child) nodes' -> exists node, In (idx, node) nodes))
  /\ (forall root_fitness child_idxs children st1 fitnesses,
         nodes <> [] ->
         gen_children self measured fuel sequences nodes [] [] st
         = (Ok (child_idxs, children), st1) ->
         fitness_fn self children = Some fitnesses ->
         length fitnesses = length children ->
         rollout_step self fuel measured (Array0 root_fitness) nodes sequences st
         = (Raise IndexError, add_cost (length children) st1)).
Proof.
  split.
  - intros root_fitnesses nodes' sequences' st' H. apply rollout_step_ok in H.
    destruct H as (children & fitnesses & Hfresh & Hfit & _ & Hnodes & _).
    exists children, fitnesses.
    assert (Hiff : forall idx child,
               In (idx, child) nodes' <->
               exists fitness root_fitness,
                 In (idx, child, fitness)
                    (combine (combine (map fst nodes) children) fitnesses)
                 /\ nth_error root_fitnesses idx = Some root_fitness
                 /\ (root_fitness < fitness)%Q).
    { intros idx child. rewrite Hnodes, in_map_iff. split.
      - intros ([[idx' child'] fitness] & Heq & Hin). simpl in Heq.
        inversion Heq; subst. apply filter_In in Hin. destruct Hin as [Hin Hb].
        unfold beats_root in Hb. simpl in Hb.
        destruct (nth_error root_fitnesses idx) as [r |] eqn:E; [| discriminate].
        exists fitness, r. split; [exact Hin | split; [reflexivity |]].
        apply Qltb_true. exact Hb.
      - intros (fitness & r & Hin & Hr & Hlt).
        exists (idx, child, fitness). split; [reflexivity |].
        apply filter_In. split; [exact Hin |].
        unfold beats_root. simpl. rewrite Hr. apply Qltb_true. exact Hlt. }
    split; [symmetry; eapply Forall2_length; exact Hfresh |].
    split; [exact Hfit |].
    split; [split; [exact Hnodes | exact Hiff] |].
    intros idx child Hin. apply Hiff in Hin.
    destruct Hin as (fitness & r & Hin & _ & _).
    apply in_combine_l in Hin. apply in_combine_l in Hin.
    apply in_map_iff in Hin. destruct Hin as ([idx' node] & Heq & Hin).
    simpl in Heq. subst. exists node. exact Hin.
  - intros root_fitness child_idxs children st1 fitnesses Hne Hgen Hfit Hlen.
    unfold rollout_step. erewrite bind_run by exact Hgen.
    pose proof Hgen as Hok. apply gen_children_ok in Hok; [| simpl; lia].
    destruct Hok as (new & Hci & Hch & Hall & _). simpl in Hci, Hch. subst.
    assert (Hget : get_fitness self new st1
                   = (Ok (squeeze fitnesses), add_cost (length new) st1)).
    { unfold get_fitness. rewrite Hfit. reflexivity. }
    erewrite bind_run by exact Hget. cbv zeta. rewrite tolist_squeeze.
    unfold bind. rewrite prune_zero_dimensional; [reflexivity |].
    apply Forall2_length in Hall.
    destruct nodes as [| node nodes]; [congruence |].
    destruct new as [| child new]; [discriminate |].
    destruct fitnesses as [| fitness fitnesses]; [discriminate |].
    discriminate.
Qed.

(* ===================================================================== *)
(** ** Shuffle and recombination                                           *)
(* ===================================================================== *)

Lemma length_list_set {A} i (a : A) l : length (list_set i a l) = length l.
Proof.
  revert i. induction l as [| x l IH]; intros [| i]; simpl; auto.
Qed.

Lemma Forall_list_set {A} (P : A -> Prop) i a l :
  Forall P l -> P a -> Forall P (list_set i a l).
Proof.
  intros Hl Ha. revert i.
  induction Hl as [| x l Hx Hl IH]; intros [| i]; simpl; auto.
Qed.

Lemma length_swap {A} (x : list A) i j : length (swap x i j) = length x.
Proof.
  unfold swap. destruct (nth_error x i), (nth_error x j); auto.
  rewrite !length_list_set. reflexivity.
Qed.

Lemma Forall_swap {A} (P : A -> Prop) (x : list A) i j :
  Forall P x -> Forall P (swap x i j).
Proof.
  intro H. unfold swap.
  destruct (nth_error x i) as [xi |] eqn:Ei; [| exact H].
  destruct (nth_error x j) as [xj |] eqn:Ej; [| exact H].
  rewrite Forall_forall in H.
  apply Forall_list_set; [apply Forall_list_set |].
  - apply Forall_forall. exact H.
  - apply H. eapply nth_error_In. exact Ej.
  - apply H. eapply nth_error_In. exact Ei.
Qed.

Lemma shuffle_down_total {A} (P : A -> Prop) k :
  forall (x : list A) st,
    Forall P x ->
    exists x' st',
      shuffle_down k x st = (Ok x', st')
      /\ length x' = length x /\ Forall P x'
      /\ model_cost st' = model_cost st.
Proof.
  induction k as [| k IH]; intros x st HP; simpl.
  - exists x, st. auto.
  - unfold bind at 1, randbelow at 1.
    set (j := N.to_nat _).
    destruct (IH (swap x (S k) j) (advance st)) as (x' & st' & Hrun & Hlen & HP' & Hc).
    { apply Forall_swap. exact HP. }
    exists x', st'. rewrite length_swap in Hlen. auto.
Qed.

Lemma random_shuffle_total {A} (P : A -> Prop) (x : list A) st :
  Forall P x ->
  exists x' st',
    random_shuffle x st = (Ok x', st')
    /\ length x' = length x /\ Forall P x'
    /\ model_cost st' = model_cost st.
Proof. apply shuffle_down_total. Qed.

Section Recombination.

Variable self : AdaLead.

Lemma crossover_total a :
  forall b switch st,
    length a <= length b ->
    exists strA strB st',
      crossover self a b switch st = (Ok (strA, strB), st')
      /\ length strA = length a /\ length strB = length a
      /\ model_cost st' = model_cost st.
Proof.
  induction a as [| ca a IH]; intros b switch st Hlen; simpl.
  - exists [], [], st. auto.
  - destruct b as [| cb b]; [simpl in Hlen; lia |].
    unfold bind at 1. rewrite random_random_run.
    set (sw := if Qltb _ _ then negb switch else switch).
    destruct (IH b sw (advance st)) as (strA & strB & st' & Hrun & HA & HB & Hc).
    { simpl in Hlen. lia. }
    erewrite bind_run by exact Hrun.
    destruct sw; eexists _, _, st'; (split; [reflexivity |]); simpl; auto.
Qed.

Lemma crossover_never_diverges a :
  forall b switch st l st', crossover self a b switch st <> (Diverge l, st').
Proof.
  induction a as [| ca a IH]; intros b switch st l st' H; simpl in H;
    [discriminate |].
  apply bind_diverge in H. destruct H as [H | (r & st1 & _ & H)]; [discriminate |].
  destruct b as [| cb b]; [discriminate |].
  apply bind_diverge in H. destruct H as [H | ([strA strB] & st2 & _ & H)].
  - eapply IH; exact H.
  - destruct (if Qltb r (recomb_rate self) then negb switch else switch);
      discriminate.
Qed.

Lemma keeps_cost_crossover a :
  forall b switch, keeps_cost (crossover self a b switch).
Proof.
  induction a as [| ca a IH]; intros b switch; simpl; auto with cost.
  apply keeps_cost_bind; [auto with cost | intro r].
  destruct b as [| cb b]; auto with cost.
  apply keeps_cost_bind; [apply IH | intros [strA strB]].
  destruct (if Qltb r (recomb_rate self) then negb switch else switch);
    auto with cost.
Qed.

(** Induction over a list two entries at a time. *)
Lemma pair_induction {A} (P : list A -> Prop) :
  P [] -> (forall x, P [x]) ->
  (forall x y l, P l -> P (x :: y :: l)) ->
  forall l, P l.
Proof.
  intros H0 H1 H2 l.
  assert (H : P l /\ forall x, P (x :: l)).
  { induction l as [| y l [IHa IHb]]; split; auto. }
  apply H.
Qed.

Lemma recombine_pairs_total (L : nat) gen :
  forall st,
    Forall (fun s => String.length s = L) gen ->
    exists r st',
      recombine_pairs self gen st = (Ok r, st')
      /\ length r = 2 * (length gen / 2)
      /\ Forall (fun s => String.length s = L) r
      /\ model_cost st' = model_cost st.
Proof.
  induction gen as [| x | x y gen IH] using pair_induction; intros st HL.
  - exists [], st. simpl. auto.
  - exists [], st. simpl. auto.
  - inversion HL as [| ? ? Hx HL']; subst. inversion HL' as [| ? ? Hy HL'']; subst.
    cbn [recombine_pairs].
    destruct (crossover_total (list_ascii_of_string x) (list_ascii_of_string y)
                false st) as (strA & strB & st1 & Hrun & HA & HB & Hc).
    { rewrite !length_list_ascii_of_string. lia. }
    erewrite bind_run by exact Hrun.
    destruct (IH st1 HL'') as (r & st' & Hrec & Hlen & HLr & Hc').
    erewrite bind_run by exact Hrec.
    exists (string_of_list_ascii strA :: string_of_list_ascii strB :: r), st'.
    split; [reflexivity | split; [| split]].
    + cbn [length]. rewrite Hlen.
      change (S (S (length gen))) with (2 + length gen).
      replace (2 + length gen) with (length gen + 1 * 2) by lia.
      rewrite Nat.div_add by discriminate. lia.
    + rewrite length_list_ascii_of_string in HA, HB.
      repeat constructor; try exact HLr;
        rewrite length_string_of_list_ascii; congruence.
    + lia.
Qed.

Lemma recombine_pairs_ok gen :
  forall st r st',
    recombine_pairs self gen st = (Ok r, st') ->
    length r = 2 * (length gen / 2)
    /\ (forall L, Forall (fun s => String.length s = L) gen ->
                  Forall (fun s => String.length s = L) r).
Proof.
  intros st r st' H. split.
  - revert st r st' H.
    induction gen as [| x | x y gen IH] using pair_induction; intros st r st' H.
    + simpl in H. ok_inv H. reflexivity.
    + simpl in H. ok_inv H. reflexivity.
    + cbn [recombine_pairs] in H. ok_inv H. destruct a as [strA strB].
      ok_inv H. ok_inv H. apply IH in Hrun0.
      cbn [length]. rewrite Hrun0.
      change (S (S (length gen))) with (2 + length gen).
      replace (2 + length gen) with (length gen + 1 * 2) by lia.
      rewrite Nat.div_add by discriminate. lia.
  - intros L HL.
    destruct (recombine_pairs_total L gen st HL) as (r' & st'' & Hrun & _ & HLr & _).
    rewrite H in Hrun. inversion Hrun; subst. exact HLr.
Qed.

Lemma recombine_pairs_never_diverges gen :
  forall st l st', recombine_pairs self gen st <> (Diverge l, st').
Proof.
  induction gen as [| x | x y gen IH] using pair_induction; intros st l st' H;
    try discriminate.
  cbn [recombine_pairs] in H.
  apply bind_diverge in H. destruct H as [H | ([strA strB] & st1 & _ & H)].
  - eapply crossover_never_diverges; exact H.
  - apply bind_diverge in H. destruct H as [H | (r & st2 & _ & H)].
    + eapply IH; exact H.
    + discriminate.
Qed.

Lemma keeps_cost_recombine_pairs gen : keeps_cost (recombine_pairs self gen).
Proof.
  induction gen as [| x | x y gen IH] using pair_induction; auto with cost.
  cbn [recombine_pairs].
  apply keeps_cost_bind; [apply keeps_cost_crossover | intros [strA strB]].
  apply keeps_cost_bind; [exact IH | auto with cost].
Qed.

Lemma recombine_pairs_cons2 gi gi1 rest :
  recombine_pairs self (gi :: gi1 :: rest)
  = ('(strA, strB) <- crossover self (list_ascii_of_string gi)
                        (list_ascii_of_string gi1) false ;;
     ret' <- recombine_pairs self rest ;;
     ret (string_of_list_ascii strA :: string_of_list_ascii strB :: ret')).
Proof. reflexivity. Qed.

(** The pairing never reads the last entry of a list of odd length. *)
Lemma recombine_pairs_odd gen :
  Nat.odd (length gen) = true ->
  recombine_pairs self gen = recombine_pairs self (removelast gen).
Proof.
  induction gen as [| x | x y gen IH] using pair_induction; intro Hodd.
  - discriminate.
  - reflexivity.
  - destruct gen as [| z gen]; [discriminate |].
    change (removelast (x :: y :: z :: gen)) with (x :: y :: removelast (z :: gen)).
    rewrite !recombine_pairs_cons2. rewrite IH; [reflexivity |].
    exact Hodd.
Qed.

Lemma keeps_cost_recombine_population gen :
  keeps_cost (recombine_population self gen).
Proof.
  unfold recombine_population. destruct (length gen =? 1); auto with cost.
  apply keeps_cost_bind; [auto with cost | intro gen'].
  apply keeps_cost_recombine_pairs.
Qed.

Lemma recombine_population_total (L : nat) gen st :
  Forall (fun s => String.length s = L) gen ->
  exists r st',
    recombine_population self gen st = (Ok r, st')
    /\ (length gen = 1 -> r = gen /\ st' = st)
    /\ (length gen <> 1 -> length r = 2 * (length gen / 2))
    /\ Forall (fun s => String.length s = L) r
    /\ model_cost st' = model_cost st.
Proof.
  intro HL. unfold recombine_population.
  destruct (length gen =? 1) eqn:E.
  - apply Nat.eqb_eq in E. exists gen, st.
    split; [reflexivity | split; [auto | split; [lia | auto]]].
  - apply Nat.eqb_neq in E.
    destruct (random_shuffle_total _ gen st HL) as (gen' & st1 & Hsh & Hlen & HL' & Hc).
    erewrite bind_run by exact Hsh.
    destruct (recombine_pairs_total L gen' st1 HL') as (r & st' & Hrun & Hr & HLr & Hc').
    exists r, st'. rewrite Hlen in Hr.
    split; [exact Hrun | split; [lia | split; [auto | split; [exact HLr | lia]]]].
Qed.

Lemma recombine_population_never_diverges gen st l st' :
  recombine_population self gen st <> (Diverge l, st').
Proof.
  unfold recombine_population. destruct (length gen =? 1); [discriminate |].
  intro H. apply bind_diverge in H. destruct H as [H | (gen' & st1 & _ & H)].
  - destruct (random_shuffle_total (fun _ => True) gen st) as (x & st2 & Hrun & _).
    { apply Forall_forall. auto. }
    rewrite Hrun in H. discriminate.
  - eapply recombine_pairs_never_diverges; exact H.
Qed.

Lemma recombine_population_ok gen st r st' :
  recombine_population self gen st = (Ok r, st') ->
  (gen <> [] -> r <> [])
  /\ (forall L, Forall (fun s => String.length s = L) gen ->
                Forall (fun s => String.length s = L) r).
Proof.
  unfold recombine_population. intro H.
  destruct (length gen =? 1) eqn:E.
  - ok_inv H. auto.
  - apply Nat.eqb_neq in E. ok_inv H.
    destruct (random_shuffle_total (fun _ => True) gen st) as (x & st2 & Hsh & Hlen & _).
    { apply Forall_forall. auto. }
    rewrite Hsh in Hrun. inversion Hrun; subst. clear Hrun.
    pose proof (recombine_pairs_ok _ _ _ _ H) as [Hr HL].
    split.
    + intros Hne ->. rewrite Hlen in Hr. cbn [length] in Hr.
      assert (Hlen2 : 2 <= length gen).
      { destruct gen as [| g0 [| g1 gen]]; simpl in *; try congruence; lia. }
      assert (1 <= length gen / 2) by (apply Nat.div_le_lower_bound; lia).
      lia.
    + intros L HLg.
      destruct (random_shuffle_total _ gen st HLg) as (x' & st3 & Hsh' & _ & HL' & _).
      rewrite Hsh in Hsh'. inversion Hsh'; subst. apply HL. exact HL'.
Qed.

End Recombination.

(** With [recomb_rate >= 1] every draw is below the rate and the switch
    flips at every position. *)
Lemma crossover_flip self ca a cb b switch st :
  (1 <= recomb_rate self)%Q ->
  crossover self (ca :: a) (cb :: b) switch st
  = ('(strA, strB) <- crossover self a b (negb switch) ;;
     if negb switch then ret (ca :: strA, cb :: strB)
     else ret (cb :: strA, ca :: strB)) (advance st).
Proof.
  intro Hrate. cbn [crossover]. unfold bind at 1. rewrite random_random_run.
  assert (E : Qltb (unit_value (rng_tape st (rng_pos st))) (recomb_rate self) = true).
  { apply Qltb_true. eapply Qlt_le_trans; [apply unit_value_lt_1 | exact Hrate]. }
  rewrite E. reflexivity.
Qed.

Lemma randbelow_2 st :
  exists j, randbelow 2 st = (Ok j, advance st) /\ (j = 0 \/ j = 1).
Proof.
  unfold randbelow. eexists. split; [reflexivity |].
  change (N.of_nat 2) with 2%N.
  assert (H : (rng_tape st (rng_pos st) mod 2 < 2)%N)
    by (apply N.mod_upper_bound; discriminate).
  revert H. generalize (rng_tape st (rng_pos st) mod 2)%N. intros r H. lia.
Qed.

(** C7 (as the code has it): with [recomb_rate = 1.0] the switch flips at
    every position, so the two children of "AAAA" and "BBBB" alternate
    between the parents: they are "ABAB" and "BABA", in the order given by
    the shuffle. *)
Theorem C7_recombination_rate_1 (self : AdaLead) (st : state) :
  (recomb_rate self == 1)%Q ->
  exists children st',
    recombine_population self ["AAAA"; "BBBB"]%string st = (Ok children, st')
    /\ (children = ["ABAB"; "BABA"]%string
        \/ children = ["BABA"; "ABAB"]%string).
Proof.
  intro Hrate.
  assert (Hle : (1 <= recomb_rate self)%Q) by (rewrite Hrate; apply Qle_refl).
  unfold recombine_population, random_shuffle.
  cbn [length Nat.eqb Nat.sub shuffle_down].
  unfold bind at 1. unfold bind at 1.
  destruct (randbelow_2 st) as (j & Hj & [-> | ->]); rewrite Hj;
    cbn [swap nth_error list_set shuffle_down]; unfold ret at 1;
    rewrite recombine_pairs_cons2; cbn [list_ascii_of_string];
    unfold bind at 1;
    rewrite (crossover_flip self _ _ _ _ _ _ Hle); unfold bind at 1;
    rewrite (crossover_flip self _ _ _ _ _ _ Hle); unfold bind at 1;
    rewrite (crossover_flip self _ _ _ _ _ _ Hle); unfold bind at 1;
    rewrite (crossover_flip self _ _ _ _ _ _ Hle); unfold bind at 1;
    cbn; eexists _, _; (split; [reflexivity |]); auto.
Qed.

(** C7, the claim as stated fails: with [recomb_rate = 1.0] neither
    "BBBB" nor "AAAA" is among the children. *)
Lemma C7_counterexample :
  exists children st',
    recombine_population (example_instance count_A_fitness 1 1 1)
      ["AAAA"; "BBBB"]%string (initial_state example_tape)
    = (Ok children, st')
    /\ children = ["BABA"; "ABAB"]%string
    /\ ~ In "BBBB"%string children /\ ~ In "AAAA"%string children.
Proof.
  eexists _, _. split; [vm_compute; reflexivity |].
  split; [reflexivity |].
  split; intros [H | [H | []]]; discriminate.
Qed.

Lemma C7_recombination_rate_1_witness :
  exists children st',
    recombine_population (example_instance count_A_fitness 1 1 1)
      ["AAAA"; "BBBB"]%string (initial_state example_tape)
    = (Ok children, st')
    /\ (children = ["ABAB"; "BABA"]%string
        \/ children = ["BABA"; "ABAB"]%string).
Proof.
  apply (C7_recombination_rate_1 (example_instance count_A_fitness 1 1 1)
           (initial_state example_tape)).
  reflexivity.
Defined.

Lemma double_half_even n : Nat.even n = true -> 2 * (n / 2) = n.
Proof.
  intro H. apply Nat.even_spec in H. destruct H as [m ->].
  rewrite (Nat.mul_comm 2 m), Nat.div_mul by discriminate. lia.
Qed.

Lemma double_half_odd n : Nat.odd n = true -> 2 * (n / 2) = n - 1.
Proof.
  intro H. apply Nat.odd_spec in H. destruct H as [m ->].
  rewrite (Nat.mul_comm 2 m), Nat.div_add_l by discriminate.
  simpl. lia.
Qed.




(* ===================================================================== *)
(** ** The dict of discovered sequences                                    *)
(* ===================================================================== *)

Lemma dict_set_keys k v d :
  map fst (dict_set k v d)
  = if dict_mem k d then map fst d else map fst d ++ [k].
Proof.
  unfold dict_mem. induction d as [| [k' v'] d IH]; simpl; [reflexivity |].
  destruct (String.eqb k k') eqn:E; simpl; [reflexivity |].
  rewrite IH. destruct (existsb (String.eqb k) (map fst d)); reflexivity.
Qed.

Lemma dict_mem_true k d : dict_mem k d = true <-> In k (map fst d).
Proof.
  unfold dict_mem. rewrite existsb_exists. split.
  - intros (x & Hin & E). apply String.eqb_eq in E. subst. exact Hin.
  - intro H. exists k. split; [exact H | apply String.eqb_refl].
Qed.

Lemma dict_mem_false k d : dict_mem k d = false <-> ~ In k (map fst d).
Proof.
  rewrite <- dict_mem_true. destruct (dict_mem k d); split; congruence.
Qed.

Lemma dict_set_ok (P : string -> Prop) k v d :
  P k -> dict_ok P d -> dict_ok P (dict_set k v d).
Proof.
  intros Hk [Hnd HP]. unfold dict_ok. rewrite dict_set_keys.
  destruct (dict_mem k d) eqn:E; [auto |].
  apply dict_mem_false in E. split.
  - apply NoDup_app; [exact Hnd | repeat constructor; simpl; tauto |].
    intros x Hx [<- | []]. contradiction.
  - apply Forall_app. auto.
Qed.

Lemma dict_update_ok (P : string -> Prop) kvs :
  forall d,
    Forall (fun kv => P (fst kv)) kvs -> dict_ok P d ->
    dict_ok P (dict_update kvs d).
Proof.
  unfold dict_update.
  induction kvs as [| [k v] kvs IH]; intros d Hk Hd; simpl; [exact Hd |].
  inversion Hk; subst. apply IH; [assumption |].
  apply dict_set_ok; assumption.
Qed.

Lemma dict_get_in k v d :
  NoDup (map fst d) -> In (k, v) d -> dict_get k d = Some v.
Proof.
  induction d as [| [k' v'] d IH]; intros Hnd Hin; simpl in *; [contradiction |].
  inversion Hnd; subst.
  destruct Hin as [Heq | Hin].
  - inversion Heq; subst. rewrite String.eqb_refl. reflexivity.
  - destruct (String.eqb k k') eqn:E.
    + apply String.eqb_eq in E. subst. exfalso. apply H1.
      apply in_map_iff. exists (k', v). auto.
    + apply IH; assumption.
Qed.

Lemma dict_update_nonempty kvs :
  forall d, d <> [] -> dict_update kvs d <> [].
Proof.
  unfold dict_update.
  induction kvs as [| [k v] kvs IH]; intros d Hd; simpl; [exact Hd |].
  apply IH. destruct d as [| [k' v'] d]; [congruence |].
  simpl. destruct (String.eqb k k'); discriminate.
Qed.

(* ===================================================================== *)
(** ** [np.argsort] and the slice                                          *)
(* ===================================================================== *)

Lemma insert_sorted_perm rank x l :
  Permutation (insert_sorted rank x l) (x :: l).
Proof.
  induction l as [| y l IH]; simpl; [reflexivity |].
  destruct (sorts_before rank x y); [reflexivity |].
  rewrite IH. apply perm_swap.
Qed.

Lemma sort_pairs_perm rank l : Permutation (sort_pairs rank l) l.
Proof.
  unfold sort_pairs. induction l as [| x l IH]; simpl; [reflexivity |].
  rewrite insert_sorted_perm. constructor. exact IH.
Qed.

(** Whatever the ranks, an entry is put before one of a value that is
    not smaller, and after one of a value that is not larger. *)
Lemma sorts_before_true rank x y :
  sorts_before rank x y = true -> (snd x <= snd y)%Q.
Proof.
  unfold sorts_before. intro H. apply orb_true_iff in H.
  destruct H as [H | H].
  - apply Qlt_le_weak. apply Qltb_true. exact H.
  - apply andb_true_iff in H. destruct H as [H _].
    apply Qle_bool_iff. exact H.
Qed.

Lemma sorts_before_false rank x y :
  sorts_before rank x y = false -> (snd y <= snd x)%Q.
Proof.
  unfold sorts_before. intro H. apply orb_false_iff in H.
  destruct H as [H _]. apply Qltb_false. exact H.
Qed.

Lemma insert_sorted_sorted rank x l :
  StronglySorted le_snd l -> StronglySorted le_snd (insert_sorted rank x l).
Proof.
  induction 1 as [| y l Hs IH Hall]; simpl.
  - repeat constructor.
  - destruct (sorts_before rank x y) eqn:E.
    + apply sorts_before_true in E.
      constructor; [constructor; assumption |].
      constructor; [exact E |].
      eapply Forall_impl; [| exact Hall].
      intros z Hz. unfold le_snd in *. eapply Qle_trans; eassumption.
    + constructor; [exact IH |].
      eapply Permutation_Forall; [symmetry; apply insert_sorted_perm |].
      constructor; [| exact Hall].
      apply sorts_before_false in E. exact E.
Qed.

Lemma sort_pairs_sorted rank l : StronglySorted le_snd (sort_pairs rank l).
Proof.
  unfold sort_pairs. induction l as [| x l IH]; simpl.
  - constructor.
  - apply insert_sorted_sorted. exact IH.
Qed.

Lemma StronglySorted_rev (l : list (nat * Q)) :
  StronglySorted le_snd l -> StronglySorted ge_snd (rev l).
Proof.
  induction 1 as [| x l Hs IH Hall]; simpl; [constructor |].
  assert (H : forall l1 : list (nat * Q),
             StronglySorted ge_snd l1 -> Forall (fun y => ge_snd y x) l1 ->
             StronglySorted ge_snd (l1 ++ [x])).
  { induction 1 as [| z l1 Hs1 IH1 Hall1]; intro Hx; simpl.
    - repeat constructor.
    - inversion Hx; subst. constructor; [apply IH1; assumption |].
      apply Forall_app. split; [exact Hall1 | repeat constructor; assumption]. }
  apply H; [exact IH |].
  apply Forall_rev. exact Hall.
Qed.

Lemma StronglySorted_app_inv {A} (R : A -> A -> Prop) l1 l2 :
  StronglySorted R (l1 ++ l2) ->
  StronglySorted R l1
  /\ forall x y, In x l1 -> In y l2 -> R x y.
Proof.
  induction l1 as [| a l1 IH]; simpl; intro H.
  - split; [constructor | intros x y []].
  - inversion H as [| ? ? Hs Hall]; subst.
    destruct (IH Hs) as [Hs1 Hcross].
    apply Forall_app in Hall. destruct Hall as [Hall1 Hall2].
    split; [constructor; assumption |].
    intros x y [<- | Hx] Hy.
    + rewrite Forall_forall in Hall2. auto.
    + auto.
Qed.

Lemma StronglySorted_nth {A} (R : A -> A -> Prop) l :
  StronglySorted R l ->
  forall i j x y, i < j -> nth_error l i = Some x -> nth_error l j = Some y ->
                  R x y.
Proof.
  induction 1 as [| a l Hs IH Hall]; intros i j x y Hlt Hi Hj.
  - destruct i; discriminate.
  - destruct j as [| j]; [lia |].
    simpl in Hj. destruct i as [| i]; simpl in Hi.
    + inversion Hi; subst. rewrite Forall_forall in Hall.
      apply Hall. eapply nth_error_In. exact Hj.
    + eapply IH; [| exact Hi | exact Hj]. lia.
Qed.

Lemma enumerate_from_spec {A} (l : list A) :
  forall k i v,
    In (i, v) (combine (seq k (length l)) l) <->
    k <= i /\ nth_error l (i - k) = Some v.
Proof.
  induction l as [| x l IH]; intros k i v; simpl.
  - split; [tauto |]. intros [_ H]. destruct (i - k); discriminate.
  - rewrite IH. split.
    + intros [Heq | [Hle Hn]].
      * inversion Heq; subst. rewrite Nat.sub_diag. auto.
      * split; [lia |]. replace (i - k) with (S (i - S k)) by lia. exact Hn.
    + intros [Hle Hn]. destruct (Nat.eq_dec k i) as [-> | Hne].
      * rewrite Nat.sub_diag in Hn. inversion Hn. auto.
      * right. split; [lia |].
        replace (i - k) with (S (i - S k)) in Hn by lia. exact Hn.
Qed.

Lemma enumerate_spec {A} (l : list A) i v :
  In (i, v) (enumerate l) <-> nth_error l i = Some v.
Proof.
  unfold enumerate. rewrite enumerate_from_spec, Nat.sub_0_r.
  split; [tauto | intro H; split; [lia | exact H]].
Qed.

Lemma enumerate_fst {A} (l : list A) : map fst (enumerate l) = seq 0 (length l).
Proof.
  unfold enumerate. generalize 0.
  induction l as [| x l IH]; intro k; simpl; [reflexivity |].
  rewrite IH. reflexivity.
Qed.

Lemma enumerate_snd {A} (l : list A) : map snd (enumerate l) = l.
Proof.
  unfold enumerate. generalize 0.
  induction l as [| x l IH]; intro k; simpl; [reflexivity |].
  rewrite IH. reflexivity.
Qed.

(** *** Every order of equal scores is the order of some [tie_break] *)

Lemma sorts_before_total rank x y :
  sorts_before rank x y = false -> sorts_before rank y x = true.
Proof.
  unfold sorts_before. intro H. apply orb_false_iff in H. destruct H as [H1 H2].
  apply Qltb_false in H1.
  destruct (Qltb (snd y) (snd x)) eqn:E; [reflexivity |].
  apply Qltb_false in E. simpl.
  apply andb_false_iff in H2. destruct H2 as [H2 | H2].
  - exfalso. apply Bool.not_true_iff_false in H2. apply H2.
    apply Qle_bool_iff. exact E.
  - apply andb_true_iff. split; [apply Qle_bool_iff; exact H1 |].
    apply Nat.leb_gt in H2. apply Nat.leb_le. lia.
Qed.

Lemma sorts_before_spec rank x y :
  sorts_before rank x y = true <->
  (snd x < snd y)%Q \/ ((snd x == snd y)%Q /\ rank (fst x) <= rank (fst y)).
Proof.
  unfold sorts_before. rewrite orb_true_iff, andb_true_iff, Qltb_true.
  rewrite Qle_bool_iff, Nat.leb_le. split.
  - intros [H | [H1 H2]]; [left; exact H |].
    destruct (Qlt_le_dec (snd x) (snd y)) as [Hlt | Hle]; [left; exact Hlt |].
    right. split; [apply Qle_antisym; assumption | exact H2].
  - intros [H | [H1 H2]]; [left; exact H |].
    right. split; [rewrite H1; apply Qle_refl | exact H2].
Qed.

Lemma sorts_before_trans rank x y z :
  sorts_before rank x y = true -> sorts_before rank y z = true ->
  sorts_before rank x z = true.
Proof.
  rewrite !sorts_before_spec.
  intros [H1 | [H1 R1]] [H2 | [H2 R2]].
  - left. eapply Qlt_trans; eassumption.
  - left. rewrite <- H2. exact H1.
  - left. rewrite H1. exact H2.
  - right. split; [rewrite H1; exact H2 | lia].
Qed.

Lemma insert_sorted_by_rank rank x l :
  StronglySorted (fun u v => sorts_before rank u v = true) l ->
  StronglySorted (fun u v => sorts_before rank u v = true) (insert_sorted rank x l).
Proof.
  induction 1 as [| y l Hs IH Hall]; simpl.
  - repeat constructor.
  - destruct (sorts_before rank x y) eqn:E.
    + constructor; [constructor; assumption |].
      constructor; [exact E |].
      eapply Forall_impl; [| exact Hall].
      intros z Hz. eapply sorts_before_trans; eassumption.
    + constructor; [exact IH |].
      eapply Permutation_Forall; [symmetry; apply insert_sorted_perm |].
      constructor; [| exact Hall].
      apply sorts_before_total. exact E.
Qed.

Lemma sort_pairs_by_rank rank l :
  StronglySorted (fun u v => sorts_before rank u v = true) (sort_pairs rank l).
Proof.
  unfold sort_pairs. induction l as [| x l IH]; simpl.
  - constructor.
  - apply insert_sorted_by_rank. exact IH.
Qed.

(** Two sorted lists with the same entries are the same list, when no two
    different entries sort before each other. *)
Lemma sorted_unique {A} (R : A -> A -> Prop) :
  forall l1 l2,
    StronglySorted R l1 -> StronglySorted R l2 -> Permutation l1 l2 ->
    (forall x y, In x l1 -> In y l1 -> R x y -> R y x -> x = y) ->
    l1 = l2.
Proof.
  induction l1 as [| x l1 IH]; intros l2 H1 H2 Hperm Hanti.
  - apply Permutation_nil in Hperm. subst. reflexivity.
  - destruct l2 as [| y l2].
    { symmetry in Hperm. apply Permutation_nil in Hperm. discriminate. }
    inversion H1 as [| ? ? Hs1 Hall1]; subst.
    inversion H2 as [| ? ? Hs2 Hall2]; subst.
    rewrite Forall_forall in Hall1, Hall2.
    assert (Hxy : x = y).
    { assert (Hy : In y (x :: l1)).
      { eapply Permutation_in; [symmetry; exact Hperm | left; reflexivity]. }
      assert (Hx : In x (y :: l2)).
      { eapply Permutation_in; [exact Hperm | left; reflexivity]. }
      destruct Hy as [Hy | Hy]; [exact Hy |].
      destruct Hx as [Hx | Hx]; [symmetry; exact Hx |].
      apply Hanti; [left; reflexivity | right; exact Hy | auto | auto]. }
    subst y. f_equal. apply IH; try assumption.
    + eapply Permutation_cons_inv. exact Hperm.
    + intros u v Hu Hv. apply Hanti; right; assumption.
Qed.

Lemma StronglySorted_of_nth {A} (R : A -> A -> Prop) l :
  (forall i j x y, i < j -> nth_error l i = Some x -> nth_error l j = Some y ->
                   R x y) ->
  StronglySorted R l.
Proof.
  induction l as [| a l IH]; intro H; constructor.
  - apply IH. intros i j x y Hlt Hi Hj. apply (H (S i) (S j)); [lia | |]; assumption.
  - apply Forall_forall. intros y Hy. apply In_nth_error in Hy.
    destruct Hy as [j Hj]. apply (H 0 (S j)); [lia | reflexivity | exact Hj].
Qed.

Lemma position_nth order :
  NoDup order ->
  forall p i, nth_error order p = Some i -> position i order = p.
Proof.
  induction 1 as [| j order Hnot Hnd IH]; intros p i Hp.
  - destruct p; discriminate.
  - simpl. destruct p as [| p]; simpl in Hp.
    + inversion Hp; subst. rewrite Nat.eqb_refl. reflexivity.
    + destruct (i =? j) eqn:E.
      * apply Nat.eqb_eq in E. subst. exfalso. apply Hnot.
        eapply nth_error_In. exact Hp.
      * f_equal. apply IH. exact Hp.
Qed.

Lemma enumerate_map (a : list Q) :
  enumerate a = map (fun i => (i, nth i a 0%Q)) (seq 0 (length a)).
Proof.
  unfold enumerate.
  assert (H : forall k (l : list Q),
             combine (seq k (length l)) l
             = map (fun i => (i, nth (i - k) l 0%Q)) (seq k (length l))).
  { intros k l. revert k. induction l as [| x l IH]; intro k; simpl;
      [reflexivity |].
    rewrite Nat.sub_diag. f_equal. rewrite IH.
    apply map_ext_in. intros i Hi. apply in_seq in Hi.
    replace (i - k) with (S (i - S k)) by lia. reflexivity. }
  rewrite H. apply map_ext. intro i. rewrite Nat.sub_0_r. reflexivity.
Qed.

(** Whatever order [np.argsort] gives to equal scores, there is a
    [tie_break] for it: [argsort] returns any given order of the indices
    along which the scores do not decrease, when [tie_break] ranks the
    indices by their place in that order. *)
Lemma argsort_any_order self (a : list Q) (order : list nat) :
  Permutation order (seq 0 (length a)) ->
  (forall p q i j, p < q ->
                   nth_error order p = Some i -> nth_error order q = Some j ->
                   (nth i a 0 <= nth j a 0)%Q) ->
  (forall i, tie_break self a i = position i order) ->
  argsort self a = order.
Proof.
  intros Hperm Hsorted Hrank. unfold argsort.
  set (rank := tie_break self a).
  set (target := map (fun i => (i, nth i a 0%Q)) order).
  assert (Hnd : NoDup order).
  { eapply Permutation_NoDup; [symmetry; exact Hperm | apply seq_NoDup]. }
  assert (Htarget : Permutation (sort_pairs rank (enumerate a)) target).
  { rewrite sort_pairs_perm, enumerate_map. unfold target.
    apply Permutation_map. symmetry. exact Hperm. }
  enough (Heq : sort_pairs rank (enumerate a) = target).
  { rewrite Heq. unfold target. rewrite map_map. simpl. apply map_id. }
  apply (sorted_unique (fun u v => sorts_before rank u v = true)).
  - apply sort_pairs_by_rank.
  - apply StronglySorted_of_nth. intros p q x y Hlt Hp Hq.
    unfold target in Hp, Hq. rewrite nth_error_map in Hp, Hq.
    destruct (nth_error order p) as [i |] eqn:Ei; [| discriminate].
    destruct (nth_error order q) as [j |] eqn:Ej; [| discriminate].
    inversion Hp; inversion Hq; subst.
    apply sorts_before_spec. simpl.
    pose proof (Hsorted p q i j Hlt Ei Ej) as Hle.
    destruct (Qlt_le_dec (nth i a 0%Q) (nth j a 0%Q)) as [Hl | Hg];
      [left; exact Hl | right].
    split; [apply Qle_antisym; assumption |].
    unfold rank. rewrite !Hrank.
    rewrite (position_nth order Hnd p i Ei), (position_nth order Hnd q j Ej).
    lia.
  - exact Htarget.
  - intros x y Hx Hy Hxy Hyx.
    assert (Hin : forall z, In z (sort_pairs rank (enumerate a)) ->
                            exists p i, nth_error order p = Some i
                                        /\ z = (i, nth i a 0%Q)).
    { intros z Hz. apply (Permutation_in _ Htarget) in Hz.
      unfold target in Hz. apply in_map_iff in Hz.
      destruct Hz as (i & <- & Hi). apply In_nth_error in Hi.
      destruct Hi as [p Hp]. eauto. }
    destruct (Hin x Hx) as (p & i & Hp & ->).
    destruct (Hin y Hy) as (q & j & Hq & ->).
    apply sorts_before_spec in Hxy, Hyx. simpl in Hxy, Hyx.
    unfold rank in Hxy, Hyx. rewrite !Hrank in Hxy, Hyx.
    rewrite (position_nth order Hnd p i Hp) in Hxy, Hyx.
    rewrite (position_nth order Hnd q j Hq) in Hxy, Hyx.
    assert (Hpq : p = q).
    { destruct Hxy as [Hl | [He Hr]]; destruct Hyx as [Hl' | [He' Hr']].
      - exfalso. apply (Qlt_irrefl (nth i a 0%Q)). eapply Qlt_trans; eassumption.
      - exfalso. rewrite He' in Hl. apply (Qlt_irrefl _ Hl).
      - exfalso. rewrite He in Hl'. apply (Qlt_irrefl _ Hl').
      - lia. }
    subst q. rewrite Hp in Hq. inversion Hq. reflexivity.
Qed.

Lemma argsort_perm self a : Permutation (argsort self a) (seq 0 (length a)).
Proof.
  unfold argsort. rewrite <- enumerate_fst.
  apply Permutation_map. apply sort_pairs_perm.
Qed.

Lemma slice_down_to_firstn {A} (stop : Z) (a : list A) :
  exists m, slice_down_to stop a = firstn m (rev a).
Proof. unfold slice_down_to. eexists. reflexivity. Qed.

(** The slice [a[: -k : -1]] holds the last [k - 1] entries, or all of
    them when there are fewer. *)
Lemma slice_down_to_neg {A} (k : nat) (a : list A) :
  1 <= k ->
  slice_down_to (- Z.of_nat k) a = firstn (Nat.min (length a) (k - 1)) (rev a).
Proof.
  intro Hk. unfold slice_down_to, adjust_stop. f_equal.
  destruct (- Z.of_nat k <? 0)%Z eqn:E1; [| apply Z.ltb_ge in E1; lia].
  destruct (- Z.of_nat k + Z.of_nat (length a) <? 0)%Z eqn:E2.
  - apply Z.ltb_lt in E2. lia.
  - apply Z.ltb_ge in E2. lia.
Qed.

(* ===================================================================== *)
(** ** The top of the dict                                                 *)
(* ===================================================================== *)

Lemma map_Some_inj {A} (l1 l2 : list A) : map Some l1 = map Some l2 -> l1 = l2.
Proof.
  revert l2. induction l1 as [| x l1 IH]; intros [| y l2] H; simpl in H;
    try discriminate; [reflexivity |].
  inversion H. f_equal. auto.
Qed.

Lemma nth_error_pair {A B} (l : list (A * B)) i a b :
  nth_error (map fst l) i = Some a -> nth_error (map snd l) i = Some b ->
  nth_error l i = Some (a, b).
Proof.
  revert i. induction l as [| [a' b'] l IH]; intros [| i] Ha Hb; simpl in *;
    try discriminate; auto.
  inversion Ha. inversion Hb. reflexivity.
Qed.

Lemma In_firstn {A} (x : A) n l : In x (firstn n l) -> In x l.
Proof.
  intro H. rewrite <- (firstn_skipn n l). apply in_or_app. left. exact H.
Qed.

(** The number of entries [select_top] returns from a dict of [n]. *)
Lemma select_top_count self (n : nat) :
  1 <= n ->
  Z.to_nat (Z.of_nat n - 1
            - adjust_stop (Z.of_nat n) (- Z.of_nat (sequences_batch_size self)))
  = if sequences_batch_size self =? 0 then n - 1
    else Nat.min n (sequences_batch_size self - 1).
Proof.
  intro Hn. unfold adjust_stop.
  destruct (sequences_batch_size self =? 0) eqn:E.
  - apply Nat.eqb_eq in E. rewrite E. simpl Z.of_nat. simpl Z.opp.
    destruct (0 <? 0)%Z eqn:E1; [apply Z.ltb_lt in E1; lia |].
    destruct (Z.of_nat n <=? 0)%Z eqn:E2; [apply Z.leb_le in E2; lia |].
    lia.
  - apply Nat.eqb_neq in E.
    destruct (- Z.of_nat (sequences_batch_size self) <? 0)%Z eqn:E1;
      [| apply Z.ltb_ge in E1; lia].
    destruct (- Z.of_nat (sequences_batch_size self) + Z.of_nat n <? 0)%Z eqn:E2.
    + apply Z.ltb_lt in E2. lia.
    + apply Z.ltb_ge in E2. lia.
Qed.

Lemma select_top_ok self sequences st seqs scores st' :
  select_top self sequences st = (Ok (seqs, scores), st') ->
  st' = st /\ sequences <> [] /\
  exists top rest : list (nat * Q),
    Permutation (map fst (top ++ rest)) (seq 0 (length sequences))
    /\ StronglySorted ge_snd (top ++ rest)
    /\ (forall p, In p (top ++ rest) ->
                  nth_error (map snd sequences) (fst p) = Some (snd p))
    /\ Forall2 (entry_at sequences) top seqs
    /\ scores = map snd top
    /\ length top
       = if sequences_batch_size self =? 0 then length sequences - 1
         else Nat.min (length sequences) (sequences_batch_size self - 1).
Proof.
  unfold select_top. intro H.
  destruct (length sequences =? 0) eqn:E; [discriminate |].
  apply Nat.eqb_neq in E.
  ok_inv H. ok_inv H. ok_inv H.
  apply index_all_ok in Hrun, Hrun0.
  destruct Hrun as [-> Hseqs]. destruct Hrun0 as [-> Hscores].
  split; [reflexivity |]. split; [intros ->; apply E; reflexivity |].
  set (preds := map snd sequences) in *.
  set (sp := sort_pairs (tie_break self preds) (enumerate preds)).
  assert (Hperm : Permutation (rev sp) (enumerate preds)).
  { rewrite <- Permutation_rev. apply sort_pairs_perm. }
  unfold slice_down_to, argsort in Hseqs, Hscores. fold sp in Hseqs, Hscores.
  rewrite <- map_rev, firstn_map in Hseqs, Hscores.
  rewrite length_map in Hseqs, Hscores.
  set (m := Z.to_nat _) in *.
  exists (firstn m (rev sp)), (skipn m (rev sp)).
  rewrite firstn_skipn.
  assert (Hval : forall p, In p (rev sp) -> nth_error preds (fst p) = Some (snd p)).
  { intros [i v] Hin. simpl. apply enumerate_spec.
    eapply Permutation_in; [exact Hperm | exact Hin]. }
  assert (Hlen : length sp = length sequences).
  { unfold sp. rewrite (Permutation_length (sort_pairs_perm _ _)).
    unfold enumerate. rewrite length_combine, length_seq, Nat.min_id.
    unfold preds. apply length_map. }
  assert (Htop : forall p, In p (firstn m (rev sp)) ->
                           nth_error preds (fst p) = Some (snd p)).
  { intros p Hp. apply Hval. eapply In_firstn. exact Hp. }
  split; [| split; [| split; [| split; [| split]]]].
  - rewrite (Permutation_map fst Hperm), enumerate_fst.
    unfold preds. rewrite length_map. reflexivity.
  - apply StronglySorted_rev. apply sort_pairs_sorted.
  - exact Hval.
  - clear - Hseqs Htop. revert seqs Hseqs.
    induction (firstn m (rev sp)) as [| p top IH]; intros seqs Hseqs;
      destruct seqs as [| s seqs]; simpl in Hseqs; try discriminate;
      constructor.
    + inversion Hseqs as [[Hs Hrest]]. unfold entry_at.
      apply nth_error_pair; [symmetry; exact Hs |].
      apply Htop. left. reflexivity.
    + inversion Hseqs as [[Hs Hrest]]. apply IH; [| exact Hrest].
      intros q Hq. apply Htop. right. exact Hq.
  - apply map_Some_inj. rewrite Hscores, !map_map.
    apply map_ext_in. intros p Hp. apply Htop. exact Hp.
  - rewrite length_firstn, length_rev, Hlen.
    unfold m. rewrite Hlen, select_top_count by lia.
    destruct (sequences_batch_size self =? 0); lia.
Qed.

(* ===================================================================== *)
(** ** Invariants of the round                                             *)
(* ===================================================================== *)

Lemma Forall_firstn {A} (P : A -> Prop) n l : Forall P l -> Forall P (firstn n l).
Proof.
  intro H. apply Forall_forall. intros x Hx.
  rewrite Forall_forall in H. apply H. eapply In_firstn. exact Hx.
Qed.

Lemma Forall_skipn {A} (P : A -> Prop) n l : Forall P l -> Forall P (skipn n l).
Proof.
  intro H. apply Forall_forall. intros x Hx.
  rewrite Forall_forall in H. apply H.
  rewrite <- (firstn_skipn n l). apply in_or_app. right. exact Hx.
Qed.

Lemma chunks_aux_Forall {A} (P : A -> Prop) step n :
  forall l, Forall P l -> Forall (Forall P) (chunks_aux n step l).
Proof.
  induction n as [| n IH]; intros l H; simpl; [constructor |].
  destruct l as [| x l]; [constructor |].
  constructor; [apply Forall_firstn; exact H |].
  apply IH. apply Forall_skipn. exact H.
Qed.

Lemma chunks_aux_nonempty {A} step n :
  step <> 0 ->
  forall l : list A, Forall (fun chunk => chunk <> []) (chunks_aux n step l).
Proof.
  intro Hstep. induction n as [| n IH]; intro l; simpl; [constructor |].
  destruct l as [| x l]; [constructor |].
  constructor; [| apply IH].
  destruct step; [congruence | discriminate].
Qed.

Lemma np_resize_Forall (P : string -> Prop) a new_size parents :
  Forall P a -> np_resize a new_size = inl parents -> Forall P parents.
Proof.
  unfold np_resize. intros H E.
  destruct (length a =? 0); [discriminate |].
  destruct (new_size =? 0); inversion E; subst; [constructor |].
  apply Forall_firstn. apply Forall_concat.
  apply Forall_forall. intros l Hl. apply repeat_spec in Hl. subst. exact H.
Qed.

Lemma index_all_Forall {A} (P : A -> Prop) (a : list A) inds st r st' :
  Forall P a -> index_all a inds st = (Ok r, st') -> Forall P r.
Proof.
  intros H Hrun. apply index_all_ok in Hrun. destruct Hrun as [_ Hmap].
  revert r Hmap. induction inds as [| i inds IH]; intros [| x r] Hmap;
    simpl in Hmap; try discriminate; constructor.
  - injection Hmap as Hx _. rewrite Forall_forall in H. apply H.
    eapply nth_error_In. symmetry. exact Hx.
  - injection Hmap as _ Hrest. auto.
Qed.

Section Invariant.

Variable self : AdaLead.
Variable fuel : nat.

(** A property of sequences that mutation and recombination keep. *)
Variable P : string -> Prop.
Hypothesis P_mutant :
  forall node child,
    P node -> String.length child = String.length node -> P child.
Hypothesis P_recombine :
  forall gen st r st',
    Forall P gen -> recombine_population self gen st = (Ok r, st') ->
    Forall P r.

Section InRound.

Variable measured : list string.
Variable previous : nat.

Lemma repeat_recombine_inv n :
  forall parents st r st',
    Forall P parents ->
    repeat_m n (recombine_population self) parents st = (Ok r, st') ->
    Forall P r.
Proof.
  induction n as [| n IH]; intros parents st r st' HP H; simpl in H.
  - ok_inv H. exact HP.
  - ok_inv H. eapply IH; [| exact H]. eapply P_recombine; eassumption.
Qed.

Lemma rollout_step_inv root_fitnesses nodes sequences st nodes' sequences' st' :
  Forall (fun node => P (snd node)) nodes ->
  dict_ok P sequences ->
  rollout_step self fuel measured root_fitnesses nodes sequences st
  = (Ok (nodes', sequences'), st') ->
  Forall (fun node => P (snd node)) nodes' /\ dict_ok P sequences'.
Proof.
  intros Hnodes Hdict H. apply rollout_step_ok in H.
  destruct H as (children & fitnesses & Hfresh & _ & -> & -> & _).
  assert (Hch : Forall P children).
  { clear - Hfresh Hnodes P_mutant.
    induction Hfresh as [| node child nodes children [Hlen _] _ IH];
      [constructor |].
    inversion Hnodes; subst. constructor; [| auto].
    eapply P_mutant; eassumption. }
  rewrite Forall_forall in Hch. split.
  - apply Forall_forall. intros [idx child] Hin. simpl.
    apply in_map_iff in Hin. destruct Hin as ([[idx' child'] f] & Heq & Hin).
    simpl in Heq. inversion Heq; subst.
    apply filter_In in Hin. destruct Hin as [Hin _].
    apply in_combine_l in Hin. apply in_combine_r in Hin. auto.
  - apply dict_update_ok; [| exact Hdict].
    apply Forall_forall. intros [k v] Hin. simpl.
    apply in_combine_l in Hin. auto.
Qed.

Lemma rollout_inv n root_fitnesses :
  forall nodes sequences st sequences' st',
    Forall (fun node => P (snd node)) nodes ->
    dict_ok P sequences ->
    rollout self fuel measured previous n root_fitnesses nodes sequences st
    = (Ok sequences', st') ->
    dict_ok P sequences'.
Proof.
  induction n as [| n IH]; intros nodes sequences st sequences' st' Hn Hd H;
    simpl in H; rewrite bind_get_state in H.
  - destruct (_ && _); [discriminate | ok_inv H; exact Hd].
  - destruct (_ && _); [| ok_inv H; exact Hd].
    ok_inv H. destruct a as [nodes1 sequences1].
    apply rollout_step_inv in Hrun; [| assumption | assumption].
    destruct Hrun as [Hn1 Hd1]. eapply IH; eassumption.
Qed.

Lemma enumerate_Forall (roots : list string) :
  Forall P roots -> Forall (fun node => P (snd node)) (enumerate roots).
Proof.
  intro H. apply Forall_forall. intros [i s] Hin. simpl.
  unfold enumerate in Hin. apply in_combine_r in Hin.
  rewrite Forall_forall in H. auto.
Qed.

Lemma rollout_chunk_inv roots sequences st sequences' st' :
  Forall P roots -> dict_ok P sequences ->
  rollout_chunk self fuel measured previous roots sequences st
  = (Ok sequences', st') ->
  dict_ok P sequences'.
Proof.
  unfold rollout_chunk. intros Hr Hd H. ok_inv H.
  eapply rollout_inv; [| exact Hd | exact H].
  apply enumerate_Forall. exact Hr.
Qed.

Lemma for_each_chunk_inv chunk_list :
  forall sequences st sequences' st',
    Forall (Forall P) chunk_list -> dict_ok P sequences ->
    for_each (rollout_chunk self fuel measured previous) chunk_list sequences st
    = (Ok sequences', st') ->
    dict_ok P sequences'.
Proof.
  induction chunk_list as [| roots chunk_list IH];
    intros sequences st sequences' st' Hc Hd H; simpl in H.
  - ok_inv H. exact Hd.
  - inversion Hc; subst. ok_inv H.
    eapply IH; [assumption | | exact H].
    eapply rollout_chunk_inv; eassumption.
Qed.

Lemma budget_loop_inv n :
  forall parents sequences st sequences' st',
    Forall P parents -> dict_ok P sequences ->
    budget_loop self fuel measured previous n parents sequences st
    = (Ok sequences', st') ->
    dict_ok P sequences'.
Proof.
  induction n as [| n IH]; intros parents sequences st sequences' st' Hp Hd H;
    simpl in H; rewrite bind_get_state in H.
  - destruct (_ <? _); [discriminate | ok_inv H; exact Hd].
  - destruct (_ <? _); [| ok_inv H; exact Hd].
    ok_inv H. apply repeat_recombine_inv in Hrun; [| exact Hp].
    ok_inv H. destruct (eval_batch_size self =? 0); [discriminate |].
    eapply IH; [exact Hrun | | exact H].
    eapply for_each_chunk_inv; [| exact Hd | exact Hrun0].
    apply chunks_aux_Forall. exact Hrun.
Qed.

Lemma budget_loop_zeros_ok n st sequences st' :
  budget_loop_zeros self previous n st = (Ok sequences, st') -> sequences = [].
Proof.
  unfold budget_loop_zeros. intro H. rewrite bind_get_state in H.
  destruct (_ <? _); [| ok_inv H; reflexivity].
  destruct (_ && _).
  - ok_inv H. discriminate.
  - destruct (eval_batch_size self =? 0); discriminate.
Qed.

End InRound.

Lemma discover_inv population st sequences st' :
  Forall P population ->
  discover self fuel population st = (Ok sequences, st') ->
  dict_ok P sequences.
Proof.
  unfold discover. intros HP H.
  ok_inv H. ok_inv H.
  assert (Hparents : Forall P a0).
  { unfold select_parents in Hrun0. ok_inv Hrun0. ok_inv Hrun0.
    eapply index_all_Forall; eassumption. }
  rewrite bind_get_state in H.
  assert (Hempty : dict_ok P []) by (split; constructor).
  destruct (np_resize a0 (sequences_batch_size self)) as [parents | [| n]] eqn:E.
  - eapply budget_loop_inv; [| exact Hempty | exact H].
    eapply np_resize_Forall; eassumption.
  - eapply budget_loop_inv; [constructor | exact Hempty | exact H].
  - apply budget_loop_zeros_ok in H. subst. exact Hempty.
Qed.

End Invariant.

(* ===================================================================== *)
(** ** What [propose_sequences] returns                                    *)
(* ===================================================================== *)

Lemma Forall2_nth_error_r {A B} (R : A -> B -> Prop) l1 l2 :
  Forall2 R l1 l2 ->
  forall i y, nth_error l2 i = Some y ->
              exists x, nth_error l1 i = Some x /\ R x y.
Proof.
  induction 1 as [| a b l1 l2 Hab _ IH]; intros [| i] y Hy; simpl in *;
    try discriminate.
  - inversion Hy; subst. eauto.
  - apply IH. exact Hy.
Qed.

Lemma Forall2_In_l {A B} (R : A -> B -> Prop) l1 l2 :
  Forall2 R l1 l2 ->
  forall x, In x l1 -> exists y, In y l2 /\ R x y.
Proof.
  induction 1 as [| a b l1 l2 Hab _ IH]; intros x Hx; simpl in *; [contradiction |].
  destruct Hx as [<- | Hx]; [eauto |].
  destruct (IH x Hx) as (y & Hy & HR). eauto.
Qed.

Lemma recombine_population_nil self st r st' :
  recombine_population self [] st = (Ok r, st') -> r = [].
Proof.
  intro H.
  destruct (recombine_population_total self 0 [] st (Forall_nil _))
    as (r' & st'' & Hrun & _ & Hlen & _).
  rewrite H in Hrun. inversion Hrun; subst.
  specialize (Hlen ltac:(discriminate)). simpl in Hlen.
  destruct r'; [reflexivity | discriminate].
Qed.

Lemma repeat_recombine_nil self n :
  forall st r st',
    repeat_m n (recombine_population self) [] st = (Ok r, st') -> r = [].
Proof.
  induction n as [| n IH]; intros st r st' H; simpl in H.
  - ok_inv H. reflexivity.
  - ok_inv H. apply recombine_population_nil in Hrun. subst.
    eapply IH. exact H.
Qed.

(** Without parents nothing is ever discovered. *)
Lemma budget_loop_no_parents self fuel measured previous n :
  forall st sequences st',
    budget_loop self fuel measured previous n [] [] st = (Ok sequences, st') ->
    sequences = [].
Proof.
  induction n as [| n IH]; intros st sequences st' H; simpl in H;
    rewrite bind_get_state in H.
  - destruct (_ <? _); [discriminate | ok_inv H; reflexivity].
  - destruct (_ <? _); [| ok_inv H; reflexivity].
    ok_inv H. apply repeat_recombine_nil in Hrun. subst.
    ok_inv H. destruct (eval_batch_size self =? 0); [discriminate |].
    unfold chunks in Hrun. simpl in Hrun. ok_inv Hrun.
    eapply IH. exact H.
Qed.

Lemma discover_batch_size_0 self fuel population st sequences st' :
  sequences_batch_size self = 0 ->
  discover self fuel population st = (Ok sequences, st') ->
  sequences = [].
Proof.
  unfold discover. intros HK H.
  ok_inv H. ok_inv H. rewrite bind_get_state in H.
  rewrite HK in H. unfold np_resize in H.
  destruct (length a0 =? 0); simpl in H;
    eapply budget_loop_no_parents; exact H.
Qed.

(** The shape of a normal return: the dict that was discovered, and the
    (index, score) pairs of its sorted order, split into the returned
    ones and the others. *)
Lemma propose_sequences_ok self fuel population st seqs scores st' :
  propose_sequences self fuel population st = (Ok (seqs, scores), st') ->
  exists sequences (top rest : list (nat * Q)),
    discover self fuel population st = (Ok sequences, st')
    /\ NoDup (map fst sequences)
    /\ 1 <= sequences_batch_size self
    /\ Permutation (map fst (top ++ rest)) (seq 0 (length sequences))
    /\ StronglySorted ge_snd (top ++ rest)
    /\ (forall p, In p (top ++ rest) ->
                  nth_error (map snd sequences) (fst p) = Some (snd p))
    /\ Forall2 (entry_at sequences) top seqs
    /\ scores = map snd top
    /\ length top = Nat.min (length sequences) (sequences_batch_size self - 1).
Proof.
  unfold propose_sequences. intro H. ok_inv H.
  apply select_top_ok in H.
  destruct H as (-> & Hne & top & rest & Hperm & Hsorted & Hval & Hent & Hsc & Hlen).
  assert (HK : sequences_batch_size self <> 0).
  { intro HK. apply Hne. eapply discover_batch_size_0; eassumption. }
  assert (Hnd : dict_ok (fun _ => True) a).
  { eapply discover_inv; [| | | exact Hrun]; auto.
    - intros. apply Forall_forall. auto.
    - apply Forall_forall. auto. }
  apply Nat.eqb_neq in HK. rewrite HK in Hlen. apply Nat.eqb_neq in HK.
  exists a, top, rest.
  repeat (split; [first [assumption | apply Hnd | lia] |]). exact Hlen.
Qed.

Lemma nth_error_map_snd {A B} (l : list (A * B)) i a b :
  nth_error l i = Some (a, b) -> nth_error (map snd l) i = Some b.
Proof. intro H. rewrite nth_error_map, H. reflexivity. Qed.

Lemma nth_error_map_fst {A B} (l : list (A * B)) i a b :
  nth_error l i = Some (a, b) -> nth_error (map fst l) i = Some a.
Proof. intro H. rewrite nth_error_map, H. reflexivity. Qed.

(** The sequences picked by a sorted order are pairwise different: the
    order holds each index once and the dict each key once. *)
Lemma entries_NoDup (sequences : dict) (top rest : list (nat * Q)) seqs :
  NoDup (map fst sequences) ->
  Permutation (map fst (top ++ rest)) (seq 0 (length sequences)) ->
  Forall2 (entry_at sequences) top seqs ->
  NoDup seqs.
Proof.
  intros Hnd Hperm Hent.
  apply NoDup_nth_error. intros i j Hi Hij.
  destruct (nth_error seqs i) as [s |] eqn:Es;
    [| apply nth_error_None in Es; lia].
  symmetry in Hij.
  destruct (Forall2_nth_error_r _ _ _ Hent i s Es) as (p & Hp & Hep).
  destruct (Forall2_nth_error_r _ _ _ Hent j s Hij) as (q & Hq & Heq).
  unfold entry_at in Hep, Heq.
  assert (Hfst : fst p = fst q).
  { apply nth_error_map_fst in Hep, Heq.
    rewrite NoDup_nth_error in Hnd. apply Hnd.
    - apply nth_error_Some. congruence.
    - congruence. }
  assert (Hndtop : NoDup (map fst top)).
  { assert (Hall : NoDup (map fst (top ++ rest))).
    { eapply Permutation_NoDup; [symmetry; exact Hperm | apply seq_NoDup]. }
    rewrite map_app in Hall. eapply NoDup_app_remove_r. exact Hall. }
  rewrite NoDup_nth_error in Hndtop. apply Hndtop.
  - rewrite length_map. apply nth_error_Some. congruence.
  - rewrite !nth_error_map, Hp, Hq. simpl. congruence.
Qed.

(** C3: a normal return of [propose_sequences] holds the
    [sequences_batch_size - 1] best-scoring entries of the dict of
    discovered sequences, or all of them when the dict has fewer: the
    returned sequences are that many different keys of the dict, each
    comes with its score in the dict, and no entry left out scores above
    a returned one. *)
Theorem C3_top_of_discovered self fuel population st seqs scores st' :
  propose_sequences self fuel population st = (Ok (seqs, scores), st') ->
  exists sequences,
    discover self fuel population st = (Ok sequences, st')
    /\ NoDup (map fst sequences)
    /\ NoDup seqs
    /\ length seqs = Nat.min (length sequences) (sequences_batch_size self - 1)
    /\ length scores = length seqs
    /\ (forall i s v,
           nth_error seqs i = Some s -> nth_error scores i = Some v ->
           In (s, v) sequences)
    /\ (forall s v,
           In (s, v) sequences -> ~ In s seqs ->
           forall v', In v' scores -> (v <= v')%Q).
Proof.
  intro H. apply propose_sequences_ok in H.
  destruct H as (sequences & top & rest & Hdisc & Hnd & HK & Hperm & Hsorted
                 & Hval & Hent & -> & Hlen).
  exists sequences. split; [exact Hdisc |].
  split; [exact Hnd |].
  split; [eapply entries_NoDup; eassumption |].
  pose proof (Forall2_length Hent) as Hl.
  split; [lia |]. split; [rewrite length_map; lia |]. split.
  - intros i s v Hs Hv.
    destruct (Forall2_nth_error_r _ _ _ Hent i s Hs) as (p & Hp & He).
    rewrite nth_error_map, Hp in Hv. inversion Hv; subst.
    eapply nth_error_In. exact He.
  - intros s v Hin Hnot v' Hv'.
    apply In_nth_error in Hin. destruct Hin as [i Hi].
    assert (Hi' : In i (map fst (top ++ rest))).
    { eapply Permutation_in; [symmetry; exact Hperm |].
      apply in_seq. split; [lia |]. simpl. apply nth_error_Some. congruence. }
    apply in_map_iff in Hi'. destruct Hi' as (p & Hfst & Hp).
    pose proof (Hval p Hp) as Hpv. rewrite Hfst in Hpv.
    rewrite (nth_error_map_snd _ _ _ _ Hi) in Hpv. inversion Hpv as [Hv].
    apply in_map_iff in Hv'. destruct Hv' as (q & <- & Hq).
    apply in_app_or in Hp. destruct Hp as [Hp | Hp].
    + exfalso. apply Hnot.
      destruct (Forall2_In_l _ _ _ Hent p Hp) as (s' & Hs' & He).
      unfold entry_at in He. rewrite Hfst, Hi in He. inversion He; subst.
      exact Hs'.
    + apply StronglySorted_app_inv in Hsorted. destruct Hsorted as [_ Hcross].
      specialize (Hcross q p Hq Hp). unfold ge_snd in Hcross.
      exact Hcross.
Qed.

(** C10: the two arrays of a normal return are aligned and ordered: the
    score at an index is the value the dict of discovered sequences
    holds for the sequence at that index, and the scores are in
    non-increasing order. *)
Theorem C10_aligned_and_descending self fuel population st seqs scores st' :
  propose_sequences self fuel population st = (Ok (seqs, scores), st') ->
  exists sequences,
    discover self fuel population st = (Ok sequences, st')
    /\ length scores = length seqs
    /\ (forall i s,
           nth_error seqs i = Some s ->
           exists v, nth_error scores i = Some v
                     /\ dict_get s sequences = Some v)
    /\ descending scores.
Proof.
  intro H. apply propose_sequences_ok in H.
  destruct H as (sequences & top & rest & Hdisc & Hnd & HK & Hperm & Hsorted
                 & Hval & Hent & -> & Hlen).
  exists sequences. split; [exact Hdisc |].
  pose proof (Forall2_length Hent) as Hl.
  split; [rewrite length_map; lia |]. split.
  - intros i s Hs.
    destruct (Forall2_nth_error_r _ _ _ Hent i s Hs) as (p & Hp & He).
    exists (snd p). split; [rewrite nth_error_map, Hp; reflexivity |].
    apply dict_get_in; [exact Hnd |].
    eapply nth_error_In. exact He.
  - intros i j x y Hlt Hx Hy.
    rewrite nth_error_map in Hx, Hy.
    destruct (nth_error top i) as [p |] eqn:Ep; [| discriminate].
    destruct (nth_error top j) as [q |] eqn:Eq; [| discriminate].
    simpl in Hx, Hy. inversion Hx; inversion Hy; subst.
    apply StronglySorted_app_inv in Hsorted. destruct Hsorted as [Htop _].
    exact (StronglySorted_nth _ _ Htop i j p q Hlt Ep Eq).
Qed.

(** C9: for a population whose sequences all have length [seq_len], a
    normal return of [propose_sequences] holds no sequence twice and
    only sequences of length [seq_len]. *)
Theorem C9_distinct_and_fixed_length self fuel population st seqs scores st' :
  Forall (fun s => String.length s = seq_len self) population ->
  propose_sequences self fuel population st = (Ok (seqs, scores), st') ->
  NoDup seqs /\ Forall (fun s => String.length s = seq_len self) seqs.
Proof.
  intros Hpop H.
  pose proof (propose_sequences_ok _ _ _ _ _ _ _ H)
    as (sequences & top & rest & Hdisc & Hnd & HK & Hperm & Hsorted
        & Hval & Hent & Hsc & Hlen).
  assert (Hok : dict_ok (fun s => String.length s = seq_len self) sequences).
  { eapply discover_inv; [| | exact Hpop | exact Hdisc].
    - intros node child Hn Hc. congruence.
    - intros gen st0 r st0' Hgen Hrun.
      eapply recombine_population_ok; eassumption. }
  destruct Hok as [_ Hlens]. rewrite Forall_forall in Hlens.
  split.
  - apply NoDup_nth_error. intros i j Hi Hij.
    destruct (nth_error seqs i) as [s |] eqn:Es;
      [| apply nth_error_None in Es; lia].
    symmetry in Hij.
    destruct (Forall2_nth_error_r _ _ _ Hent i s Es) as (p & Hp & Hep).
    destruct (Forall2_nth_error_r _ _ _ Hent j s Hij) as (q & Hq & Heq).
    unfold entry_at in Hep, Heq.
    assert (Hfst : fst p = fst q).
    { apply nth_error_map_fst in Hep, Heq.
      rewrite NoDup_nth_error in Hnd. apply Hnd.
      - apply nth_error_Some. congruence.
      - congruence. }
    assert (Hndtop : NoDup (map fst top)).
    { assert (Hall : NoDup (map fst (top ++ rest))).
      { eapply Permutation_NoDup; [symmetry; exact Hperm | apply seq_NoDup]. }
      rewrite map_app in Hall. eapply NoDup_app_remove_r. exact Hall. }
    rewrite NoDup_nth_error in Hndtop. apply Hndtop.
    + rewrite length_map. apply nth_error_Some. congruence.
    + rewrite !nth_error_map, Hp, Hq. simpl. congruence.
  - apply Forall_forall. intros s Hs.
    apply In_nth_error in Hs. destruct Hs as [i Hi].
    destruct (Forall2_nth_error_r _ _ _ Hent i s Hi) as (p & Hp & Hep).
    apply Hlens. apply nth_error_map_fst in Hep.
    eapply nth_error_In. exact Hep.
Qed.

(* ===================================================================== *)
(** ** Which errors and which loops                                        *)
(* ===================================================================== *)

Create HintDb outcome.

Lemma not_empty_error_bind {A B} (m : M A) (f : A -> M B) :
  not_empty_error m -> (forall a, not_empty_error (f a)) ->
  not_empty_error (bind m f).
Proof.
  intros Hm Hf st st' H. apply bind_raise in H.
  destruct H as [H | (a & st1 & _ & H)].
  - eapply Hm; exact H.
  - eapply Hf; exact H.
Qed.

Lemma only_mutant_loop_bind {A B} (m : M A) (f : A -> M B) :
  only_mutant_loop m -> (forall a, only_mutant_loop (f a)) ->
  only_mutant_loop (bind m f).
Proof.
  intros Hm Hf st l st' H. apply bind_diverge in H.
  destruct H as [H | (a & st1 & _ & H)].
  - eapply Hm; exact H.
  - eapply Hf; exact H.
Qed.

Lemma not_empty_error_ret {A} (a : A) : not_empty_error (ret a).
Proof. intros st st' H. discriminate. Qed.

Lemma only_mutant_loop_ret {A} (a : A) : only_mutant_loop (ret a).
Proof. intros st l st' H. discriminate. Qed.

Lemma only_mutant_loop_raise {A} e : only_mutant_loop (@raise A e).
Proof. intros st l st' H. discriminate. Qed.

Lemma not_empty_error_diverge {A} l : not_empty_error (@diverge A l).
Proof. intros st st' H. discriminate. Qed.

Lemma not_empty_error_get_state : not_empty_error get_state.
Proof. intros st st' H. discriminate. Qed.

Lemma only_mutant_loop_get_state : only_mutant_loop get_state.
Proof. intros st l st' H. discriminate. Qed.

Lemma not_empty_error_random_random : not_empty_error random_random.
Proof. intros st st' H. discriminate. Qed.

Lemma only_mutant_loop_random_random : only_mutant_loop random_random.
Proof. intros st l st' H. discriminate. Qed.

Lemma not_empty_error_randbelow n : not_empty_error (randbelow n).
Proof. intros st st' H. discriminate. Qed.

Lemma only_mutant_loop_randbelow n : only_mutant_loop (randbelow n).
Proof. intros st l st' H. discriminate. Qed.

#[local] Hint Resolve not_empty_error_ret not_empty_error_diverge
  not_empty_error_get_state not_empty_error_random_random
  not_empty_error_randbelow
  only_mutant_loop_ret only_mutant_loop_raise only_mutant_loop_get_state
  only_mutant_loop_random_random only_mutant_loop_randbelow : outcome.

(** Close a goal about a computation built from [bind], [ret], [raise],
    [if] and [match] out of parts already in the hint database. *)
Ltac outcome_step :=
  match goal with
  | |- not_empty_error (bind _ _) => apply not_empty_error_bind; [| intro]
  | |- only_mutant_loop (bind _ _) => apply only_mutant_loop_bind; [| intro]
  | |- not_empty_error (raise _) => intros ? ? ?; discriminate
  | |- context [match ?x with _ => _ end] => destruct x
  | |- _ => solve [auto with outcome]
  end.

Ltac outcome_auto := repeat outcome_step.

Lemma outcome_random_choice alphabet :
  not_empty_error (random_choice alphabet)
  /\ only_mutant_loop (random_choice alphabet).
Proof.
  unfold random_choice. split; outcome_auto.
Qed.

Lemma outcome_shuffle_down {A} k :
  forall x : list A,
    not_empty_error (shuffle_down k x) /\ only_mutant_loop (shuffle_down k x).
Proof.
  induction k as [| k IH]; intro x; simpl.
  - split; outcome_auto.
  - split; outcome_auto; apply IH.
Qed.

Lemma outcome_index_all {A} (a : list A) inds :
  not_empty_error (index_all a inds) /\ only_mutant_loop (index_all a inds).
Proof.
  induction inds as [| i inds [IH1 IH2]]; simpl.
  - split; outcome_auto.
  - split; outcome_auto; assumption.
Qed.

Lemma outcome_array_max a :
  not_empty_error (array_max a) /\ only_mutant_loop (array_max a).
Proof. unfold array_max. split; outcome_auto. Qed.

Lemma outcome_ndarray_max a :
  not_empty_error (ndarray_max a) /\ only_mutant_loop (ndarray_max a).
Proof. destruct a as [x | a]; [simpl; split; outcome_auto | apply outcome_array_max]. Qed.

Lemma outcome_get_fitness self sequence_list :
  not_empty_error (get_fitness self sequence_list)
  /\ only_mutant_loop (get_fitness self sequence_list).
Proof.
  unfold get_fitness. split.
  - intros st st' H. destruct (fitness_fn self sequence_list); discriminate.
  - intros st l st' H. destruct (fitness_fn self sequence_list); discriminate.
Qed.

Lemma outcome_mutate_chars sequence mu alphabet :
  not_empty_error (mutate_chars sequence mu alphabet).
Proof.
  induction sequence as [| s rest IH]; simpl; outcome_auto;
    first [apply outcome_random_choice | exact IH].
Qed.

Lemma outcome_crossover self a :
  forall b switch, not_empty_error (crossover self a b switch).
Proof.
  induction a as [| ca a IH]; intros b switch; simpl; outcome_auto; apply IH.
Qed.

Lemma outcome_recombine_pairs self gen :
  not_empty_error (recombine_pairs self gen).
Proof.
  induction gen as [| x | x y gen IH] using pair_induction;
    try (cbn; outcome_auto; fail).
  rewrite recombine_pairs_cons2. outcome_auto;
    first [apply outcome_crossover | exact IH].
Qed.

Lemma outcome_recombine_population self gen :
  not_empty_error (recombine_population self gen)
  /\ only_mutant_loop (recombine_population self gen).
Proof.
  split.
  - unfold recombine_population, random_shuffle. outcome_auto;
      first [apply outcome_shuffle_down | apply outcome_recombine_pairs].
  - intros st l st' H. exfalso.
    eapply recombine_population_never_diverges; exact H.
Qed.

Lemma outcome_repeat_recombine self n :
  forall parents,
    not_empty_error (repeat_m n (recombine_population self) parents)
    /\ only_mutant_loop (repeat_m n (recombine_population self) parents).
Proof.
  induction n as [| n IH]; intro parents; simpl.
  - split; outcome_auto.
  - split; outcome_auto;
      first [apply outcome_recombine_population | apply IH].
Qed.

Lemma outcome_select_parents self population fitnesses :
  not_empty_error (select_parents self population fitnesses)
  /\ only_mutant_loop (select_parents self population fitnesses).
Proof.
  unfold select_parents, set_initial_top_fitness. split; outcome_auto;
    first [apply outcome_ndarray_max | apply outcome_index_all
          | intros ? ? ?; discriminate | intros ? ? ? ?; discriminate].
Qed.

Lemma outcome_prune root_fitnesses zipped :
  not_empty_error (prune root_fitnesses zipped)
  /\ only_mutant_loop (prune root_fitnesses zipped).
Proof.
  split.
  - induction zipped as [| [[idx child] fitness] zipped IH]; simpl;
      outcome_auto; exact IH.
  - intros st l st' H. exfalso. eapply prune_never_diverges; exact H.
Qed.

Lemma not_empty_error_gen_children self measured n sequences nodes :
  forall child_idxs children,
    not_empty_error (gen_children self measured n sequences nodes
                       child_idxs children).
Proof.
  induction n as [| n IH]; intros child_idxs children; simpl.
  - outcome_auto.
  - destruct (length children <? length nodes); [| outcome_auto].
    destruct (nth_error nodes (length children)) as [[idx node] |];
      [| outcome_auto].
    destruct (String.length node =? 0); [outcome_auto |].
    apply not_empty_error_bind.
    + unfold generate_random_mutant. outcome_auto. apply outcome_mutate_chars.
    + intro child. destruct (_ && _); apply IH.
Qed.

Lemma only_mutant_loop_gen_children self measured n sequences nodes
    child_idxs children :
  only_mutant_loop (gen_children self measured n sequences nodes
                      child_idxs children).
Proof.
  intros st l st' H.
  eapply gen_children_diverges_in_mutant_loop. exact H.
Qed.

Lemma outcome_rollout_step self fuel measured root_fitnesses nodes sequences :
  not_empty_error (rollout_step self fuel measured root_fitnesses nodes sequences)
  /\ only_mutant_loop
       (rollout_step self fuel measured root_fitnesses nodes sequences).
Proof.
  unfold rollout_step. split; outcome_auto;
    first [apply not_empty_error_gen_children
          | apply only_mutant_loop_gen_children
          | apply outcome_get_fitness | apply outcome_prune].
Qed.

Section Loops.

Variable self : AdaLead.
Variable fuel : nat.
Variable measured : list string.
Variable previous : nat.

Lemma grows_cost_rollout_step root_fitnesses nodes sequences :
  grows_cost (rollout_step self fuel measured root_fitnesses nodes sequences).
Proof.
  unfold rollout_step.
  apply grows_cost_bind; [apply keeps_grows, keeps_cost_gen_children |].
  intros [child_idxs children].
  apply grows_cost_bind; [apply grows_cost_get_fitness | intro fitnesses].
  apply grows_cost_bind; [apply keeps_grows, keeps_cost_prune | intro nodes'].
  apply keeps_grows. auto with cost.
Qed.

Lemma grows_cost_rollout n root_fitnesses :
  forall nodes sequences,
    grows_cost (rollout self fuel measured previous n root_fitnesses nodes sequences).
Proof.
  induction n as [| n IH]; intros nodes sequences st; simpl;
    rewrite bind_get_state.
  - destruct (_ && _); simpl; lia.
  - destruct (_ && _); [| simpl; lia].
    apply grows_cost_bind; [apply grows_cost_rollout_step |].
    intros [nodes' sequences']. apply IH.
Qed.

Lemma grows_cost_rollout_chunk roots sequences :
  grows_cost (rollout_chunk self fuel measured previous roots sequences).
Proof.
  unfold rollout_chunk.
  apply grows_cost_bind; [apply grows_cost_get_fitness | intro rf].
  apply grows_cost_rollout.
Qed.

Lemma grows_cost_for_each_chunk chunk_list :
  forall sequences,
    grows_cost (for_each (rollout_chunk self fuel measured previous)
                  chunk_list sequences).
Proof.
  induction chunk_list as [| roots chunk_list IH]; intro sequences; simpl.
  - apply keeps_grows. auto with cost.
  - apply grows_cost_bind; [apply grows_cost_rollout_chunk | intro s; apply IH].
Qed.

Lemma keeps_cost_repeat_recombine n :
  forall parents, keeps_cost (repeat_m n (recombine_population self) parents).
Proof.
  induction n as [| n IH]; intro parents; simpl; auto with cost.
  apply keeps_cost_bind; [apply keeps_cost_recombine_population | intro p; apply IH].
Qed.

Lemma grows_cost_budget_loop n :
  forall parents sequences,
    grows_cost (budget_loop self fuel measured previous n parents sequences).
Proof.
  induction n as [| n IH]; intros parents sequences st; simpl;
    rewrite bind_get_state.
  - destruct (_ <? _); simpl; lia.
  - destruct (_ <? _); [| simpl; lia].
    apply grows_cost_bind;
      [apply keeps_grows, keeps_cost_repeat_recombine | intro parents'].
    apply grows_cost_bind; [| intro sequences'; apply IH].
    destruct (eval_batch_size self =? 0).
    + apply keeps_grows. auto with cost.
    + apply grows_cost_for_each_chunk.
Qed.

Lemma not_empty_error_rollout n root_fitnesses :
  forall nodes sequences,
    not_empty_error
      (rollout self fuel measured previous n root_fitnesses nodes sequences).
Proof.
  induction n as [| n IH]; intros nodes sequences st st'; simpl;
    rewrite bind_get_state.
  - destruct (_ && _); discriminate.
  - destruct (_ && _); [| discriminate].
    apply not_empty_error_bind; [apply outcome_rollout_step |].
    intros [nodes' sequences']. apply IH.
Qed.

Lemma not_empty_error_for_each_chunk chunk_list :
  forall sequences,
    not_empty_error (for_each (rollout_chunk self fuel measured previous)
                       chunk_list sequences).
Proof.
  induction chunk_list as [| roots chunk_list IH]; intro sequences; simpl.
  - auto with outcome.
  - apply not_empty_error_bind; [| intro s; apply IH].
    unfold rollout_chunk.
    apply not_empty_error_bind; [apply outcome_get_fitness | intro rf].
    apply not_empty_error_rollout.
Qed.

Lemma not_empty_error_budget_loop n :
  forall parents sequences,
    not_empty_error (budget_loop self fuel measured previous n parents sequences).
Proof.
  induction n as [| n IH]; intros parents sequences st st'; simpl;
    rewrite bind_get_state.
  - destruct (_ <? _); discriminate.
  - destruct (_ <? _); [| discriminate].
    apply not_empty_error_bind; [apply outcome_repeat_recombine | intro parents'].
    apply not_empty_error_bind; [| intro sequences'; apply IH].
    destruct (eval_batch_size self =? 0).
    + intros ? ? ?. discriminate.
    + apply not_empty_error_for_each_chunk.
Qed.

Lemma not_empty_error_budget_loop_zeros n :
  not_empty_error (budget_loop_zeros self previous n).
Proof.
  intros st st'. unfold budget_loop_zeros. rewrite bind_get_state.
  destruct (_ <? _); [| discriminate].
  destruct (_ && _).
  - apply not_empty_error_bind; [apply outcome_shuffle_down |].
    intros ? ? ? ?. discriminate.
  - destruct (eval_batch_size self =? 0); discriminate.
Qed.

Lemma only_mutant_loop_budget_loop_zeros n :
  only_mutant_loop (budget_loop_zeros self previous n).
Proof.
  intros st l st'. unfold budget_loop_zeros. rewrite bind_get_state.
  destruct (_ <? _); [| discriminate].
  destruct (_ && _).
  - apply only_mutant_loop_bind; [apply outcome_shuffle_down |].
    intros ? ? ? ? ?. discriminate.
  - destruct (eval_batch_size self =? 0); discriminate.
Qed.

(** The rollout loop charges at least one query per iteration and stops
    before the budget is reached: more fuel than budget is never used
    up. *)
Lemma only_mutant_loop_rollout n root_fitnesses :
  forall nodes sequences st l st',
    previous <= model_cost st ->
    model_queries_per_batch self
    < n + (model_cost st - previous) + eval_batch_size self ->
    rollout self fuel measured previous n root_fitnesses nodes sequences st
    = (Diverge l, st') ->
    l = MutantLoop.
Proof.
  induction n as [| n IH]; intros nodes sequences st l st' Hprev Hfuel H;
    simpl in H; rewrite bind_get_state in H.
  - destruct (_ && _) eqn:E; [| discriminate].
    apply andb_true_iff in E. destruct E as [_ E]. apply Nat.ltb_lt in E. lia.
  - destruct (_ && _) eqn:E; [| discriminate].
    apply andb_true_iff in E. destruct E as [Hnodes _].
    apply Nat.ltb_lt in Hnodes.
    apply bind_diverge in H. destruct H as [H | ([nodes' sequences'] & st1 & Hrun & H)].
    + eapply outcome_rollout_step. exact H.
    + apply rollout_step_ok in Hrun.
      destruct Hrun as (_ & _ & _ & _ & _ & _ & Hcost).
      eapply IH; [| | exact H]; lia.
Qed.

(** One pass over the chunks of a non-empty parent list charges at least
    one query. *)
Lemma for_each_chunk_charges parents sequences st sequences' st' :
  parents <> [] -> eval_batch_size self <> 0 ->
  for_each (rollout_chunk self fuel measured previous)
    (chunks (eval_batch_size self) parents) sequences st
  = (Ok sequences', st') ->
  model_cost st < model_cost st'.
Proof.
  intros Hne HE H. destruct parents as [| p parents]; [congruence |].
  unfold chunks in H. simpl in H.
  destruct (eval_batch_size self) as [| e]; [congruence |].
  simpl in H. ok_inv H. unfold rollout_chunk in Hrun. ok_inv Hrun.
  apply get_fitness_ok in Hrun0. destruct Hrun0 as (scores & _ & -> & ->).
  pose proof (grows_cost_run _ _ _ _ (grows_cost_rollout _ _ _ _) Hrun) as H1.
  pose proof (grows_cost_run _ _ _ _ (grows_cost_for_each_chunk _ _) H) as H2.
  simpl in H1. lia.
Qed.

Lemma repeat_recombine_nonempty n :
  forall parents st r st',
    parents <> [] ->
    repeat_m n (recombine_population self) parents st = (Ok r, st') ->
    r <> [].
Proof.
  induction n as [| n IH]; intros parents st r st' Hne H; simpl in H.
  - ok_inv H. exact Hne.
  - ok_inv H. eapply IH; [| exact H].
    eapply recombine_population_ok; eassumption.
Qed.

Hypothesis enough_fuel : model_queries_per_batch self < fuel.

Lemma only_mutant_loop_rollout_chunk roots sequences st l st' :
  previous <= model_cost st ->
  rollout_chunk self fuel measured previous roots sequences st = (Diverge l, st') ->
  l = MutantLoop.
Proof.
  unfold rollout_chunk. intros Hprev H.
  apply bind_diverge in H. destruct H as [H | (rf & st1 & Hrun & H)].
  - eapply outcome_get_fitness. exact H.
  - apply get_fitness_ok in Hrun. destruct Hrun as (scores & _ & -> & ->).
    eapply only_mutant_loop_rollout; [| | exact H]; simpl; lia.
Qed.

Lemma only_mutant_loop_for_each_chunk chunk_list :
  forall sequences st l st',
    previous <= model_cost st ->
    for_each (rollout_chunk self fuel measured previous) chunk_list sequences st
    = (Diverge l, st') ->
    l = MutantLoop.
Proof.
  induction chunk_list as [| roots chunk_list IH];
    intros sequences st l st' Hprev H; simpl in H; [discriminate |].
  apply bind_diverge in H. destruct H as [H | (s & st1 & Hrun & H)].
  - eapply only_mutant_loop_rollout_chunk; eassumption.
  - eapply IH; [| exact H].
    pose proof (grows_cost_run _ _ _ _ (grows_cost_rollout_chunk roots sequences) Hrun).
    lia.
Qed.

(** The budget loop charges at least one query per iteration while there
    are parents. *)
Lemma only_mutant_loop_budget_loop n :
  forall parents sequences st l st',
    parents <> [] ->
    previous <= model_cost st ->
    model_queries_per_batch self <= n + (model_cost st - previous) ->
    budget_loop self fuel measured previous n parents sequences st
    = (Diverge l, st') ->
    l = MutantLoop.
Proof.
  induction n as [| n IH]; intros parents sequences st l st' Hne Hprev Hfuel H;
    simpl in H; rewrite bind_get_state in H.
  - destruct (_ <? _) eqn:E; [| discriminate]. apply Nat.ltb_lt in E. lia.
  - destruct (_ <? _) eqn:E; [| discriminate].
    apply bind_diverge in H. destruct H as [H | (parents' & st1 & Hrun & H)].
    + eapply outcome_repeat_recombine. exact H.
    + pose proof (keeps_cost_run _ _ _ _ (keeps_cost_repeat_recombine _ _) Hrun)
        as Hc1.
      apply repeat_recombine_nonempty in Hrun; [| exact Hne].
      apply bind_diverge in H. destruct H as [H | (sequences' & st2 & Hrun2 & H)].
      * destruct (eval_batch_size self =? 0); [discriminate |].
        eapply only_mutant_loop_for_each_chunk; [| exact H]. lia.
      * destruct (eval_batch_size self =? 0) eqn:EE; [discriminate |].
        apply Nat.eqb_neq in EE.
        apply for_each_chunk_charges in Hrun2; [| assumption | assumption].
        eapply IH; [exact Hrun | | | exact H]; lia.
Qed.

End Loops.

Lemma not_empty_error_discover self fuel population :
  not_empty_error (discover self fuel population).
Proof.
  unfold discover.
  apply not_empty_error_bind; [apply outcome_get_fitness | intro fitnesses].
  apply not_empty_error_bind; [apply outcome_select_parents | intro parents].
  intros st st'. rewrite bind_get_state.
  destruct (np_resize parents (sequences_batch_size self)) as [ps | [| n]].
  - apply not_empty_error_budget_loop.
  - apply not_empty_error_budget_loop.
  - apply not_empty_error_budget_loop_zeros.
Qed.

Lemma np_resize_nonempty a new_size parents :
  1 <= new_size -> np_resize a new_size = inl parents -> parents <> [].
Proof.
  unfold np_resize. intros Hk E.
  destruct (length a =? 0) eqn:Ea; [discriminate |].
  apply Nat.eqb_neq in Ea.
  destruct (new_size =? 0) eqn:Ek; [apply Nat.eqb_eq in Ek; lia |].
  inversion E; subst. clear E.
  assert (Hc : 1 <= ceil_div new_size (length a)).
  { unfold ceil_div. apply Nat.div_le_lower_bound; lia. }
  destruct (ceil_div new_size (length a)) as [| c]; [lia |].
  destruct a as [| x a]; [simpl in Ea; congruence |].
  destruct new_size as [| k]; [lia |].
  simpl. discriminate.
Qed.

Lemma np_resize_zeros a new_size n :
  np_resize a new_size = inr n -> n = new_size.
Proof.
  unfold np_resize. destruct (length a =? 0).
  - intro H. inversion H. reflexivity.
  - destruct (new_size =? 0); discriminate.
Qed.

Lemma only_mutant_loop_select_top self sequences :
  only_mutant_loop (select_top self sequences).
Proof.
  unfold select_top. destruct (length sequences =? 0); [auto with outcome |].
  apply only_mutant_loop_bind; [apply outcome_index_all | intro seqs].
  apply only_mutant_loop_bind; [apply outcome_index_all | intro scores].
  auto with outcome.
Qed.

Lemma only_mutant_loop_discover self fuel population :
  1 <= sequences_batch_size self ->
  model_queries_per_batch self < fuel ->
  only_mutant_loop (discover self fuel population).
Proof.
  intros HK Hfuel. unfold discover.
  apply only_mutant_loop_bind; [apply outcome_get_fitness | intro fitnesses].
  apply only_mutant_loop_bind; [apply outcome_select_parents | intro parents].
  intros st l st'. rewrite bind_get_state.
  destruct (np_resize parents (sequences_batch_size self)) as [ps | [| n]] eqn:E.
  - apply np_resize_nonempty in E; [| exact HK].
    intro H. eapply only_mutant_loop_budget_loop; [| | | | exact H];
      first [assumption | lia].
  - apply np_resize_zeros in E. lia.
  - apply only_mutant_loop_budget_loop_zeros.
Qed.

(** C6 (as the code has it): with [sequences_batch_size >= 1] and a
    fitness function that returns, the budget loop and the rollout loop
    of [propose_sequences] each charge at least one query per iteration
    and so finish within [model_queries_per_batch] iterations; given more
    fuel than that, a call can only fail to return inside the loop that
    draws mutants until they are new, which has no bound of its own. *)
Theorem C6_only_the_mutant_loop_is_unbounded self fuel population st l st' :
  1 <= sequences_batch_size self ->
  model_queries_per_batch self < fuel ->
  propose_sequences self fuel population st = (Diverge l, st') ->
  l = MutantLoop.
Proof.
  intros HK Hfuel H. unfold propose_sequences in H.
  apply bind_diverge in H. destruct H as [H | (sequences & st1 & _ & H)].
  - eapply only_mutant_loop_discover; eassumption.
  - eapply only_mutant_loop_select_top. exact H.
Qed.

Lemma select_top_empty_error self sequences st st' :
  select_top self sequences st = (Raise NoSequencesGenerated, st') ->
  sequences = [] /\ st' = st.
Proof.
  unfold select_top. destruct (length sequences =? 0) eqn:E.
  - intro H. inversion H. apply Nat.eqb_eq in E.
    destruct sequences; [auto | discriminate].
  - intro H. exfalso.
    apply bind_raise in H. destruct H as [H | (seqs & st1 & _ & H)].
    + eapply outcome_index_all. exact H.
    + apply bind_raise in H. destruct H as [H | (scores & st2 & _ & H)].
      * eapply outcome_index_all. exact H.
      * discriminate.
Qed.

(** The error of the empty dict is raised exactly when the budget loop
    ends with nothing discovered. *)
Lemma empty_error_iff self fuel population st st' :
  propose_sequences self fuel population st = (Raise NoSequencesGenerated, st')
  <-> discover self fuel population st = (Ok [], st').
Proof.
  unfold propose_sequences. split; intro H.
  - apply bind_raise in H. destruct H as [H | (sequences & st1 & Hrun & H)].
    + exfalso. eapply not_empty_error_discover. exact H.
    + apply select_top_empty_error in H. destruct H as [-> ->]. exact Hrun.
  - erewrite bind_run by exact H. reflexivity.
Qed.

(* ===================================================================== *)
(** ** A budget below the chunk size                                       *)
(* ===================================================================== *)

Lemma cutoff_le_top self top :
  (0 <= threshold self)%Q -> (cutoff self top <= top)%Q.
Proof.
  intro Hthr. unfold cutoff, Qsign.
  destruct top as [n d]. simpl Qnum. destruct n as [| p | p].
  - unfold Qle. simpl. lia.
  - assert (H0 : (0 < Z.pos p # d)%Q) by (unfold Qlt; simpl; lia).
    nra.
  - assert (H0 : (Z.neg p # d < 0)%Q) by (unfold Qlt; simpl; lia).
    nra.
Qed.

Lemma argwhere_ge_from_bound a cutoff :
  forall k, Forall (fun i => i < k + length a) (argwhere_ge_from k a cutoff).
Proof.
  induction a as [| x a IH]; intro k; simpl; [constructor |].
  assert (Hrec : Forall (fun i => i < k + S (length a))
                   (argwhere_ge_from (S k) a cutoff)).
  { eapply Forall_impl; [| apply IH]. intros i Hi. simpl in Hi. lia. }
  destruct (Qle_bool cutoff x); [constructor; [lia | exact Hrec] | exact Hrec].
Qed.

(** With a threshold that is not negative the best sequence is selected,
    so there are parents. *)
Lemma select_parents_total self population fitnesses st :
  (0 <= threshold self)%Q ->
  fitnesses <> [] -> length fitnesses = length population ->
  exists parents st',
    select_parents self population (Array1 fitnesses) st = (Ok parents, st')
    /\ parents <> []
    /\ model_cost st' = model_cost st.
Proof.
  intros Hthr Hne Hlen. unfold select_parents.
  cbn [ndarray_max ndarray_argwhere_ge].
  destruct fitnesses as [| x fitnesses]; [congruence |].
  set (fs := x :: fitnesses) in *.
  destruct (array_max fs st) as [r st0] eqn:Emax.
  assert (Hr : exists top, r = Ok top /\ st0 = st).
  { unfold array_max, fs in Emax. unfold ret in Emax. inversion Emax. eauto. }
  destruct Hr as (top & -> & ->).
  pose proof (array_max_ok _ _ _ _ Emax) as (_ & Hin & _).
  erewrite bind_run by exact Emax.
  unfold bind at 1, set_initial_top_fitness at 1.
  set (st1 := mkState _ _ _ _).
  destruct (index_all_total population (argwhere_ge fs (cutoff self top)) st1)
    as [parents Hrun].
  { eapply Forall_impl; [| apply argwhere_ge_from_bound].
    intros i Hi. simpl in Hi. rewrite <- Hlen. exact Hi. }
  exists parents, st1. split; [exact Hrun | split; [| reflexivity]].
  apply index_all_ok in Hrun. destruct Hrun as [_ Hmap].
  apply In_nth_error in Hin. destruct Hin as [i Hi].
  assert (Hsel : In i (argwhere_ge fs (cutoff self top))).
  { apply argwhere_ge_spec. exists top. split; [exact Hi |].
    apply cutoff_le_top. exact Hthr. }
  intros ->. simpl in Hmap.
  destruct (argwhere_ge fs (cutoff self top)); [contradiction | discriminate].
Qed.

Section SmallBudget.

Variable self : AdaLead.
Variable fuel : nat.
Variable measured : list string.
Variable previous : nat.

Hypothesis small_budget : model_queries_per_batch self < eval_batch_size self.

(** The rollout loop is never entered: one more batch would not fit. *)
Lemma rollout_small_budget n root_fitnesses nodes sequences st :
  previous <= model_cost st ->
  rollout self fuel measured previous n root_fitnesses nodes sequences st
  = (Ok sequences, st).
Proof.
  intro Hprev.
  assert (E : (0 <? length nodes)
              && (model_cost st - previous + eval_batch_size self
                  <? model_queries_per_batch self) = false).
  { apply andb_false_iff. right. apply Nat.ltb_ge. lia. }
  destruct n; simpl; rewrite bind_get_state, E; reflexivity.
Qed.

Lemma for_each_chunk_stays sequences chunk_list :
  forall st sequences' st',
    previous <= model_cost st ->
    for_each (rollout_chunk self fuel measured previous) chunk_list sequences st
    = (Ok sequences', st') ->
    sequences' = sequences.
Proof.
  induction chunk_list as [| roots chunk_list IH]; intros st sequences' st' Hprev H;
    simpl in H.
  - ok_inv H. reflexivity.
  - ok_inv H. unfold rollout_chunk in Hrun. ok_inv Hrun.
    apply get_fitness_ok in Hrun0. destruct Hrun0 as (scores & _ & -> & ->).
    rewrite rollout_small_budget in Hrun by (simpl; lia).
    inversion Hrun; subst. eapply IH; [| exact H]. simpl. lia.
Qed.

(** Whatever else happens, nothing is discovered. *)
Lemma budget_loop_stays_empty n :
  forall parents st sequences st',
    previous <= model_cost st ->
    budget_loop self fuel measured previous n parents [] st = (Ok sequences, st') ->
    sequences = [].
Proof.
  induction n as [| n IH]; intros parents st sequences st' Hprev H;
    simpl in H; rewrite bind_get_state in H.
  - destruct (_ <? _); [discriminate | ok_inv H; reflexivity].
  - destruct (_ <? _); [| ok_inv H; reflexivity].
    ok_inv H.
    pose proof (keeps_cost_run _ _ _ _ (keeps_cost_repeat_recombine _ _ _) Hrun)
      as Hc1.
    ok_inv H. destruct (eval_batch_size self =? 0); [discriminate |].
    pose proof (grows_cost_run _ _ _ _
                  (grows_cost_for_each_chunk _ _ _ _ _ _) Hrun0) as Hc2.
    apply for_each_chunk_stays in Hrun0; [| lia]. subst.
    eapply IH; [| exact H]. lia.
Qed.

Hypothesis scorer : total_scorer self.

Lemma for_each_chunk_small_budget chunk_list :
  forall sequences st,
    Forall (fun roots => roots <> []) chunk_list ->
    previous <= model_cost st ->
    exists st',
      for_each (rollout_chunk self fuel measured previous) chunk_list sequences st
      = (Ok sequences, st')
      /\ model_cost st <= model_cost st'.
Proof.
  induction chunk_list as [| roots chunk_list IH];
    intros sequences st Hchunks Hprev; simpl.
  - exists st. split; [reflexivity | lia].
  - inversion Hchunks as [| ? ? Hroots Hchunks']; subst.
    unfold rollout_chunk at 1.
    destruct (scorer roots Hroots) as (rf & Hrf & _).
    assert (Hrun : get_fitness self roots st
                   = (Ok (squeeze rf), add_cost (length roots) st)).
    { unfold get_fitness. rewrite Hrf. reflexivity. }
    unfold bind at 1. erewrite bind_run by exact Hrun.
    rewrite rollout_small_budget by (simpl; lia).
    destruct (IH sequences (add_cost (length roots) st) Hchunks')
      as (st' & Hfor & Hc).
    { simpl. lia. }
    exists st'. split; [exact Hfor | simpl in Hc; lia].
Qed.

Lemma repeat_recombine_total (L : nat) n :
  forall parents st,
    Forall (fun s => String.length s = L) parents ->
    exists r st',
      repeat_m n (recombine_population self) parents st = (Ok r, st')
      /\ Forall (fun s => String.length s = L) r
      /\ model_cost st' = model_cost st.
Proof.
  induction n as [| n IH]; intros parents st HL; simpl.
  - exists parents, st. auto.
  - destruct (recombine_population_total self L parents st HL)
      as (r1 & st1 & Hrun & _ & _ & HL1 & Hc1).
    erewrite bind_run by exact Hrun.
    destruct (IH r1 st1 HL1) as (r & st' & Hrec & HLr & Hc).
    exists r, st'. split; [exact Hrec | split; [exact HLr | lia]].
Qed.

(** Every pass charges the parents and discovers nothing, until the
    budget is used up. *)
Lemma budget_loop_small_budget (L : nat) n :
  forall parents st,
    parents <> [] ->
    Forall (fun s => String.length s = L) parents ->
    previous <= model_cost st ->
    model_queries_per_batch self <= n + (model_cost st - previous) ->
    exists st',
      budget_loop self fuel measured previous n parents [] st = (Ok [], st').
Proof.
  induction n as [| n IH]; intros parents st Hne HL Hprev Hfuel; simpl;
    rewrite bind_get_state.
  - destruct (_ <? _) eqn:E; [apply Nat.ltb_lt in E; lia |].
    exists st. reflexivity.
  - destruct (_ <? _) eqn:E; [| exists st; reflexivity].
    destruct (repeat_recombine_total L (rho self) parents st HL)
      as (parents' & st1 & Hrun & HL' & Hc1).
    erewrite bind_run by exact Hrun.
    pose proof (repeat_recombine_nonempty _ _ _ _ _ _ Hne Hrun) as Hne'.
    assert (HE : eval_batch_size self <> 0) by lia.
    apply Nat.eqb_neq in HE. rewrite HE. apply Nat.eqb_neq in HE.
    destruct (for_each_chunk_small_budget
                (chunks (eval_batch_size self) parents') [] st1)
      as (st2 & Hfor & _); [apply chunks_aux_nonempty; exact HE | lia |].
    erewrite bind_run by exact Hfor.
    pose proof Hfor as Hc2.
    apply for_each_chunk_charges in Hc2; [| exact Hne' | exact HE].
    apply IH; [exact Hne' | exact HL' | lia | lia].
Qed.

End SmallBudget.

Lemma discover_small_budget self fuel population st sequences st' :
  model_queries_per_batch self < eval_batch_size self ->
  discover self fuel population st = (Ok sequences, st') ->
  sequences = [].
Proof.
  intros Hsmall H. unfold discover in H.
  ok_inv H. ok_inv H. rewrite bind_get_state in H.
  destruct (np_resize a0 (sequences_batch_size self)) as [ps | [| n]].
  - eapply budget_loop_stays_empty; [exact Hsmall | | exact H]. lia.
  - eapply budget_loop_stays_empty; [exact Hsmall | | exact H]. lia.
  - eapply budget_loop_zeros_ok. exact H.
Qed.


(* ===================================================================== *)
(** ** A population of one sequence                                        *)
(* ===================================================================== *)

(** The scores of a batch of one are a zero-dimensional array: it has a
    maximum, and [np.argwhere] finds no index in it. *)
Lemma select_parents_zero_dimensional self population x st :
  select_parents self population (Array0 x) st
  = (Ok [], mkState (model_cost st) (Some x) (rng_tape st) (rng_pos st)).
Proof. reflexivity. Qed.

Lemma discover_one_sequence self fuel s x st sequences st' :
  fitness_fn self [s] = Some [x] ->
  discover self fuel [s] st = (Ok sequences, st') ->
  sequences = [].
Proof.
  intros Hfit H. unfold discover in H.
  ok_inv H. apply get_fitness_ok in Hrun.
  destruct Hrun as (scores & Hscores & -> & ->).
  rewrite Hfit in Hscores. inversion Hscores; subst. clear Hscores.
  change (squeeze [x]) with (Array0 x) in H.
  unfold bind at 1 in H. rewrite select_parents_zero_dimensional in H.
  rewrite bind_get_state in H.
  change (np_resize [] (sequences_batch_size self))
    with (@inr (list string) nat (sequences_batch_size self)) in H.
  destruct (sequences_batch_size self) as [| n].
  - eapply budget_loop_no_parents. exact H.
  - eapply budget_loop_zeros_ok. exact H.
Qed.

(** C1: the claim fails for a population of a single sequence.
    [get_fitness] squeezes the one score into a zero-dimensional array;
    [max()] of it is the score, but [np.argwhere] returns no index for
    it, so no parent is selected, although the score is the top score
    and, with a threshold that is not negative, is not below the cutoff
    [top_fitness * (1 - sign(top_fitness) * threshold)].  [np.resize]
    then fills the parent slots with float zeros, nothing is discovered,
    and the round never returns normally: with a positive budget and
    batch size it raises on the first use of a zero as a sequence. *)
Theorem C1_one_sequence_population self s x st :
  fitness_fn self [s] = Some [x] ->
  (exists st1,
      (measured_fitnesses <- get_fitness self [s] ;;
       select_parents self [s] measured_fitnesses) st
      = (Ok [], st1)
      /\ model_cost st1 = model_cost st + 1
      /\ initial_top_fitness st1 = Some x)
  /\ ((0 <= threshold self)%Q -> (cutoff self x <= x)%Q)
  /\ (forall fuel seqs scores st',
         propose_sequences self fuel [s] st <> (Ok (seqs, scores), st'))
  /\ (1 <= sequences_batch_size self ->
      1 <= model_queries_per_batch self ->
      forall fuel,
      exists e st',
        propose_sequences self fuel [s] st = (Raise e, st')
        /\ (e = TypeError \/ e = RangeStepZero \/ e = ScorerError)).
Proof.
  intro Hfit.
  assert (Hget : get_fitness self [s] st = (Ok (Array0 x), add_cost 1 st)).
  { unfold get_fitness. rewrite Hfit. reflexivity. }
  split; [| split; [| split]].
  - eexists. erewrite bind_run by exact Hget.
    rewrite select_parents_zero_dimensional. simpl. auto.
  - apply cutoff_le_top.
  - intros fuel seqs scores st' H. unfold propose_sequences in H. ok_inv H.
    apply discover_one_sequence with (x := x) in Hrun; [| exact Hfit].
    subst. discriminate.
  - intros HK HM fuel. unfold propose_sequences, discover.
    unfold bind at 1. erewrite bind_run by exact Hget.
    unfold bind at 1. rewrite select_parents_zero_dimensional.
    rewrite bind_get_state.
    change (np_resize [] (sequences_batch_size self))
      with (@inr (list string) nat (sequences_batch_size self)).
    destruct (sequences_batch_size self) as [| n]; [lia |].
    unfold budget_loop_zeros. rewrite bind_get_state. cbn [model_cost add_cost].
    replace (model_cost st + 1 - (model_cost st + 1)) with 0 by lia.
    destruct (0 <? model_queries_per_batch self) eqn:E;
      [| apply Nat.ltb_ge in E; lia].
    destruct ((0 <? rho self) && negb (S n =? 1)).
    + unfold bind.
      destruct (random_shuffle (repeat tt (S n)) _) as [[u | e | l] st1] eqn:Esh.
      * eexists _, _. split; [reflexivity | auto].
      * exfalso.
        match type of Esh with
        | random_shuffle ?l ?s0 = _ =>
            destruct (random_shuffle_total (fun _ => True) l s0)
              as (r & st2 & Hr & _); [apply Forall_forall; auto |]
        end.
        rewrite Hr in Esh. discriminate.
      * exfalso.
        match type of Esh with
        | random_shuffle ?l ?s0 = _ =>
            destruct (random_shuffle_total (fun _ => True) l s0)
              as (r & st2 & Hr & _); [apply Forall_forall; auto |]
        end.
        rewrite Hr in Esh. discriminate.
    + destruct (eval_batch_size self =? 0);
        unfold bind; eexists _, _; (split; [reflexivity | auto]).
Qed.

(* ===================================================================== *)
(** ** A mutation rate of zero                                             *)
(* ===================================================================== *)

Lemma rate_nonpos (m : Q) (n : nat) :
  (m <= 0)%Q -> (m * 1 / inject_Z (Z.of_nat n) <= 0)%Q.
Proof.
  intro H. unfold Qdiv. rewrite Qmult_1_r.
  assert (Hinv : (0 <= / inject_Z (Z.of_nat n))%Q).
  { apply Qinv_le_0_compat. unfold Qle. simpl. lia. }
  nra.
Qed.

Section RateZero.

Variable self : AdaLead.
Variable fuel : nat.
Variable measured : list string.
Variable previous : nat.

Hypothesis rate_0 : (mu self <= 0)%Q.

(** The mutant of a node of the seed population is the node itself and
    is rejected, on every attempt. *)
Lemma gen_children_rate_0 n sequences idx node nodes :
  forall st,
    String.length node <> 0 ->
    set_mem node measured = true ->
    exists st',
      gen_children self measured n sequences ((idx, node) :: nodes) [] [] st
      = (Diverge MutantLoop, st').
Proof.
  intros st Hlen Hseen. revert st.
  induction n as [| n IH]; intro st; simpl.
  - exists st. reflexivity.
  - apply Nat.eqb_neq in Hlen. rewrite Hlen.
    destruct (generate_random_mutant_rate_0 node
                (mu self * 1 / inject_Z (Z.of_nat (String.length node)))
                (vocab self) st (rate_nonpos _ _ rate_0)) as [st1 Hrun].
    erewrite bind_run by exact Hrun.
    rewrite Hseen. simpl. apply IH.
Qed.

Hypothesis no_recombination : rho self = 0.
Hypothesis scorer : total_scorer self.

(** With parents from the seed population and room in the budget for a
    step of the first rollout, the budget loop does not return, whatever
    the fuel. *)
Lemma budget_loop_rate_0 n parent parents sequences st :
  String.length parent <> 0 ->
  set_mem parent measured = true ->
  eval_batch_size self <> 0 ->
  model_cost st + length (firstn (eval_batch_size self) (parent :: parents))
  - previous + eval_batch_size self < model_queries_per_batch self ->
  exists l st',
    budget_loop self fuel measured previous n (parent :: parents) sequences st
    = (Diverge l, st').
Proof.
  intros Hlen Hseen HE Hbudget.
  assert (Hguard : (model_cost st - previous <? model_queries_per_batch self)
                   = true)
    by (apply Nat.ltb_lt; lia).
  destruct n as [| n]; simpl; rewrite bind_get_state, Hguard.
  - exists BudgetLoop, st. reflexivity.
  - rewrite no_recombination. simpl repeat_m. unfold bind at 1, ret at 1.
    apply Nat.eqb_neq in HE. rewrite HE. apply Nat.eqb_neq in HE.
    unfold chunks. cbn [length chunks_aux for_each].
    set (roots := firstn (eval_batch_size self) (parent :: parents)) in *.
    assert (Hroots : exists roots', roots = parent :: roots').
    { unfold roots. destruct (eval_batch_size self); [congruence |].
      simpl. eauto. }
    destruct Hroots as [roots' Hroots].
    unfold rollout_chunk at 1.
    destruct (scorer roots) as (rf & Hrf & _);
      [rewrite Hroots; discriminate |].
    assert (Hrun : get_fitness self roots st
                   = (Ok (squeeze rf), add_cost (length roots) st)).
    { unfold get_fitness. rewrite Hrf. reflexivity. }
    unfold bind at 1. unfold bind at 1. erewrite bind_run by exact Hrun.
    assert (Hroll : exists l st',
               rollout self fuel measured previous fuel (squeeze rf)
                 (enumerate roots)
                 sequences (add_cost (length roots) st) = (Diverge l, st')).
    { assert (Hg : (0 <? length (enumerate roots))
                   && (model_cost (add_cost (length roots) st) - previous
                       + eval_batch_size self <? model_queries_per_batch self)
                   = true).
      { apply andb_true_iff. split.
        - rewrite Hroots. reflexivity.
        - apply Nat.ltb_lt. simpl. lia. }
      destruct fuel as [| f] eqn:Ef; simpl; rewrite bind_get_state, Hg.
      - eexists _, _. reflexivity.
      - unfold rollout_step. rewrite Hroots.
        unfold enumerate. cbn [length seq combine].
        destruct (gen_children_rate_0 (S f) sequences 0 parent
                    (combine (seq 1 (length roots')) roots')
                    (add_cost (length (parent :: roots')) st) Hlen Hseen)
          as [st' Hgen].
        exists MutantLoop, st'.
        unfold bind at 1, bind at 1. cbn [length] in Hgen. rewrite Hgen.
        reflexivity. }
    destruct Hroll as (l & st' & Hroll). rewrite Hroll.
    exists l, st'. reflexivity.
Qed.

End RateZero.

Lemma discover_run self fuel population st fitnesses st0 selected st1 parents :
  get_fitness self population st = (Ok fitnesses, st0) ->
  select_parents self population fitnesses st0 = (Ok selected, st1) ->
  np_resize selected (sequences_batch_size self) = inl parents ->
  discover self fuel population st
  = budget_loop self fuel population (model_cost st1) fuel parents [] st1.
Proof.
  intros H1 H2 H3. unfold discover.
  erewrite bind_run by exact H1. erewrite bind_run by exact H2.
  rewrite bind_get_state, H3. reflexivity.
Qed.

(** C6, the claim as stated fails: with [mu = 0] every mutant of a seed
    sequence is that sequence, the loop that waits for a new mutant never
    ends, and no amount of fuel makes the call return. *)
Lemma C6_counterexample :
  ~ exists fuel r st',
      propose_sequences (example_instance count_A_fitness 0 0 0) fuel
        ["AACC"; "ACCC"; "CCCC"; "GGGA"]%string (initial_state example_tape)
      = (r, st')
      /\ forall l, r <> Diverge l.
Proof.
  intros (fuel & r & st' & Hrun & Hret).
  set (self := example_instance count_A_fitness 0 0 0) in *.
  set (population := ["AACC"; "ACCC"; "CCCC"; "GGGA"]%string) in *.
  unfold propose_sequences, bind in Hrun.
  erewrite (discover_run self fuel population (initial_state example_tape)
              (Array1 [2; 1; 0; 1]%Q) _ ["AACC"%string] _
              ["AACC"; "AACC"; "AACC"; "AACC"]%string) in Hrun;
    [| vm_compute; reflexivity | vm_compute; reflexivity | reflexivity].
  match type of Hrun with
  | context [budget_loop _ _ _ ?prev _ (?p :: ?ps) ?seqs ?st] =>
      destruct (budget_loop_rate_0 self fuel population prev
                  ltac:(vm_compute; discriminate) eq_refl
                  ltac:(intros batch _; eexists; split;
                        [reflexivity | apply length_map])
                  fuel p ps seqs st)
        as (l & st1 & Hloop);
      [discriminate | reflexivity | discriminate | vm_compute; lia |]
  end.
  rewrite Hloop in Hrun. inversion Hrun; subst.
  apply (Hret l). reflexivity.
Qed.

(* ===================================================================== *)
(** ** The query counter over a round                                      *)
(* ===================================================================== *)

Lemma keeps_cost_index_all {A} (a : list A) inds : keeps_cost (index_all a inds).
Proof.
  induction inds as [| i inds IH]; simpl; auto with cost.
  destruct (nth_error a i); auto with cost.
  apply keeps_cost_bind; [exact IH | auto with cost].
Qed.

Lemma keeps_cost_select_parents self population fitnesses :
  keeps_cost (select_parents self population fitnesses).
Proof.
  unfold select_parents.
  apply keeps_cost_bind.
  { destruct fitnesses as [x | [| x a]]; simpl; auto with cost. }
  intro top. apply keeps_cost_bind; [intro st; reflexivity | intro u].
  apply keeps_cost_index_all.
Qed.

Lemma grows_cost_discover self fuel population :
  grows_cost (discover self fuel population).
Proof.
  unfold discover.
  apply grows_cost_bind; [apply grows_cost_get_fitness | intro fitnesses].
  apply grows_cost_bind;
    [apply keeps_grows, keeps_cost_select_parents | intro parents].
  intro st. rewrite bind_get_state.
  destruct (np_resize parents (sequences_batch_size self)) as [ps | [| n]].
  - apply grows_cost_budget_loop.
  - apply grows_cost_budget_loop.
  - unfold budget_loop_zeros. rewrite bind_get_state.
    destruct (_ <? _); [| simpl; lia].
    destruct (_ && _).
    + apply grows_cost_bind; [apply keeps_grows; auto with cost |].
      intro x. apply keeps_grows. auto with cost.
    + destruct (eval_batch_size self =? 0); simpl; lia.
Qed.

Lemma grows_cost_propose_sequences self fuel population :
  grows_cost (propose_sequences self fuel population).
Proof.
  unfold propose_sequences.
  apply grows_cost_bind; [apply grows_cost_discover | intro sequences].
  apply keeps_grows. unfold select_top.
  destruct (length sequences =? 0); auto with cost.
  apply keeps_cost_bind; [apply keeps_cost_index_all | intro seqs].
  apply keeps_cost_bind; [apply keeps_cost_index_all | intro scores].
  auto with cost.
Qed.

(** C5: every call of [get_fitness] adds [len(sequence_list)] to
    [model_cost], whatever the scorer does: the counter is already charged
    when the scorer raises.  Hence after any run of calls the counter is
    its initial value plus the sum of the batch sizes; it never
    decreases, also not over a call of [propose_sequences], whatever the
    outcome of that call. *)
Theorem C5_model_cost_accounting (self : AdaLead) :
  (forall sequence_list st,
      model_cost (snd (get_fitness self sequence_list st))
      = model_cost st + length sequence_list)
  /\ (forall sequence_list st,
         fitness_fn self sequence_list = None ->
         get_fitness self sequence_list st
         = (Raise ScorerError, add_cost (length sequence_list) st))
  /\ (forall batches st,
         model_cost (get_fitness_calls self batches st)
         = model_cost st + list_sum (map (@length string) batches))
  /\ (forall batches st,
         model_cost st <= model_cost (get_fitness_calls self batches st))
  /\ (forall fuel population st,
         model_cost st
         <= model_cost (snd (propose_sequences self fuel population st))).
Proof.
  split; [| split; [| split; [| split]]].
  - apply get_fitness_cost.
  - intros sequence_list st Hnone. unfold get_fitness. rewrite Hnone. reflexivity.
  - apply get_fitness_calls_cost.
  - intros batches st. rewrite get_fitness_calls_cost. lia.
  - intros fuel population st. apply grows_cost_propose_sequences.
Qed.

(* ===================================================================== *)
(** ** More fuel                                                           *)
(* ===================================================================== *)

Lemma extends_refl {A} (m : M A) : extends m m.
Proof. intros st r st' H _. exact H. Qed.

Lemma extends_bind {A B} (m m' : M A) (f f' : A -> M B) :
  extends m m' -> (forall a, extends (f a) (f' a)) ->
  extends (bind m f) (bind m' f').
Proof.
  intros Hm Hf st r st' H Hr. unfold bind in *.
  destruct (m st) as [[a | e | l] st1] eqn:E.
  - rewrite (Hm st (Ok a) st1 E I). apply Hf; assumption.
  - rewrite (Hm st (Raise e) st1 E I). exact H.
  - inversion H; subst. contradiction.
Qed.

Section Fuel.

Variable self : AdaLead.
Variable measured : list string.
Variable previous : nat.

Lemma gen_children_extends n sequences nodes :
  forall n' child_idxs children,
    n <= n' ->
    extends (gen_children self measured n sequences nodes child_idxs children)
            (gen_children self measured n' sequences nodes child_idxs children).
Proof.
  induction n as [| n IH]; intros n' child_idxs children Hle st r st' H Hr.
  - simpl in H. destruct (length children <? length nodes) eqn:E.
    + inversion H; subst. contradiction.
    + destruct n'; simpl; rewrite E; exact H.
  - destruct n' as [| n']; [lia |]. simpl in *.
    destruct (length children <? length nodes); [| exact H].
    destruct (nth_error nodes (length children)) as [[idx node] |]; [| exact H].
    destruct (String.length node =? 0); [exact H |].
    revert st r st' H Hr. apply extends_bind; [apply extends_refl |].
    intro child. destruct (_ && _); apply IH; lia.
Qed.

Lemma rollout_step_extends fuel fuel' root_fitnesses nodes sequences :
  fuel <= fuel' ->
  extends (rollout_step self fuel measured root_fitnesses nodes sequences)
          (rollout_step self fuel' measured root_fitnesses nodes sequences).
Proof.
  intro Hle. unfold rollout_step.
  apply extends_bind; [apply gen_children_extends; exact Hle |].
  intro a. apply extends_refl.
Qed.

Lemma rollout_extends fuel fuel' n root_fitnesses :
  fuel <= fuel' ->
  forall n' nodes sequences,
    n <= n' ->
    extends (rollout self fuel measured previous n root_fitnesses nodes sequences)
            (rollout self fuel' measured previous n' root_fitnesses nodes sequences).
Proof.
  intro Hfuel. induction n as [| n IH];
    intros n' nodes sequences Hle st r st' H Hr.
  - simpl in H. rewrite bind_get_state in H.
    destruct (_ && _) eqn:E.
    + inversion H; subst. contradiction.
    + destruct n'; simpl; rewrite bind_get_state, E; exact H.
  - destruct n' as [| n']; [lia |]. simpl in *.
    rewrite bind_get_state in *.
    destruct (_ && _); [| exact H].
    revert st r st' H Hr.
    apply extends_bind; [apply rollout_step_extends; exact Hfuel |].
    intros [nodes' sequences']. apply IH. lia.
Qed.

Lemma for_each_chunk_extends fuel fuel' chunk_list :
  fuel <= fuel' ->
  forall sequences,
    extends (for_each (rollout_chunk self fuel measured previous)
               chunk_list sequences)
            (for_each (rollout_chunk self fuel' measured previous)
               chunk_list sequences).
Proof.
  intro Hfuel. induction chunk_list as [| roots chunk_list IH];
    intro sequences; simpl.
  - apply extends_refl.
  - apply extends_bind; [| exact IH].
    unfold rollout_chunk. apply extends_bind; [apply extends_refl |].
    intro rf. apply rollout_extends; [exact Hfuel | exact Hfuel].
Qed.

Lemma budget_loop_extends fuel fuel' n :
  fuel <= fuel' ->
  forall n' parents sequences,
    n <= n' ->
    extends (budget_loop self fuel measured previous n parents sequences)
            (budget_loop self fuel' measured previous n' parents sequences).
Proof.
  intro Hfuel. induction n as [| n IH];
    intros n' parents sequences Hle st r st' H Hr.
  - simpl in H. rewrite bind_get_state in H.
    destruct (_ <? _) eqn:E.
    + inversion H; subst. contradiction.
    + destruct n'; simpl; rewrite bind_get_state, E; exact H.
  - destruct n' as [| n']; [lia |]. simpl in *.
    rewrite bind_get_state in *.
    destruct (_ <? _); [| exact H].
    revert st r st' H Hr.
    apply extends_bind; [apply extends_refl | intro parents'].
    apply extends_bind; [| intro sequences'; apply IH; lia].
    destruct (eval_batch_size self =? 0); [apply extends_refl |].
    apply for_each_chunk_extends. exact Hfuel.
Qed.

End Fuel.

(** An outcome of [propose_sequences] other than running out of fuel
    stays the same with any larger amount of fuel. *)
Lemma propose_sequences_extends self fuel fuel' population :
  fuel <= fuel' ->
  extends (propose_sequences self fuel population)
          (propose_sequences self fuel' population).
Proof.
  intro Hfuel. unfold propose_sequences.
  apply extends_bind; [| intro sequences; apply extends_refl].
  unfold discover.
  apply extends_bind; [apply extends_refl | intro fitnesses].
  apply extends_bind; [apply extends_refl | intro parents].
  intros st r st'. rewrite !bind_get_state.
  destruct (np_resize parents (sequences_batch_size self)) as [ps | [| n]].
  - apply budget_loop_extends; exact Hfuel.
  - apply budget_loop_extends; exact Hfuel.
  - apply extends_refl.
Qed.

(* ===================================================================== *)
(** ** The statements at concrete inputs                                   *)
(* ===================================================================== *)

Lemma run_eq {A} (m : M A) (st : state) (r : outcome A) :
  fst (m st) = r -> m st = (r, snd (m st)).
Proof. intros <-. apply surjective_pairing. Qed.

Lemma total_scorer_count_A self :
  fitness_fn self = count_A_fitness -> total_scorer self.
Proof.
  intros E batch _. rewrite E. eexists. split; [reflexivity | apply length_map].
Qed.

Lemma C1_one_sequence_population_witness :
  (exists st1,
      (measured_fitnesses <-
         get_fitness (example_instance count_A_fitness (1 # 2) 1 1)
           ["AACC"%string] ;;
       select_parents (example_instance count_A_fitness (1 # 2) 1 1)
         ["AACC"%string] measured_fitnesses) (initial_state example_tape)
      = (Ok [], st1)
      /\ model_cost st1 = 0 + 1
      /\ initial_top_fitness st1 = Some 2%Q)
  /\ (cutoff (example_instance count_A_fitness (1 # 2) 1 1) 2 <= 2)%Q
  /\ exists e st',
      propose_sequences (example_instance count_A_fitness (1 # 2) 1 1) 2000
        ["AACC"%string] (initial_state example_tape)
      = (Raise e, st')
      /\ (e = TypeError \/ e = RangeStepZero \/ e = ScorerError).
Proof.
  destruct (C1_one_sequence_population
              (example_instance count_A_fitness (1 # 2) 1 1)
              "AACC"%string 2%Q (initial_state example_tape) eq_refl)
    as (Hsel & Hcut & _ & Hraise).
  split; [exact Hsel | split].
  - apply Hcut. vm_compute. discriminate.
  - apply Hraise; vm_compute; lia.
Defined.

(** Two rounds that end in an exception, run to their end: a population
    of one sequence, and chunks of a single root. *)
Lemma one_sequence_round :
  fst (propose_sequences (example_instance count_A_fitness (1 # 2) 1 1) 2000
         ["AACC"%string] (initial_state example_tape))
  = Raise TypeError.
Proof. vm_compute. reflexivity. Qed.

Lemma one_root_round :
  fst (propose_sequences one_root_instance 2000 example_population
         (initial_state example_tape))
  = Raise IndexError.
Proof. vm_compute. reflexivity. Qed.

Lemma C2_rollout_pruning_witness :
  (exists children fitnesses,
      length children = 2
      /\ fitness_fn (example_instance count_A_fitness (1 # 2) 1 1) children
         = Some fitnesses
      /\ [(0, "AATC"%string)]
         = map fst (filter (beats_root (Array1 [1; 1]%Q))
                      (combine (combine [0; 1] children) fitnesses)))
  /\ rollout_step one_root_instance 2000 example_population (Array0 2)
       [(0, "AACC"%string)] [] (initial_state example_tape)
     = (Raise IndexError,
        add_cost 1
          (snd (gen_children one_root_instance example_population 2000 []
                  [(0, "AACC"%string)] [] [] (initial_state example_tape)))).
Proof.
  split.
  - destruct (C2_rollout_pruning
                (example_instance count_A_fitness (1 # 2) 1 1) 2000
                example_population
                [(0, "AACC"%string); (1, "AACC"%string)] []
                (initial_state example_tape)) as [Hkept _].
    destruct (Hkept [1; 1]%Q
                [(0, "AATC"%string)]
                [("AATC"%string, 2%Q); ("TATC"%string, 1%Q)]
                (snd (rollout_step
                        (example_instance count_A_fitness (1 # 2) 1 1) 2000
                        example_population (Array1 [1; 1]%Q)
                        [(0, "AACC"%string); (1, "AACC"%string)] []
                        (initial_state example_tape))))
      as (children & fitnesses & Hlen & Hfit & [Hnodes _] & _).
    + apply run_eq. vm_compute. reflexivity.
    + exists children, fitnesses.
      split; [exact Hlen | split; [exact Hfit | exact Hnodes]].
  - destruct (C2_rollout_pruning one_root_instance 2000 example_population
                [(0, "AACC"%string)] [] (initial_state example_tape))
      as [_ Hraise].
    apply (Hraise 2%Q [0] ["AATC"%string] _ [2%Q]).
    + discriminate.
    + apply run_eq. vm_compute. reflexivity.
    + reflexivity.
    + reflexivity.
Defined.

Lemma example_round :
  propose_sequences (example_instance count_A_fitness (1 # 2) 1 1) 2000
    example_population (initial_state example_tape)
  = (Ok (["AACA"; "AAAC"; "AACG"]%string, [3; 3; 2]%Q),
     snd (propose_sequences (example_instance count_A_fitness (1 # 2) 1 1) 2000
            example_population (initial_state example_tape))).
Proof. apply run_eq. vm_compute. reflexivity. Defined.

(** A round without ties: every sequence has a score of its own. *)
Lemma tie_free_round :
  propose_sequences (example_instance base4_fitness (1 # 2) 1 1) 2000
    example_population (initial_state example_tape)
  = (Ok (["TGTA"; "TGGA"; "GTGT"]%string, [236; 232; 187]%Q),
     snd (propose_sequences (example_instance base4_fitness (1 # 2) 1 1) 2000
            example_population (initial_state example_tape))).
Proof. apply run_eq. vm_compute. reflexivity. Defined.

Lemma C3_top_of_discovered_witness :
  exists sequences : dict,
    NoDup (map fst sequences)
    /\ NoDup ["TGTA"; "TGGA"; "GTGT"]%string
    /\ length ["TGTA"; "TGGA"; "GTGT"]%string = Nat.min (length sequences) (4 - 1)
    /\ forall s v,
        In (s, v) sequences -> ~ In s ["TGTA"; "TGGA"; "GTGT"]%string ->
        forall v', In v' [236; 232; 187]%Q -> (v <= v')%Q.
Proof.
  destruct (C3_top_of_discovered _ _ _ _ _ _ _ tie_free_round)
    as (sequences & _ & Hkeys & Hnd & Hlen & _ & _ & Htop).
  exists sequences. repeat split; assumption.
Defined.


Lemma C5_model_cost_accounting_witness :
  get_fitness (example_instance failing_fitness (1 # 2) 1 1)
    ["AC"; "GT"]%string (initial_state example_tape)
  = (Raise ScorerError, add_cost 2 (initial_state example_tape)).
Proof.
  destruct (C5_model_cost_accounting
              (example_instance failing_fitness (1 # 2) 1 1))
    as (_ & Hraise & _).
  apply (Hraise ["AC"; "GT"]%string (initial_state example_tape)).
  reflexivity.
Defined.

Lemma C6_only_the_mutant_loop_is_unbounded_witness :
  fst (propose_sequences (example_instance count_A_fitness 0 0 0) 41
         example_population (initial_state example_tape))
  = Diverge MutantLoop.
Proof.
  assert (H : exists l,
             fst (propose_sequences (example_instance count_A_fitness 0 0 0) 41
                    example_population (initial_state example_tape))
             = Diverge l)
    by (eexists; vm_compute; reflexivity).
  destruct H as [l Hl]. rewrite Hl. f_equal.
  apply (C6_only_the_mutant_loop_is_unbounded
           (example_instance count_A_fitness 0 0 0) 41 example_population
           (initial_state example_tape) l
           (snd (propose_sequences (example_instance count_A_fitness 0 0 0) 41
                   example_population (initial_state example_tape)))).
  - vm_compute. lia.
  - vm_compute. lia.
  - apply run_eq. exact Hl.
Defined.

Lemma C9_distinct_and_fixed_length_witness :
  NoDup ["AACA"; "AAAC"; "AACG"]%string
  /\ Forall (fun s => String.length s = 4) ["AACA"; "AAAC"; "AACG"]%string.
Proof.
  eapply (C9_distinct_and_fixed_length
            (example_instance count_A_fitness (1 # 2) 1 1) 2000
            example_population (initial_state example_tape)
            ["AACA"; "AAAC"; "AACG"]%string [3; 3; 2]%Q).
  - repeat constructor.
  - exact example_round.
Defined.

Lemma C10_aligned_and_descending_witness :
  exists sequences : dict,
    (forall i s,
        nth_error ["AACA"; "AAAC"; "AACG"]%string i = Some s ->
        exists v, nth_error [3; 3; 2]%Q i = Some v
                  /\ dict_get s sequences = Some v)
    /\ descending [3; 3; 2]%Q.
Proof.
  destruct (C10_aligned_and_descending _ _ _ _ _ _ _ example_round)
    as (sequences & _ & _ & Halign & Hdesc).
  exists sequences. split; [exact Halign | exact Hdesc].
Defined.

(* ===================================================================== *)
(** ** Random sequences                                                    *)
(* ===================================================================== *)

Lemma advance_by_0 st : advance_by 0 st = st.
Proof.
  destruct st as [c t f p]. unfold advance_by. simpl. rewrite Nat.add_0_r.
  reflexivity.
Qed.

Lemma advance_by_advance n st : advance_by n (advance st) = advance_by (S n) st.
Proof. unfold advance_by, advance. simpl. f_equal. lia. Qed.

Lemma advance_by_add n m st : advance_by m (advance_by n st) = advance_by (n + m) st.
Proof. unfold advance_by. simpl. f_equal. lia. Qed.

Lemma advance_is_advance_by st : advance st = advance_by 1 st.
Proof. unfold advance_by, advance. f_equal. lia. Qed.

Lemma string_get_in j s c :
  String.get j s = Some c -> In c (list_ascii_of_string s).
Proof.
  revert j. induction s as [| a s IH]; intros j H; simpl in *; [discriminate |].
  destruct j as [| j]; [inversion H; auto | right; eapply IH; exact H].
Qed.

Lemma string_get_some j s :
  j < String.length s -> exists c, String.get j s = Some c.
Proof.
  revert j. induction s as [| a s IH]; intros j H; simpl in *; [lia |].
  destruct j as [| j]; [eauto | apply IH; lia].
Qed.

Lemma randbelow_bound n st :
  n <> 0 ->
  exists j, randbelow n st = (Ok j, advance st) /\ j < n.
Proof.
  intro Hn. unfold randbelow. eexists. split; [reflexivity |].
  assert (H : (rng_tape st (rng_pos st) mod N.of_nat n < N.of_nat n)%N)
    by (apply N.mod_upper_bound; lia).
  revert H. generalize (rng_tape st (rng_pos st) mod N.of_nat n)%N.
  intros r H. lia.
Qed.

Lemma random_choice_ok alphabet st :
  alphabet <> EmptyString ->
  exists c,
    random_choice alphabet st = (Ok c, advance st)
    /\ In c (list_ascii_of_string alphabet).
Proof.
  intro Hne. destruct alphabet as [| a s]; [congruence |].
  unfold random_choice.
  destruct (randbelow_bound (String.length (String a s)) st) as (j & Hj & Hlt);
    [simpl; lia |].
  erewrite bind_run by exact Hj.
  destruct (string_get_some j (String a s) Hlt) as [c Hc].
  rewrite Hc. exists c. split; [reflexivity |].
  eapply string_get_in. exact Hc.
Qed.

Lemma random_chars_ok alphabet n :
  alphabet <> EmptyString ->
  forall st,
    exists chars,
      random_chars alphabet n st = (Ok chars, advance_by n st)
      /\ length chars = n
      /\ Forall (fun c => In c (list_ascii_of_string alphabet)) chars.
Proof.
  intro Hne. induction n as [| n IH]; intro st; simpl.
  - exists []. rewrite advance_by_0. auto.
  - destruct (random_choice_ok alphabet st Hne) as (c & Hc & Hin).
    erewrite bind_run by exact Hc.
    destruct (IH (advance st)) as (chars & Hrun & Hlen & Hall).
    erewrite bind_run by exact Hrun.
    exists (c :: chars). rewrite advance_by_advance.
    split; [reflexivity | split; [simpl; lia | constructor; assumption]].
Qed.

Lemma start_from_random_sequences_from self num :
  vocab self <> EmptyString ->
  forall acc st,
    exists new,
      repeat_m num
        (fun sequence_list =>
           chars <- random_chars (vocab self) (seq_len self) ;;
           ret (sequence_list ++ [string_of_list_ascii chars]))
        acc st
      = (Ok (acc ++ new), advance_by (num * seq_len self) st)
      /\ length new = num
      /\ Forall (fun s => String.length s = seq_len self
                          /\ over_alphabet (vocab self) s) new.
Proof.
  intro Hne. induction num as [| num IH]; intros acc st; simpl.
  - exists []. rewrite app_nil_r, advance_by_0. auto.
  - destruct (random_chars_ok (vocab self) (seq_len self) Hne st)
      as (chars & Hrun & Hlen & Hall).
    unfold bind at 1. erewrite bind_run by exact Hrun. unfold ret at 1.
    destruct (IH (acc ++ [string_of_list_ascii chars])
                (advance_by (seq_len self) st)) as (new & Hrec & Hn & Hnew).
    exists (string_of_list_ascii chars :: new).
    rewrite Hrec, <- app_assoc, advance_by_add. simpl.
    split; [reflexivity | split; [lia |]].
    constructor; [| exact Hnew].
    split; [rewrite length_string_of_list_ascii; exact Hlen |].
    unfold over_alphabet. rewrite list_ascii_of_string_of_list_ascii. exact Hall.
Qed.

(** X1: with a vocabulary that is not empty,
    [start_from_random_sequences] returns [num_sequences] sequences of
    [seq_len] characters, all from the vocabulary; it takes
    [num_sequences * seq_len] draws from the random generator and leaves
    the query counter alone. *)
Theorem X1_random_sequences self num_sequences st :
  vocab self <> EmptyString ->
  exists sequence_list,
    start_from_random_sequences self num_sequences st
    = (Ok sequence_list, advance_by (num_sequences * seq_len self) st)
    /\ length sequence_list = num_sequences
    /\ Forall (fun s => String.length s = seq_len self
                        /\ over_alphabet (vocab self) s) sequence_list.
Proof.
  intro Hne.
  destruct (start_from_random_sequences_from self num_sequences Hne [] st)
    as (new & Hrun & Hlen & Hall).
  exists new. auto.
Qed.

Lemma X1_random_sequences_witness :
  exists sequence_list,
    start_from_random_sequences (example_instance count_A_fitness (1 # 2) 1 1)
      3 (initial_state example_tape)
    = (Ok sequence_list, advance_by (3 * 4) (initial_state example_tape))
    /\ length sequence_list = 3.
Proof.
  destruct (X1_random_sequences (example_instance count_A_fitness (1 # 2) 1 1)
              3 (initial_state example_tape))
    as (l & Hrun & Hlen & _).
  - discriminate.
  - exists l. split; [exact Hrun | exact Hlen].
Defined.

(** X2: with an empty vocabulary [start_from_random_sequences] raises
    IndexError at the first character it has to draw, before any draw;
    it returns normally only when there is nothing to draw, with
    [num_sequences] empty sequences. *)
Theorem X2_random_sequences_empty_vocab self num_sequences st :
  vocab self = EmptyString ->
  (0 < num_sequences -> 0 < seq_len self ->
   start_from_random_sequences self num_sequences st = (Raise IndexError, st))
  /\ (seq_len self = 0 ->
      start_from_random_sequences self num_sequences st
      = (Ok (repeat EmptyString num_sequences), st))
  /\ (num_sequences = 0 ->
      start_from_random_sequences self num_sequences st = (Ok [], st)).
Proof.
  intro Hv. unfold start_from_random_sequences. rewrite Hv.
  split; [| split].
  - intros Hn HL. destruct num_sequences as [| n]; [lia |].
    destruct (seq_len self) as [| L]; [lia |]. reflexivity.
  - intros ->. simpl random_chars.
    assert (H : forall n acc,
               repeat_m n
                 (fun sequence_list : list string =>
                    chars <- ret [] ;;
                    ret (sequence_list ++ [string_of_list_ascii chars])) acc st
               = (Ok (acc ++ repeat EmptyString n), st)).
    { induction n as [| n IH]; intro acc; simpl.
      - rewrite app_nil_r. reflexivity.
      - unfold bind at 1, bind at 1, ret at 1, ret at 1.
        rewrite IH, <- app_assoc. reflexivity. }
    apply (H num_sequences []).
  - intros ->. reflexivity.
Qed.

Lemma X2_random_sequences_empty_vocab_witness :
  start_from_random_sequences
    (mkAdaLead count_A_fitness 4 40 4 0 EmptyString 1 0 (1 # 10) 0 2
       (fun _ i => i)) 4
    (initial_state example_tape)
  = (Raise IndexError, initial_state example_tape).
Proof.
  destruct (X2_random_sequences_empty_vocab
              (mkAdaLead count_A_fitness 4 40 4 0 EmptyString 1 0 (1 # 10) 0 2
       (fun _ i => i)) 4
              (initial_state example_tape) eq_refl) as (Hraise & _).
  apply Hraise; vm_compute; lia.
Defined.

(* ===================================================================== *)
(** ** More on mutation                                                    *)
(* ===================================================================== *)

Lemma mutate_chars_rate_0_run sequence mu alphabet :
  (mu <= 0)%Q ->
  forall st,
    mutate_chars sequence mu alphabet st
    = (Ok sequence, advance_by (length sequence) st).
Proof.
  intro Hmu. induction sequence as [| s rest IH]; intro st; simpl.
  - rewrite advance_by_0. reflexivity.
  - unfold bind at 1. rewrite random_random_run.
    assert (E : Qltb (unit_value (rng_tape st (rng_pos st))) mu = false).
    { apply Qltb_false. eapply Qle_trans; [exact Hmu | apply unit_value_nonneg]. }
    rewrite E. unfold bind at 1, ret at 1. unfold bind. rewrite IH.
    rewrite advance_by_advance. reflexivity.
Qed.

(** X3: with a mutation rate that is not positive
    [generate_random_mutant] returns the sequence unchanged, whatever the
    random generator gives and whatever the alphabet, after one draw per
    character. *)
Theorem X3_mutant_rate_0 sequence mu alphabet st :
  (mu <= 0)%Q ->
  generate_random_mutant sequence mu alphabet st
  = (Ok sequence, advance_by (String.length sequence) st).
Proof.
  intro Hmu. unfold generate_random_mutant, bind.
  rewrite mutate_chars_rate_0_run by exact Hmu.
  unfold ret. rewrite string_of_list_ascii_of_string.
  rewrite length_list_ascii_of_string. reflexivity.
Qed.

Lemma X3_mutant_rate_0_witness :
  generate_random_mutant "ACGT"%string 0 EmptyString (initial_state example_tape)
  = (Ok "ACGT"%string, advance_by 4 (initial_state example_tape)).
Proof.
  apply (X3_mutant_rate_0 "ACGT"%string 0 EmptyString (initial_state example_tape)).
  apply Qle_refl.
Defined.

Lemma mutate_chars_shape sequence mu alphabet :
  forall st mutant st',
    mutate_chars sequence mu alphabet st = (Ok mutant, st') ->
    Forall2 (fun s c => c = s \/ In c (list_ascii_of_string alphabet))
      sequence mutant
    /\ exists draws,
        st' = advance_by draws st
        /\ length sequence <= draws <= 2 * length sequence.
Proof.
  induction sequence as [| s rest IH]; intros st mutant st' H; simpl in H.
  - ok_inv H. split; [constructor |]. exists 0. rewrite advance_by_0.
    split; [reflexivity | simpl; lia].
  - ok_inv H. unfold random_random in Hrun. inversion Hrun; subst. clear Hrun.
    ok_inv H. ok_inv H. ok_inv H.
    apply IH in Hrun0. destruct Hrun0 as (Hall & draws & -> & Hd).
    destruct (Qltb _ mu).
    + destruct alphabet as [| a1 s1]; [discriminate |].
      destruct (random_choice_ok (String a1 s1) (advance st)) as (c & Hc & Hin);
        [discriminate |].
      rewrite Hc in Hrun. inversion Hrun; subst.
      split; [constructor; [right; exact Hin | exact Hall] |].
      exists (S (S draws)). rewrite !advance_by_advance.
      split; [reflexivity | simpl; lia].
    + ok_inv Hrun.
      split; [constructor; [left; reflexivity | exact Hall] |].
      exists (S draws). rewrite advance_by_advance.
      split; [reflexivity | simpl; lia].
Qed.

(** X4: a mutant returned by [generate_random_mutant] has the length of
    the sequence, and each of its characters is the character of the
    sequence at that position or a character of the alphabet; the call
    takes at least one and at most two draws per character and changes
    nothing else. *)
Theorem X4_mutant_shape sequence mu alphabet st child st' :
  generate_random_mutant sequence mu alphabet st = (Ok child, st') ->
  String.length child = String.length sequence
  /\ Forall2 (fun s c => c = s \/ In c (list_ascii_of_string alphabet))
       (list_ascii_of_string sequence) (list_ascii_of_string child)
  /\ exists draws,
      st' = advance_by draws st
      /\ String.length sequence <= draws <= 2 * String.length sequence.
Proof.
  intro H. split; [eapply generate_random_mutant_length; exact H |].
  unfold generate_random_mutant in H. ok_inv H. ok_inv H.
  apply mutate_chars_shape in Hrun. destruct Hrun as (Hall & draws & -> & Hd).
  rewrite list_ascii_of_string_of_list_ascii.
  split; [exact Hall |].
  exists draws. rewrite <- length_list_ascii_of_string.
  split; [reflexivity | exact Hd].
Qed.

Lemma X4_mutant_shape_witness :
  String.length "TATC"%string = String.length "AACC"%string.
Proof.
  eapply (X4_mutant_shape "AACC"%string (1 # 4) "ACGT"%string
            (advance_by 5 (initial_state example_tape)) "TATC"%string).
  apply run_eq. vm_compute. reflexivity.
Defined.

Lemma mutate_chars_rate_1 sequence mu alphabet :
  (1 <= mu)%Q -> alphabet <> EmptyString ->
  forall st,
    exists mutant,
      mutate_chars sequence mu alphabet st
      = (Ok mutant, advance_by (2 * length sequence) st)
      /\ length mutant = length sequence
      /\ Forall (fun c => In c (list_ascii_of_string alphabet)) mutant.
Proof.
  intros Hmu Hne. induction sequence as [| s rest IH]; intro st; simpl.
  - exists []. rewrite advance_by_0. auto.
  - unfold bind at 1. rewrite random_random_run.
    assert (E : Qltb (unit_value (rng_tape st (rng_pos st))) mu = true).
    { apply Qltb_true. eapply Qlt_le_trans; [apply unit_value_lt_1 | exact Hmu]. }
    rewrite E.
    destruct (random_choice_ok alphabet (advance st) Hne) as (c & Hc & Hin).
    erewrite bind_run by exact Hc.
    destruct (IH (advance (advance st))) as (mutant & Hrun & Hlen & Hall).
    erewrite bind_run by exact Hrun.
    exists (c :: mutant). rewrite !advance_by_advance.
    replace (S (length rest + S (length rest + 0)))
      with (S (S (2 * length rest))) by lia.
    split; [reflexivity | split; [simpl; lia | constructor; assumption]].
Qed.

(** X5: with a mutation rate of one or more every character is drawn
    anew: the mutant has the length of the sequence and consists of
    characters of the alphabet, after two draws per character.  With an
    empty alphabet the first character raises IndexError. *)
Theorem X5_mutant_rate_1 sequence mu alphabet st :
  (1 <= mu)%Q ->
  (alphabet <> EmptyString ->
   exists child,
     generate_random_mutant sequence mu alphabet st
     = (Ok child, advance_by (2 * String.length sequence) st)
     /\ String.length child = String.length sequence
     /\ over_alphabet alphabet child)
  /\ (alphabet = EmptyString -> sequence <> EmptyString ->
      generate_random_mutant sequence mu alphabet st
      = (Raise IndexError, advance st)).
Proof.
  intro Hmu. split.
  - intro Hne. unfold generate_random_mutant.
    destruct (mutate_chars_rate_1 (list_ascii_of_string sequence) mu alphabet
                Hmu Hne st) as (mutant & Hrun & Hlen & Hall).
    erewrite bind_run by exact Hrun.
    exists (string_of_list_ascii mutant).
    rewrite length_list_ascii_of_string in *.
    split; [reflexivity | split].
    + rewrite length_string_of_list_ascii. exact Hlen.
    + unfold over_alphabet. rewrite list_ascii_of_string_of_list_ascii.
      exact Hall.
  - intros -> Hseq. destruct sequence as [| s rest]; [congruence |].
    unfold generate_random_mutant. simpl.
    unfold bind at 1, bind at 1. rewrite random_random_run.
    assert (E : Qltb (unit_value (rng_tape st (rng_pos st))) mu = true).
    { apply Qltb_true. eapply Qlt_le_trans; [apply unit_value_lt_1 | exact Hmu]. }
    rewrite E. reflexivity.
Qed.

Lemma X5_mutant_rate_1_witness :
  generate_random_mutant "AC"%string 1 EmptyString (initial_state example_tape)
  = (Raise IndexError, advance (initial_state example_tape)).
Proof.
  destruct (X5_mutant_rate_1 "AC"%string 1 EmptyString
              (initial_state example_tape)) as [_ Hraise].
  - apply Qle_refl.
  - apply Hraise; [reflexivity | discriminate].
Defined.

(* ===================================================================== *)
(** ** More on the shuffle and on recombination                            *)
(* ===================================================================== *)

Lemma list_set_perm {A} (l : list A) :
  forall i a b,
    nth_error l i = Some b ->
    Permutation (a :: l) (b :: list_set i a l).
Proof.
  induction l as [| x l IH]; intros i a b H.
  - destruct i; discriminate.
  - destruct i as [| i]; simpl in *.
    + inversion H; subst. apply perm_swap.
    + rewrite perm_swap. rewrite (IH i a b H).
      rewrite perm_swap. reflexivity.
Qed.

Lemma nth_error_list_set {A} (l : list A) :
  forall i a j,
    i < length l ->
    nth_error (list_set i a l) j = if i =? j then Some a else nth_error l j.
Proof.
  induction l as [| x l IH]; intros i a j H; simpl in H; [lia |].
  destruct i as [| i], j as [| j]; simpl; try reflexivity.
  apply IH. lia.
Qed.

Lemma swap_perm {A} (x : list A) i j : Permutation x (swap x i j).
Proof.
  unfold swap.
  destruct (nth_error x i) as [xi |] eqn:Ei; [| reflexivity].
  destruct (nth_error x j) as [xj |] eqn:Ej; [| reflexivity].
  assert (Hi : i < length x) by (apply nth_error_Some; congruence).
  assert (Hj : nth_error (list_set i xj x) j = Some xj).
  { rewrite nth_error_list_set by exact Hi.
    destruct (i =? j); [reflexivity | exact Ej]. }
  apply (Permutation_cons_inv (a := xj)).
  rewrite (list_set_perm x i xj xi Ei).
  apply (list_set_perm (list_set i xj x) j xi xj Hj).
Qed.

Lemma shuffle_down_perm {A} k :
  forall (x : list A) st,
    exists x',
      shuffle_down k x st = (Ok x', advance_by k st) /\ Permutation x x'.
Proof.
  induction k as [| k IH]; intros x st; simpl.
  - exists x. rewrite advance_by_0. split; reflexivity.
  - unfold bind at 1, randbelow at 1.
    set (j := N.to_nat _).
    destruct (IH (swap x (S k) j) (advance st)) as (x' & Hrun & Hperm).
    exists x'. rewrite Hrun, advance_by_advance.
    split; [reflexivity |].
    rewrite <- Hperm. apply swap_perm.
Qed.

Lemma random_shuffle_perm {A} (x : list A) st :
  exists x',
    random_shuffle x st = (Ok x', advance_by (length x - 1) st)
    /\ Permutation x x'.
Proof. apply shuffle_down_perm. Qed.

Section MoreRecombination.

Variable self : AdaLead.

Lemma crossover_mixed a :
  forall b switch st strA strB st',
    crossover self a b switch st = (Ok (strA, strB), st') ->
    mixed a b strA strB /\ st' = advance_by (length a) st.
Proof.
  induction a as [| ca a IH]; intros b switch st strA strB st' H; simpl in H.
  - ok_inv H. split; [constructor | rewrite advance_by_0; reflexivity].
  - ok_inv H. unfold random_random in Hrun. inversion Hrun; subst. clear Hrun.
    destruct b as [| cb b]; [discriminate |].
    ok_inv H. destruct a0 as [sa sb].
    apply IH in Hrun. destruct Hrun as [Hmix ->].
    destruct (if Qltb _ _ then negb switch else switch);
      ok_inv H; (split; [constructor; exact Hmix |]);
      rewrite advance_by_advance; reflexivity.
Qed.

Lemma crossover_short a :
  forall b switch st,
    length b < length a ->
    crossover self a b switch st
    = (Raise IndexError, advance_by (S (length b)) st).
Proof.
  induction a as [| ca a IH]; intros b switch st Hlen; simpl in *; [lia |].
  unfold bind at 1. rewrite random_random_run.
  destruct b as [| cb b].
  - rewrite advance_is_advance_by. reflexivity.
  - unfold bind. rewrite IH by (simpl in Hlen; lia).
    rewrite advance_by_advance. reflexivity.
Qed.

Lemma recombine_pairs_children gen :
  forall st r st',
    recombine_pairs self gen st = (Ok r, st') ->
    children_of gen r.
Proof.
  induction gen as [| x | x y gen IH] using pair_induction; intros st r st' H.
  - simpl in H. ok_inv H. constructor.
  - simpl in H. ok_inv H. constructor.
  - rewrite recombine_pairs_cons2 in H. ok_inv H. destruct a as [sa sb].
    ok_inv H. ok_inv H.
    apply crossover_mixed in Hrun. destruct Hrun as [Hmix _].
    constructor; [| eapply IH; eassumption].
    rewrite !list_ascii_of_string_of_list_ascii. exact Hmix.
Qed.

(** Without a switch the first child is the second parent, cut to the
    length of the first, and the second child is the first parent. *)
Lemma crossover_rate_0 a :
  (recomb_rate self <= 0)%Q ->
  forall b st,
    length a <= length b ->
    crossover self a b false st
    = (Ok (firstn (length a) b, a), advance_by (length a) st).
Proof.
  intro Hrate. induction a as [| ca a IH]; intros b st Hlen; simpl.
  - rewrite advance_by_0. reflexivity.
  - destruct b as [| cb b]; [simpl in Hlen; lia |].
    unfold bind at 1. rewrite random_random_run.
    assert (E : Qltb (unit_value (rng_tape st (rng_pos st))) (recomb_rate self)
                = false).
    { apply Qltb_false. eapply Qle_trans; [exact Hrate | apply unit_value_nonneg]. }
    rewrite E. unfold bind. rewrite IH by (simpl in Hlen; lia).
    rewrite advance_by_advance. reflexivity.
Qed.

Lemma recombine_pairs_rate_0 (L : nat) gen :
  (recomb_rate self <= 0)%Q ->
  Forall (fun s => String.length s = L) gen ->
  forall st,
    exists st',
      recombine_pairs self gen st = (Ok (swap_pairs gen), st').
Proof.
  intros Hrate.
  induction gen as [| x | x y gen IH] using pair_induction; intros HL st.
  - exists st. reflexivity.
  - exists st. reflexivity.
  - inversion HL as [| ? ? Hx HL']; subst. inversion HL' as [| ? ? Hy HL'']; subst.
    rewrite recombine_pairs_cons2.
    unfold bind at 1.
    rewrite crossover_rate_0;
      [| exact Hrate | rewrite !length_list_ascii_of_string; lia].
    destruct (IH HL'' (advance_by (length (list_ascii_of_string x)) st))
      as [st' Hrec].
    unfold bind at 1. rewrite Hrec. exists st'. unfold ret. simpl swap_pairs.
    rewrite firstn_all2 by (rewrite !length_list_ascii_of_string; lia).
    rewrite !string_of_list_ascii_of_string. reflexivity.
Qed.

End MoreRecombination.

Lemma swap_pairs_perm gen :
  Nat.even (length gen) = true -> Permutation gen (swap_pairs gen).
Proof.
  induction gen as [| x | x y gen IH] using pair_induction; intro H.
  - reflexivity.
  - discriminate.
  - simpl swap_pairs. rewrite perm_swap. do 2 constructor. apply IH. exact H.
Qed.

(** X6: with a recombination rate that is not positive nothing is
    mixed: [recombine_population] returns the sequences of the shuffled
    list with each consecutive pair in swapped order.  For a population
    of even size the result is a rearrangement of the population. *)
Theorem X6_recombination_rate_0 (self : AdaLead) (gen : list string)
    (L : nat) (st : state) :
  (recomb_rate self <= 0)%Q ->
  Forall (fun s => String.length s = L) gen ->
  length gen <> 1 ->
  exists shuffled st',
    random_shuffle gen st = (Ok shuffled, advance_by (length gen - 1) st)
    /\ Permutation gen shuffled
    /\ recombine_population self gen st = (Ok (swap_pairs shuffled), st')
    /\ (Nat.even (length gen) = true ->
        Permutation gen (swap_pairs shuffled)).
Proof.
  intros Hrate HL Hne.
  destruct (random_shuffle_perm gen st) as (shuffled & Hsh & Hperm).
  assert (HL' : Forall (fun s => String.length s = L) shuffled).
  { eapply Permutation_Forall; eassumption. }
  destruct (recombine_pairs_rate_0 self L shuffled Hrate HL'
              (advance_by (length gen - 1) st)) as [st' Hrec].
  exists shuffled, st'. split; [exact Hsh | split; [exact Hperm | split]].
  - unfold recombine_population.
    apply Nat.eqb_neq in Hne. rewrite Hne.
    erewrite bind_run by exact Hsh. exact Hrec.
  - intro Heven. rewrite Hperm at 1. apply swap_pairs_perm.
    rewrite <- (Permutation_length Hperm). exact Heven.
Qed.

Lemma X6_recombination_rate_0_witness :
  exists st',
    recombine_population (example_instance count_A_fitness 0 1 1)
      example_population (initial_state example_tape)
    = (Ok ["CCCC"; "GGGA"; "AACC"; "ACCC"]%string, st').
Proof.
  destruct (X6_recombination_rate_0 (example_instance count_A_fitness 0 1 1)
              example_population 4 (initial_state example_tape))
    as (shuffled & st' & Hsh & _ & Hrun & _).
  - vm_compute. discriminate.
  - repeat constructor.
  - discriminate.
  - exists st'. rewrite Hrun. f_equal. f_equal.
    apply (f_equal fst) in Hsh. vm_compute in Hsh.
    inversion Hsh. reflexivity.
Defined.

Lemma mixed_spec a b strA strB :
  mixed a b strA strB ->
  length strA = length a /\ length strB = length a /\ length a <= length b
  /\ forall i ca cb,
      nth_error a i = Some ca -> nth_error b i = Some cb ->
      (nth_error strA i = Some ca /\ nth_error strB i = Some cb)
      \/ (nth_error strA i = Some cb /\ nth_error strB i = Some ca).
Proof.
  induction 1 as [b | ca a cb b strA strB _ (HA & HB & Hle & Hnth)
                    | ca a cb b strA strB _ (HA & HB & Hle & Hnth)]; simpl.
  - repeat split; try lia. intros [| i] ca cb H; discriminate.
  - repeat split; try lia. intros [| i] ca' cb' Ha Hb; simpl in *.
    + inversion Ha; inversion Hb; subst. left. auto.
    + apply Hnth; assumption.
  - repeat split; try lia. intros [| i] ca' cb' Ha Hb; simpl in *.
    + inversion Ha; inversion Hb; subst. right. auto.
    + apply Hnth; assumption.
Qed.

(** X7: recombination invents nothing.  The list returned by
    [recombine_population] for a population of two or more holds, for
    each consecutive pair of the shuffled population, two children of the
    length of the first of the pair; at every position one child has the
    character of the first parent and the other the character of the
    second.  The query counter is left alone. *)
Theorem X7_recombination_mixes (self : AdaLead) (gen : list string)
    (st : state) (r : list string) (st' : state) :
  length gen <> 1 ->
  recombine_population self gen st = (Ok r, st') ->
  model_cost st' = model_cost st
  /\ exists shuffled,
      Permutation gen shuffled
      /\ children_of shuffled r
      /\ forall x y strA strB,
          mixed (list_ascii_of_string x) (list_ascii_of_string y)
            (list_ascii_of_string strA) (list_ascii_of_string strB) ->
          String.length strA = String.length x
          /\ String.length strB = String.length x
          /\ forall i ca cb,
              String.get i x = Some ca -> String.get i y = Some cb ->
              (String.get i strA = Some ca /\ String.get i strB = Some cb)
              \/ (String.get i strA = Some cb /\ String.get i strB = Some ca).
Proof.
  intros Hne H. split.
  - eapply keeps_cost_run; [apply keeps_cost_recombine_population | exact H].
  - unfold recombine_population in H. apply Nat.eqb_neq in Hne. rewrite Hne in H.
    ok_inv H.
    destruct (random_shuffle_perm gen st) as (shuffled & Hsh & Hperm).
    rewrite Hsh in Hrun. inversion Hrun; subst. clear Hrun.
    exists a. split; [exact Hperm | split].
    + eapply recombine_pairs_children. exact H.
    + intros x y strA strB Hmix. apply mixed_spec in Hmix.
      destruct Hmix as (HA & HB & _ & Hnth).
      rewrite !length_list_ascii_of_string in HA, HB.
      split; [exact HA | split; [exact HB |]].
      intros i ca cb Hx Hy.
      assert (Hget : forall s j, String.get j s
                                 = nth_error (list_ascii_of_string s) j).
      { induction s as [| c s IHs]; intros [| j]; simpl; auto. }
      rewrite !Hget in *. apply Hnth; assumption.
Qed.

Lemma X7_recombination_mixes_witness :
  model_cost
    (snd (recombine_population (example_instance count_A_fitness (1 # 2) 1 1)
            example_population (initial_state example_tape)))
  = model_cost (initial_state example_tape).
Proof.
  eapply (X7_recombination_mixes (example_instance count_A_fitness (1 # 2) 1 1)
            example_population (initial_state example_tape)
            ["GGCA"; "CCGC"; "ACCC"; "AACC"]%string).
  - discriminate.
  - apply run_eq. vm_compute. reflexivity.
Defined.

Lemma recombine_two_in_order self x y st :
  String.length x <= String.length y ->
  exists c1 c2 st',
    recombine_pairs self [x; y] st = (Ok [c1; c2], st')
    /\ String.length c1 = String.length x
    /\ String.length c2 = String.length x.
Proof.
  intro Hlen. rewrite recombine_pairs_cons2.
  destruct (crossover_total self (list_ascii_of_string x)
              (list_ascii_of_string y) false st)
    as (strA & strB & st' & Hrun & HA & HB & _).
  { rewrite !length_list_ascii_of_string. exact Hlen. }
  erewrite bind_run by exact Hrun. simpl.
  exists (string_of_list_ascii strA), (string_of_list_ascii strB), st'.
  rewrite !length_string_of_list_ascii, HA, HB, length_list_ascii_of_string.
  auto.
Qed.

Lemma recombine_two_out_of_order self x y st :
  String.length y < String.length x ->
  recombine_pairs self [x; y] st
  = (Raise IndexError, advance_by (S (String.length y)) st).
Proof.
  intro Hlen. rewrite recombine_pairs_cons2. unfold bind at 1.
  rewrite crossover_short by (rewrite !length_list_ascii_of_string; exact Hlen).
  rewrite length_list_ascii_of_string. reflexivity.
Qed.

(** The shuffle of two entries is one draw: an odd draw leaves the order,
    an even draw swaps the two. *)
Lemma recombine_population_two self a b st :
  recombine_population self [a; b] st
  = recombine_pairs self
      (if (rng_tape st (rng_pos st) mod 2 =? 1)%N then [a; b] else [b; a])
      (advance st).
Proof.
  unfold recombine_population, random_shuffle.
  cbn [length Nat.eqb Nat.sub shuffle_down].
  unfold bind, randbelow, ret. change (N.of_nat 2) with 2%N.
  pose proof (N.mod_lt (rng_tape st (rng_pos st)) 2 ltac:(discriminate)) as Hlt.
  destruct (rng_tape st (rng_pos st) mod 2)%N as [| [q | q |]] eqn:E;
    try lia; reflexivity.
Qed.

(** X8: sequences of different lengths.  For a population of two
    sequences of different lengths, in either order, the outcome of
    [recombine_population] depends on the shuffle alone.  The shuffle
    leaves the order on an odd draw and swaps the two on an even one;
    when it puts the shorter sequence first the two children have the
    length of the shorter sequence, and when it puts the longer one first
    reading the shorter one past its end raises IndexError. *)
Theorem X8_recombination_unequal_lengths (self : AdaLead) (short long : string)
    (st : state) :
  String.length short < String.length long ->
  ((rng_tape st (rng_pos st) mod 2 = 1)%N ->
   (exists c1 c2 st',
       recombine_population self [short; long] st = (Ok [c1; c2], st')
       /\ String.length c1 = String.length short
       /\ String.length c2 = String.length short)
   /\ recombine_population self [long; short] st
      = (Raise IndexError, advance_by (S (S (String.length short))) st))
  /\ ((rng_tape st (rng_pos st) mod 2 = 0)%N ->
      (exists c1 c2 st',
          recombine_population self [long; short] st = (Ok [c1; c2], st')
          /\ String.length c1 = String.length short
          /\ String.length c2 = String.length short)
      /\ recombine_population self [short; long] st
         = (Raise IndexError, advance_by (S (S (String.length short))) st)).
Proof.
  intro Hlen.
  split; intro Hdraw; rewrite !recombine_population_two, Hdraw;
    cbn [N.eqb Pos.eqb]; split.
  - apply recombine_two_in_order. lia.
  - rewrite recombine_two_out_of_order by exact Hlen.
    rewrite advance_by_advance. reflexivity.
  - apply recombine_two_in_order. lia.
  - rewrite recombine_two_out_of_order by exact Hlen.
    rewrite advance_by_advance. reflexivity.
Qed.

Lemma X8_recombination_unequal_lengths_witness :
  recombine_population (example_instance count_A_fitness (1 # 2) 1 1)
    ["ACGT"; "AC"]%string (initial_state (fun _ => 1%N))
  = (Raise IndexError, advance_by 4 (initial_state (fun _ => 1%N)))
  /\ recombine_population (example_instance count_A_fitness (1 # 2) 1 1)
       ["AC"; "ACGT"]%string (initial_state (fun _ => 0%N))
     = (Raise IndexError, advance_by 4 (initial_state (fun _ => 0%N))).
Proof.
  split.
  - destruct (X8_recombination_unequal_lengths
                (example_instance count_A_fitness (1 # 2) 1 1)
                "AC"%string "ACGT"%string (initial_state (fun _ => 1%N)))
      as [Hodd _].
    + vm_compute. lia.
    + apply Hodd. reflexivity.
  - destruct (X8_recombination_unequal_lengths
                (example_instance count_A_fitness (1 # 2) 1 1)
                "AC"%string "ACGT"%string (initial_state (fun _ => 0%N)))
      as [_ Heven].
    + vm_compute. lia.
    + apply Heven. reflexivity.
Defined.

(* ===================================================================== *)
(** ** The dict only grows                                                 *)
(* ===================================================================== *)

Lemma dict_set_app k v d a :
  dict_mem k d = false -> dict_set k v (d ++ a) = d ++ dict_set k v a.
Proof.
  unfold dict_mem. induction d as [| [k' v'] d IH]; simpl; intro H;
    [reflexivity |].
  apply orb_false_iff in H. destruct H as [E H]. rewrite E.
  rewrite IH by exact H. reflexivity.
Qed.

Lemma dict_update_app kvs :
  forall d a,
    Forall (fun kv => dict_mem (fst kv) d = false) kvs ->
    dict_update kvs (d ++ a) = d ++ dict_update kvs a.
Proof.
  unfold dict_update.
  induction kvs as [| [k v] kvs IH]; intros d a H; simpl; [reflexivity |].
  inversion H; subst. simpl in *.
  rewrite dict_set_app by assumption. apply IH. assumption.
Qed.

Lemma dict_update_keys kvs :
  forall a k,
    In k (map fst (dict_update kvs a)) ->
    In k (map fst a) \/ In k (map fst kvs).
Proof.
  unfold dict_update.
  induction kvs as [| [k' v'] kvs IH]; intros a k H; simpl in *; [auto |].
  apply IH in H. destruct H as [H | H]; [| auto].
  rewrite dict_set_keys in H. destruct (dict_mem k' a); [auto |].
  apply in_app_or in H. destruct H as [H | [H | []]]; auto.
Qed.

Lemma grows_refl measured d : grows measured d d.
Proof. exists []. rewrite app_nil_r. split; [reflexivity | constructor]. Qed.

Lemma dict_mem_app k d a :
  dict_mem k (d ++ a) = dict_mem k d || dict_mem k a.
Proof. unfold dict_mem. rewrite map_app, existsb_app. reflexivity. Qed.

Lemma grows_trans measured d1 d2 d3 :
  grows measured d1 d2 -> grows measured d2 d3 -> grows measured d1 d3.
Proof.
  intros (a1 & -> & H1) (a2 & -> & H2).
  exists (a1 ++ a2). rewrite app_assoc. split; [reflexivity |].
  apply Forall_app. split; [exact H1 |].
  eapply Forall_impl; [| exact H2].
  intros kv [Hm Hd]. rewrite dict_mem_app in Hd.
  apply orb_false_iff in Hd. tauto.
Qed.

Section Growth.

Variable self : AdaLead.
Variable fuel : nat.
Variable measured : list string.
Variable previous : nat.

Lemma rollout_step_grows root_fitnesses nodes sequences st nodes' sequences' st' :
  rollout_step self fuel measured root_fitnesses nodes sequences st
  = (Ok (nodes', sequences'), st') ->
  grows measured sequences sequences'.
Proof.
  intro H. apply rollout_step_ok in H.
  destruct H as (children & fitnesses & Hfresh & _ & -> & _ & _).
  assert (Hch : Forall (fun c => set_mem c measured = false
                                 /\ dict_mem c sequences = false) children).
  { clear - Hfresh. induction Hfresh as [| node child ? ? (_ & H1 & H2) _ IH];
      constructor; auto. }
  rewrite Forall_forall in Hch.
  exists (dict_update (combine children fitnesses) []). split.
  - rewrite <- (app_nil_r sequences) at 1. apply dict_update_app.
    apply Forall_forall. intros [k v] Hin. simpl.
    apply in_combine_l in Hin. apply Hch. exact Hin.
  - apply Forall_forall. intros [k v] Hin. simpl.
    assert (Hk : In k (map fst (dict_update (combine children fitnesses) []))).
    { apply in_map_iff. exists (k, v). auto. }
    apply dict_update_keys in Hk. destruct Hk as [[] | Hk].
    apply in_map_iff in Hk. destruct Hk as ([k' v'] & Heq & Hk). simpl in Heq.
    subst. apply in_combine_l in Hk. apply Hch. exact Hk.
Qed.

Lemma rollout_grows n root_fitnesses :
  forall nodes sequences st sequences' st',
    rollout self fuel measured previous n root_fitnesses nodes sequences st
    = (Ok sequences', st') ->
    grows measured sequences sequences'.
Proof.
  induction n as [| n IH]; intros nodes sequences st sequences' st' H;
    simpl in H; rewrite bind_get_state in H.
  - destruct (_ && _); [discriminate | ok_inv H; apply grows_refl].
  - destruct (_ && _); [| ok_inv H; apply grows_refl].
    ok_inv H. destruct a as [nodes1 sequences1].
    apply rollout_step_grows in Hrun. apply IH in H.
    eapply grows_trans; eassumption.
Qed.

Lemma for_each_chunk_grows chunk_list :
  forall sequences st sequences' st',
    for_each (rollout_chunk self fuel measured previous) chunk_list sequences st
    = (Ok sequences', st') ->
    grows measured sequences sequences'.
Proof.
  induction chunk_list as [| roots chunk_list IH];
    intros sequences st sequences' st' H; simpl in H.
  - ok_inv H. apply grows_refl.
  - ok_inv H. unfold rollout_chunk in Hrun. ok_inv Hrun.
    apply rollout_grows in Hrun. apply IH in H.
    eapply grows_trans; eassumption.
Qed.

Lemma budget_loop_grows n :
  forall parents sequences st sequences' st',
    budget_loop self fuel measured previous n parents sequences st
    = (Ok sequences', st') ->
    grows measured sequences sequences'.
Proof.
  induction n as [| n IH]; intros parents sequences st sequences' st' H;
    simpl in H; rewrite bind_get_state in H.
  - destruct (_ <? _); [discriminate | ok_inv H; apply grows_refl].
  - destruct (_ <? _); [| ok_inv H; apply grows_refl].
    ok_inv H. ok_inv H. destruct (eval_batch_size self =? 0); [discriminate |].
    apply for_each_chunk_grows in Hrun0. apply IH in H.
    eapply grows_trans; eassumption.
Qed.

End Growth.

Lemma set_mem_false k l : set_mem k l = false <-> ~ In k l.
Proof.
  unfold set_mem. split.
  - intros H Hin. assert (E : existsb (String.eqb k) l = true).
    { apply existsb_exists. exists k. split; [exact Hin | apply String.eqb_refl]. }
    congruence.
  - intro H. destruct (existsb (String.eqb k) l) eqn:E; [| reflexivity].
    apply existsb_exists in E. destruct E as (x & Hin & Hx).
    apply String.eqb_eq in Hx. subst. contradiction.
Qed.

Lemma discover_new self fuel population st sequences st' :
  discover self fuel population st = (Ok sequences, st') ->
  Forall (fun kv => ~ In (fst kv) population) sequences.
Proof.
  unfold discover. intro H. ok_inv H. ok_inv H. rewrite bind_get_state in H.
  assert (Hg : grows population [] sequences).
  { destruct (np_resize a0 (sequences_batch_size self)) as [ps | [| n]].
    - eapply budget_loop_grows. exact H.
    - eapply budget_loop_grows. exact H.
    - apply budget_loop_zeros_ok in H. subst. apply grows_refl. }
  destruct Hg as (added & -> & Hall). simpl.
  eapply Forall_impl; [| exact Hall].
  intros kv [Hm _]. apply set_mem_false. exact Hm.
Qed.

(** X9: what a rollout has recorded stays.  One step of a rollout
    appends the new children to the dict of discovered sequences: the
    entries recorded before keep their place and their score, and every
    key that is added is in neither the seed population nor the dict as
    it was. *)
Theorem X9_rollout_appends self fuel measured root_fitnesses nodes sequences
    st nodes' sequences' st' :
  rollout_step self fuel measured root_fitnesses nodes sequences st
  = (Ok (nodes', sequences'), st') ->
  exists added,
    sequences' = sequences ++ added
    /\ (forall k v, In (k, v) added ->
                    ~ In k measured /\ ~ In k (map fst sequences))
    /\ (forall k v, dict_get k sequences = Some v ->
                    dict_get k sequences' = Some v).
Proof.
  intro H. apply rollout_step_grows in H. destruct H as (added & -> & Hall).
  exists added. split; [reflexivity | split].
  - intros k v Hin. rewrite Forall_forall in Hall.
    destruct (Hall (k, v) Hin) as [Hm Hd]. simpl in *.
    split; [apply set_mem_false; exact Hm | apply dict_mem_false; exact Hd].
  - intros k v Hget. clear Hall.
    induction sequences as [| [k' v'] d IH]; simpl in *; [discriminate |].
    destruct (String.eqb k k'); [exact Hget | apply IH; exact Hget].
Qed.

Lemma X9_rollout_appends_witness :
  exists added,
    [("AATC"%string, 2%Q); ("TATC"%string, 1%Q); ("GACC"%string, 1%Q)]
    = [("AATC"%string, 2%Q)] ++ added
    /\ (forall k v, In (k, v) added ->
                    ~ In k example_population /\ ~ In k ["AATC"%string])
    /\ dict_get "AATC"
         [("AATC"%string, 2%Q); ("TATC"%string, 1%Q); ("GACC"%string, 1%Q)]
       = Some 2%Q.
Proof.
  destruct (X9_rollout_appends
              (example_instance count_A_fitness (1 # 2) 1 1) 2000
              example_population (Array1 [1; 1]%Q)
              [(0, "AACC"%string); (1, "AACC"%string)]
              [("AATC"%string, 2%Q)]
              (initial_state example_tape)
              []
              [("AATC"%string, 2%Q); ("TATC"%string, 1%Q); ("GACC"%string, 1%Q)]
              (snd (rollout_step
                      (example_instance count_A_fitness (1 # 2) 1 1) 2000
                      example_population (Array1 [1; 1]%Q)
                      [(0, "AACC"%string); (1, "AACC"%string)]
                      [("AATC"%string, 2%Q)]
                      (initial_state example_tape))))
    as (added & Happ & Hnew & Hkeep).
  - apply run_eq. vm_compute. reflexivity.
  - exists added. split; [exact Happ | split; [exact Hnew |]].
    apply Hkeep. reflexivity.
Defined.

(** X10: a normal return of [propose_sequences] holds new sequences
    only: none of the returned sequences is in the population the round
    started from. *)
Theorem X10_proposals_are_new self fuel population st seqs scores st' :
  propose_sequences self fuel population st = (Ok (seqs, scores), st') ->
  forall s, In s seqs -> ~ In s population.
Proof.
  intros H s Hs.
  pose proof (propose_sequences_ok _ _ _ _ _ _ _ H)
    as (sequences & top & rest & Hdisc & _ & _ & _ & _ & _ & Hent & _ & _).
  apply discover_new in Hdisc. rewrite Forall_forall in Hdisc.
  apply In_nth_error in Hs. destruct Hs as [i Hi].
  destruct (Forall2_nth_error_r _ _ _ Hent i s Hi) as (p & _ & Hep).
  unfold entry_at in Hep. apply nth_error_In in Hep.
  apply (Hdisc (s, snd p) Hep).
Qed.

Lemma X10_proposals_are_new_witness :
  ~ In "AACA"%string example_population.
Proof.
  apply (X10_proposals_are_new _ _ _ _ _ _ _ example_round "AACA"%string).
  left. reflexivity.
Defined.

(* ===================================================================== *)
(** ** What a round spends                                                 *)
(* ===================================================================== *)

Lemma chunks_aux_sum {A} step n :
  step <> 0 ->
  forall l : list A,
    length l <= n ->
    list_sum (map (@length A) (chunks_aux n step l)) = length l
    /\ Forall (fun chunk => length chunk <= step) (chunks_aux n step l).
Proof.
  intro Hstep. induction n as [| n IH]; intros l Hlen.
  - destruct l; [simpl; auto | simpl in Hlen; lia].
  - destruct l as [| x l]; [simpl; auto |].
    cbn [chunks_aux].
    destruct (IH (skipn step (x :: l))) as [Hsum Hall].
    { rewrite length_skipn. cbn [length] in *. lia. }
    split.
    + rewrite map_cons.
      change (list_sum (?n0 :: ?r)) with (n0 + list_sum r).
      rewrite Hsum, length_firstn, length_skipn. lia.
    + constructor; [rewrite length_firstn; lia | exact Hall].
Qed.

Lemma recombine_population_length self gen st r st' :
  recombine_population self gen st = (Ok r, st') -> length r <= length gen.
Proof.
  unfold recombine_population. intro H.
  destruct (length gen =? 1); [ok_inv H; lia |].
  ok_inv H. apply recombine_pairs_ok in H. destruct H as [Hlen _].
  destruct (random_shuffle_perm gen st) as (x & Hsh & Hperm).
  rewrite Hsh in Hrun. inversion Hrun; subst.
  rewrite Hlen, (Permutation_length Hperm).
  pose proof (Nat.div_mod_eq (length a) 2). lia.
Qed.

Lemma repeat_recombine_length self n :
  forall parents st r st',
    repeat_m n (recombine_population self) parents st = (Ok r, st') ->
    length r <= length parents.
Proof.
  induction n as [| n IH]; intros parents st r st' H; simpl in H.
  - ok_inv H. lia.
  - ok_inv H. apply recombine_population_length in Hrun. apply IH in H. lia.
Qed.

Section Spending.

Variable self : AdaLead.
Variable fuel : nat.
Variable measured : list string.
Variable previous : nat.

(** A rollout either does nothing or ends below the budget: each step
    is entered with room for a whole chunk and charges at most one. *)
Lemma rollout_spend n root_fitnesses :
  forall nodes sequences st sequences' st',
    length nodes <= eval_batch_size self ->
    rollout self fuel measured previous n root_fitnesses nodes sequences st
    = (Ok sequences', st') ->
    model_cost st' = model_cost st
    \/ model_cost st' < previous + model_queries_per_batch self.
Proof.
  induction n as [| n IH]; intros nodes sequences st sequences' st' Hlen H;
    simpl in H; rewrite bind_get_state in H.
  - destruct (_ && _); [discriminate | ok_inv H; auto].
  - destruct (_ && _) eqn:E; [| ok_inv H; auto].
    apply andb_true_iff in E. destruct E as [_ E]. apply Nat.ltb_lt in E.
    ok_inv H. destruct a as [nodes1 sequences1].
    apply rollout_step_ok in Hrun.
    destruct Hrun as (children & fitnesses & Hfresh & _ & _ & Hnodes & Hcost).
    assert (Hlen1 : length nodes1 <= eval_batch_size self).
    { rewrite Hnodes, length_map.
      etransitivity; [apply filter_length_le |].
      rewrite !length_combine, length_map. lia. }
    right. destruct (IH _ _ _ _ _ Hlen1 H) as [Heq | Hlt]; lia.
Qed.

Lemma for_each_chunk_spend chunk_list :
  forall sequences st sequences' st' bound,
    Forall (fun chunk => length chunk <= eval_batch_size self) chunk_list ->
    previous + model_queries_per_batch self <= bound ->
    model_cost st < bound ->
    for_each (rollout_chunk self fuel measured previous) chunk_list sequences st
    = (Ok sequences', st') ->
    model_cost st' < bound + list_sum (map (@length string) chunk_list).
Proof.
  induction chunk_list as [| roots chunk_list IH];
    intros sequences st sequences' st' bound Hall Hb Hc H; simpl in H.
  - ok_inv H. simpl. lia.
  - inversion Hall as [| ? ? Hroots Hall']; subst.
    ok_inv H. unfold rollout_chunk in Hrun. ok_inv Hrun.
    apply get_fitness_ok in Hrun0. destruct Hrun0 as (scores & _ & -> & ->).
    apply rollout_spend in Hrun;
      [| unfold enumerate; rewrite length_combine, length_seq; lia].
    simpl in Hrun.
    apply (IH _ _ _ _ (bound + length roots)) in H; [| exact Hall' | lia | lia].
    rewrite map_cons.
    change (list_sum (?n0 :: ?r)) with (n0 + list_sum r). lia.
Qed.

(** When the budget loop ends the budget is used up, and it is exceeded
    by less than the number of parents. *)
Lemma budget_loop_spend n :
  forall parents sequences st sequences' st',
    length parents <= sequences_batch_size self ->
    previous <= model_cost st ->
    budget_loop self fuel measured previous n parents sequences st
    = (Ok sequences', st') ->
    previous + model_queries_per_batch self <= model_cost st'
    /\ (model_cost st' = model_cost st
        \/ model_cost st'
           < previous + model_queries_per_batch self + sequences_batch_size self).
Proof.
  induction n as [| n IH]; intros parents sequences st sequences' st' Hlen Hprev H;
    simpl in H; rewrite bind_get_state in H.
  - destruct (_ <? _) eqn:E; [discriminate |]. ok_inv H.
    apply Nat.ltb_ge in E. split; [lia | auto].
  - destruct (_ <? _) eqn:E.
    + apply Nat.ltb_lt in E. ok_inv H.
      pose proof (keeps_cost_run _ _ _ _
                    (keeps_cost_repeat_recombine self (rho self) parents) Hrun)
        as Hc1.
      apply repeat_recombine_length in Hrun.
      ok_inv H. destruct (eval_batch_size self =? 0) eqn:EE; [discriminate |].
      apply Nat.eqb_neq in EE.
      destruct (chunks_aux_sum (eval_batch_size self) (length a) EE a (le_n _))
        as [Hsum Hall].
      pose proof (grows_cost_run _ _ _ _
                    (grows_cost_for_each_chunk self fuel measured previous
                       (chunks (eval_batch_size self) a) sequences) Hrun0)
        as Hgrow.
      apply (for_each_chunk_spend _ _ _ _ _
               (previous + model_queries_per_batch self)) in Hrun0;
        [| exact Hall | lia | lia].
      unfold chunks in Hrun0. rewrite Hsum in Hrun0.
      apply IH in H; [| lia | lia].
      destruct H as [Hge Hlt]. split; [exact Hge | right; lia].
    + ok_inv H. apply Nat.ltb_ge in E. split; [lia | auto].
Qed.

End Spending.

Lemma discover_spend self fuel population st sequences st' :
  discover self fuel population st = (Ok sequences, st') ->
  model_cost st + length population + model_queries_per_batch self
  <= model_cost st'
  /\ (model_cost st' = model_cost st + length population
      \/ model_cost st'
         < model_cost st + length population + model_queries_per_batch self
           + sequences_batch_size self).
Proof.
  unfold discover. intro H.
  ok_inv H. apply get_fitness_ok in Hrun. destruct Hrun as (scores & _ & -> & ->).
  ok_inv H.
  pose proof (keeps_cost_run _ _ _ _
                (keeps_cost_select_parents self population _) Hrun) as Hc.
  simpl in Hc. clear Hrun.
  rewrite bind_get_state in H.
  destruct (np_resize _ (sequences_batch_size self)) as [parents | [| n]] eqn:E.
  - apply np_resize_wraps in E. destruct E as [Hlen _].
    apply budget_loop_spend in H; [| lia | lia]. lia.
  - apply budget_loop_spend in H; [| simpl; lia | lia]. lia.
  - unfold budget_loop_zeros in H. rewrite bind_get_state in H.
    destruct (_ <? _) eqn:Eb.
    + destruct (_ && _); [ok_inv H; discriminate |].
      destruct (_ =? _); discriminate.
    + apply Nat.ltb_ge in Eb. ok_inv H. lia.
Qed.

(** X11: a round that returns has charged the query counter with the
    seed population and then with at least [model_queries_per_batch]
    queries, and has exceeded that budget by less than
    [sequences_batch_size]: the budget is only tested between two passes
    over the parents, a pass scores at most [sequences_batch_size] roots,
    and no rollout step starts without room for a whole chunk. *)
Theorem X11_round_spends_its_budget self fuel population st seqs scores st' :
  propose_sequences self fuel population st = (Ok (seqs, scores), st') ->
  model_cost st + length population + model_queries_per_batch self
  <= model_cost st'
  /\ model_cost st'
     < model_cost st + length population + model_queries_per_batch self
       + sequences_batch_size self.
Proof.
  intro H. apply propose_sequences_ok in H.
  destruct H as (sequences & _ & _ & H & _ & HK & _).
  apply discover_spend in H. lia.
Qed.

Lemma X11_round_spends_its_budget_witness :
  0 + 4 + 40
  <= model_cost
       (snd (propose_sequences (example_instance count_A_fitness (1 # 2) 1 1)
               2000 example_population (initial_state example_tape)))
  /\ model_cost
       (snd (propose_sequences (example_instance count_A_fitness (1 # 2) 1 1)
               2000 example_population (initial_state example_tape)))
     < 0 + 4 + 40 + 4.
Proof.
  exact (X11_round_spends_its_budget _ _ _ _ _ _ _ example_round).
Defined.

(** X12: the error of the empty dict is raised only after the whole
    budget is spent: the seed population and at least
    [model_queries_per_batch] further queries have been charged. *)
Theorem X12_empty_error_after_the_budget self fuel population st st' :
  propose_sequences self fuel population st = (Raise NoSequencesGenerated, st') ->
  model_cost st + length population + model_queries_per_batch self
  <= model_cost st'.
Proof.
  intro H. apply empty_error_iff in H. apply discover_spend in H. lia.
Qed.

Lemma X12_empty_error_after_the_budget_witness :
  0 + 4 + 3
  <= model_cost
       (snd (propose_sequences small_budget_instance 3 example_population
               (initial_state example_tape))).
Proof.
  apply (X12_empty_error_after_the_budget small_budget_instance 3
           example_population (initial_state example_tape)).
  apply run_eq. vm_compute. reflexivity.
Defined.

(* ===================================================================== *)
(** ** What a round leaves of the state                                    *)
(* ===================================================================== *)

Create HintDb frame.

Lemma keeps_frame_ret {A} (a : A) : keeps_frame (ret a).
Proof. intro st. simpl. auto. Qed.

Lemma keeps_frame_raise {A} e : keeps_frame (@raise A e).
Proof. intro st. simpl. auto. Qed.

Lemma keeps_frame_diverge {A} l : keeps_frame (@diverge A l).
Proof. intro st. simpl. auto. Qed.

Lemma keeps_frame_bind {A B} (m : M A) (f : A -> M B) :
  keeps_frame m -> (forall a, keeps_frame (f a)) -> keeps_frame (bind m f).
Proof.
  intros Hm Hf st. unfold bind. specialize (Hm st).
  destruct (m st) as [[a | e | l] st1]; simpl in *; auto.
  destruct (Hf a st1) as (H1 & H2 & H3). destruct Hm as (G1 & G2 & G3).
  repeat split; [congruence | congruence | lia].
Qed.

Lemma keeps_frame_run {A} (m : M A) st r st' :
  keeps_frame m -> m st = (r, st') ->
  rng_tape st' = rng_tape st
  /\ initial_top_fitness st' = initial_top_fitness st
  /\ rng_pos st <= rng_pos st'.
Proof. intros H E. specialize (H st). rewrite E in H. exact H. Qed.

Lemma keeps_frame_random_random : keeps_frame random_random.
Proof. intro st. simpl. repeat split; lia. Qed.

Lemma keeps_frame_randbelow n : keeps_frame (randbelow n).
Proof. intro st. simpl. repeat split; lia. Qed.

#[local] Hint Resolve keeps_frame_ret keeps_frame_raise keeps_frame_diverge
  keeps_frame_random_random keeps_frame_randbelow : frame.

Lemma keeps_frame_random_choice alphabet : keeps_frame (random_choice alphabet).
Proof.
  destruct alphabet as [| c s]; unfold random_choice; auto with frame.
  apply keeps_frame_bind; [auto with frame |].
  intro j. destruct (String.get j (String c s)); auto with frame.
Qed.

Lemma keeps_frame_shuffle_down {A} k (x : list A) : keeps_frame (shuffle_down k x).
Proof.
  revert x. induction k as [| k IH]; intro x; simpl; auto with frame.
  apply keeps_frame_bind; [auto with frame | intro j; apply IH].
Qed.

Lemma keeps_frame_random_shuffle {A} (x : list A) : keeps_frame (random_shuffle x).
Proof. apply keeps_frame_shuffle_down. Qed.

Lemma keeps_frame_array_max a : keeps_frame (array_max a).
Proof. unfold array_max. destruct a; auto with frame. Qed.

Lemma keeps_frame_index_all {A} (a : list A) inds : keeps_frame (index_all a inds).
Proof.
  induction inds as [| i inds IH]; simpl; auto with frame.
  destruct (nth_error a i); auto with frame.
  apply keeps_frame_bind; [exact IH | auto with frame].
Qed.

#[local] Hint Resolve keeps_frame_random_choice keeps_frame_random_shuffle
  keeps_frame_array_max keeps_frame_index_all : frame.

Section Frame.

Variable self : AdaLead.
Variable fuel : nat.
Variable measured : list string.
Variable previous : nat.

Lemma keeps_frame_get_fitness sequence_list :
  keeps_frame (get_fitness self sequence_list).
Proof.
  intro st. unfold get_fitness.
  destruct (fitness_fn self sequence_list); simpl; auto.
Qed.

Lemma keeps_frame_mutate_chars sequence mu alphabet :
  keeps_frame (mutate_chars sequence mu alphabet).
Proof.
  induction sequence as [| s rest IH]; simpl; auto with frame.
  apply keeps_frame_bind; [auto with frame | intro r].
  apply keeps_frame_bind; [destruct (Qltb r mu); auto with frame | intro c].
  apply keeps_frame_bind; [exact IH | intro m; auto with frame].
Qed.

Lemma keeps_frame_generate_random_mutant sequence mu alphabet :
  keeps_frame (generate_random_mutant sequence mu alphabet).
Proof.
  unfold generate_random_mutant.
  apply keeps_frame_bind; [apply keeps_frame_mutate_chars | auto with frame].
Qed.

Lemma keeps_frame_gen_children n sequences nodes :
  forall child_idxs children,
    keeps_frame (gen_children self measured n sequences nodes child_idxs children).
Proof.
  induction n as [| n IH]; intros child_idxs children; simpl.
  - destruct (length children <? length nodes); auto with frame.
  - destruct (length children <? length nodes); auto with frame.
    destruct (nth_error nodes (length children)) as [[idx node] |];
      auto with frame.
    destruct (String.length node =? 0); auto with frame.
    apply keeps_frame_bind; [apply keeps_frame_generate_random_mutant |].
    intro child.
    destruct (negb (set_mem child measured) && negb (dict_mem child sequences));
      apply IH.
Qed.

Lemma keeps_frame_prune root_fitnesses zipped :
  keeps_frame (prune root_fitnesses zipped).
Proof.
  induction zipped as [| [[idx child] fitness] zipped IH]; simpl; auto with frame.
  destruct (getitem root_fitnesses idx); auto with frame.
  apply keeps_frame_bind; [exact IH | auto with frame].
Qed.

Lemma keeps_frame_crossover a :
  forall b switch, keeps_frame (crossover self a b switch).
Proof.
  induction a as [| ca a IH]; intros b switch; simpl; auto with frame.
  apply keeps_frame_bind; [auto with frame | intro r].
  destruct b as [| cb b]; auto with frame.
  apply keeps_frame_bind; [apply IH | intros [strA strB]].
  destruct (if Qltb r (recomb_rate self) then negb switch else switch);
    auto with frame.
Qed.

Lemma keeps_frame_recombine_pairs gen : keeps_frame (recombine_pairs self gen).
Proof.
  induction gen as [| x | x y gen IH] using pair_induction;
    [apply keeps_frame_ret | apply keeps_frame_ret |].
  cbn [recombine_pairs].
  apply keeps_frame_bind; [apply keeps_frame_crossover | intros [strA strB]].
  apply keeps_frame_bind; [exact IH | auto with frame].
Qed.

Lemma keeps_frame_recombine_population gen :
  keeps_frame (recombine_population self gen).
Proof.
  unfold recombine_population. destruct (length gen =? 1); auto with frame.
  apply keeps_frame_bind; [auto with frame | intro gen'].
  apply keeps_frame_recombine_pairs.
Qed.

Lemma keeps_frame_repeat_recombine n :
  forall parents, keeps_frame (repeat_m n (recombine_population self) parents).
Proof.
  induction n as [| n IH]; intro parents; simpl; auto with frame.
  apply keeps_frame_bind;
    [apply keeps_frame_recombine_population | intro p; apply IH].
Qed.

Lemma keeps_frame_rollout_step root_fitnesses nodes sequences :
  keeps_frame (rollout_step self fuel measured root_fitnesses nodes sequences).
Proof.
  unfold rollout_step.
  apply keeps_frame_bind; [apply keeps_frame_gen_children |].
  intros [child_idxs children].
  apply keeps_frame_bind; [apply keeps_frame_get_fitness | intro fitnesses].
  apply keeps_frame_bind; [apply keeps_frame_prune | intro nodes'].
  auto with frame.
Qed.

Lemma keeps_frame_rollout n root_fitnesses :
  forall nodes sequences,
    keeps_frame (rollout self fuel measured previous n root_fitnesses nodes
                   sequences).
Proof.
  induction n as [| n IH]; intros nodes sequences st; simpl;
    rewrite bind_get_state.
  - destruct (_ && _); simpl; auto.
  - destruct (_ && _); [| simpl; auto].
    apply keeps_frame_bind; [apply keeps_frame_rollout_step |].
    intros [nodes' sequences']. apply IH.
Qed.

Lemma keeps_frame_rollout_chunk roots sequences :
  keeps_frame (rollout_chunk self fuel measured previous roots sequences).
Proof.
  unfold rollout_chunk.
  apply keeps_frame_bind; [apply keeps_frame_get_fitness | intro rf].
  apply keeps_frame_rollout.
Qed.

Lemma keeps_frame_for_each_chunk chunk_list :
  forall sequences,
    keeps_frame (for_each (rollout_chunk self fuel measured previous)
                   chunk_list sequences).
Proof.
  induction chunk_list as [| roots chunk_list IH]; intro sequences; simpl;
    auto with frame.
  apply keeps_frame_bind; [apply keeps_frame_rollout_chunk | intro s; apply IH].
Qed.

Lemma keeps_frame_budget_loop n :
  forall parents sequences,
    keeps_frame (budget_loop self fuel measured previous n parents sequences).
Proof.
  induction n as [| n IH]; intros parents sequences st; simpl;
    rewrite bind_get_state.
  - destruct (_ <? _); simpl; auto.
  - destruct (_ <? _); [| simpl; auto].
    apply keeps_frame_bind; [apply keeps_frame_repeat_recombine | intro parents'].
    apply keeps_frame_bind; [| intro sequences'; apply IH].
    destruct (eval_batch_size self =? 0); auto with frame.
    apply keeps_frame_for_each_chunk.
Qed.

Lemma keeps_frame_budget_loop_zeros n :
  keeps_frame (budget_loop_zeros self previous n).
Proof.
  intro st. unfold budget_loop_zeros. rewrite bind_get_state.
  destruct (model_cost st - previous <? model_queries_per_batch self);
    [| simpl; auto].
  destruct (_ && _).
  - apply keeps_frame_bind; [auto with frame | intro u; auto with frame].
  - destruct (eval_batch_size self =? 0); simpl; auto.
Qed.

Lemma keeps_frame_select_top sequences : keeps_frame (select_top self sequences).
Proof.
  unfold select_top. destruct (length sequences =? 0); auto with frame.
  apply keeps_frame_bind; [auto with frame | intro seqs].
  apply keeps_frame_bind; [auto with frame | intro scores; auto with frame].
Qed.

End Frame.

(** X13: when a round returns, the attribute [initial_top_fitness] holds
    the best score of the seed population of that round, as the scorer
    gave it; the round has only read the random tape forwards. *)
Theorem X13_initial_top_fitness self fuel population st seqs scores st' :
  propose_sequences self fuel population st = (Ok (seqs, scores), st') ->
  exists fitnesses top_fitness,
    fitness_fn self population = Some fitnesses
    /\ In top_fitness fitnesses
    /\ (forall x, In x fitnesses -> (x <= top_fitness)%Q)
    /\ initial_top_fitness st' = Some top_fitness
    /\ rng_tape st' = rng_tape st
    /\ rng_pos st <= rng_pos st'.
Proof.
  unfold propose_sequences. intro H. ok_inv H.
  apply (keeps_frame_run _ _ _ _ (keeps_frame_select_top self a)) in H.
  destruct H as (Ht & Hi & Hp). rewrite Ht, Hi. clear Ht Hi.
  unfold discover in Hrun. ok_inv Hrun.
  apply get_fitness_ok in Hrun0.
  destruct Hrun0 as (fitnesses & Hfit & -> & ->).
  ok_inv Hrun. rename Hrun into Hloop, Hrun0 into Hsel.
  unfold select_parents in Hsel. ok_inv Hsel.
  apply ndarray_max_ok in Hrun. rewrite tolist_squeeze in Hrun.
  destruct Hrun as (-> & Hin & Hmax).
  ok_inv Hsel. unfold set_initial_top_fitness in Hrun. inversion Hrun; subst.
  clear Hrun.
  apply index_all_ok in Hsel. destruct Hsel as [-> _].
  rewrite bind_get_state in Hloop.
  match type of Hloop with
  | _ ?s = (_, ?s') =>
      assert (Hframe : rng_tape s' = rng_tape s
                       /\ initial_top_fitness s' = initial_top_fitness s
                       /\ rng_pos s <= rng_pos s')
  end.
  { destruct (np_resize _ (sequences_batch_size self)) as [parents | [| n]].
    - exact (keeps_frame_run _ _ _ _
               (keeps_frame_budget_loop _ _ _ _ _ _ _) Hloop).
    - exact (keeps_frame_run _ _ _ _
               (keeps_frame_budget_loop _ _ _ _ _ _ _) Hloop).
    - exact (keeps_frame_run _ _ _ _
               (keeps_frame_budget_loop_zeros _ _ _) Hloop). }
  destruct Hframe as (Ht & Hi & Hp'). simpl in Ht, Hi, Hp'.
  match type of Hin with
  | In ?top _ => exists fitnesses, top
  end.
  repeat split; try assumption. lia.
Qed.

Lemma X13_initial_top_fitness_witness :
  exists top_fitness,
    In top_fitness [2; 1; 0; 1]%Q
    /\ initial_top_fitness
         (snd (propose_sequences (example_instance count_A_fitness (1 # 2) 1 1)
                 2000 example_population (initial_state example_tape)))
       = Some top_fitness.
Proof.
  destruct (X13_initial_top_fitness _ _ _ _ _ _ _ example_round)
    as (fitnesses & top_fitness & Hfit & Hin & _ & Hi & _).
  exists top_fitness. split; [| exact Hi].
  inversion Hfit; subst. exact Hin.
Defined.

(* ===================================================================== *)
(** ** [run]: the rounds in sequence                                       *)
(* ===================================================================== *)

Lemma random_chars_length alphabet n :
  forall st chars st',
    random_chars alphabet n st = (Ok chars, st') ->
    length chars = n /\ model_cost st' = model_cost st.
Proof.
  induction n as [| n IH]; intros st chars st' H; simpl in H.
  - ok_inv H. auto.
  - ok_inv H.
    pose proof (keeps_cost_run _ _ _ _ (keeps_cost_random_choice alphabet) Hrun)
      as Hc.
    ok_inv H. apply IH in Hrun0. destruct Hrun0 as [Hlen Hc']. ok_inv H.
    simpl. split; [lia | congruence].
Qed.

Lemma start_from_random_sequences_ok self num :
  forall acc st l st',
    repeat_m num
      (fun sequence_list =>
         chars <- random_chars (vocab self) (seq_len self) ;;
         ret (sequence_list ++ [string_of_list_ascii chars]))
      acc st
    = (Ok l, st') ->
    length l = length acc + num
    /\ model_cost st' = model_cost st
    /\ (Forall (fun s => String.length s = seq_len self) acc ->
        Forall (fun s => String.length s = seq_len self) l).
Proof.
  induction num as [| num IH]; intros acc st l st' H; simpl in H.
  - ok_inv H. auto.
  - ok_inv H. ok_inv Hrun. apply random_chars_length in Hrun0.
    destruct Hrun0 as [Hlen Hc]. ok_inv Hrun.
    apply IH in H. destruct H as (Hl & Hc' & Hall).
    rewrite length_app in Hl. simpl in Hl.
    split; [lia | split; [congruence |]].
    intro Hacc. apply Hall. apply Forall_app. split; [exact Hacc |].
    constructor; [| constructor].
    rewrite length_string_of_list_ascii. exact Hlen.
Qed.

Lemma propose_sequences_shape self fuel population st seqs scores st' :
  propose_sequences self fuel population st = (Ok (seqs, scores), st') ->
  length seqs = length scores
  /\ length scores + 1 <= sequences_batch_size self.
Proof.
  intro H. apply propose_sequences_ok in H.
  destruct H as (sequences & top & rest & _ & _ & HK & _ & _ & _ & Hent & -> & Hlen).
  apply Forall2_length in Hent. rewrite length_map. lia.
Qed.

Lemma propose_sequences_lengths self fuel population st seqs scores st' :
  Forall (fun s => String.length s = seq_len self) population ->
  propose_sequences self fuel population st = (Ok (seqs, scores), st') ->
  Forall (fun s => String.length s = seq_len self) seqs.
Proof.
  intros Hpop H. apply propose_sequences_ok in H.
  destruct H as (sequences & top & rest & Hdisc & _ & _ & _ & _ & _ & Hent & _).
  assert (Hok : dict_ok (fun s => String.length s = seq_len self) sequences).
  { eapply discover_inv; [| | exact Hpop | exact Hdisc].
    - intros node child Hn Hc. congruence.
    - intros gen st0 r st0' Hgen Hrun.
      eapply recombine_population_ok; eassumption. }
  destruct Hok as [_ Hlens]. rewrite Forall_forall in Hlens.
  apply Forall_forall. intros s Hs.
  apply In_nth_error in Hs. destruct Hs as [i Hi].
  destruct (Forall2_nth_error_r _ _ _ Hent i s Hi) as (p & Hp & Hep).
  apply Hlens. apply nth_error_map_fst in Hep.
  eapply nth_error_In. exact Hep.
Qed.

Section Rounds.

Variable self : AdaLead.
Variable fuel : nat.

(** One round of [run_rounds] that goes on to the next. *)
Lemma run_rounds_step n new_seqs preds st s p st' :
  run_rounds self fuel (S n) new_seqs preds st = (Finished s p, st') ->
  exists s1 p1 st1,
    propose_sequences self fuel new_seqs st = (Ok (s1, p1), st1)
    /\ p1 <> []
    /\ run_rounds self fuel n s1 (Some p1) st1 = (Finished s p, st').
Proof.
  simpl. destruct (propose_sequences self fuel new_seqs st)
    as [[[s1 p1] | e | l] st1]; [| discriminate | discriminate].
  destruct (array_max p1 st1) as [[top | e | l] st2] eqn:Emax;
    [| discriminate | discriminate].
  apply array_max_ok in Emax. destruct Emax as (-> & Hin & _).
  intro H. exists s1, p1, st1.
  split; [reflexivity | split; [| exact H]].
  intros ->. destruct Hin.
Qed.

Lemma run_rounds_last n :
  forall new_seqs preds st s p st',
    run_rounds self fuel n new_seqs preds st = (Finished s p, st') ->
    (n = 0 /\ preds = Some p /\ s = new_seqs /\ st' = st)
    \/ (1 <= n
        /\ p <> []
        /\ exists population st0,
             propose_sequences self fuel population st0 = (Ok (s, p), st')
             /\ (n = 1 -> population = new_seqs /\ st0 = st)
             /\ (2 <= n ->
                 1 <= length population
                 /\ length population + 1 <= sequences_batch_size self
                 /\ exists before st_before scores,
                      propose_sequences self fuel before st_before
                      = (Ok (population, scores), st0))).
Proof.
  induction n as [| n IH]; intros new_seqs preds st s p st' H.
  - left. simpl in H. destruct preds; inversion H; subst. auto.
  - right. apply run_rounds_step in H.
    destruct H as (s1 & p1 & st1 & Hround & Hne & H).
    apply IH in H.
    destruct H as [(-> & Hp & -> & ->) | (Hn & Hp & pop & st0 & Hlast & H1 & H2)].
    + inversion Hp; subst.
      split; [lia | split; [exact Hne |]].
      exists new_seqs, st. split; [exact Hround |]. split; [auto | lia].
    + split; [lia | split; [exact Hp |]].
      exists pop, st0. split; [exact Hlast |]. split; [lia |].
      intros _. destruct (Nat.eq_dec n 1) as [E | E]; [| apply H2; lia].
      destruct (H1 E) as [-> ->].
      pose proof (propose_sequences_shape _ _ _ _ _ _ _ Hround) as Hshape.
      split; [destruct p1; [congruence |]; simpl in Hshape; lia |].
      split; [lia |].
      exists new_seqs, st, p1. exact Hround.
Qed.

Lemma run_rounds_cost n :
  forall new_seqs preds st s p st',
    run_rounds self fuel n new_seqs preds st = (Finished s p, st') ->
    (n = 0 /\ st' = st)
    \/ (model_cost st + length new_seqs + n * model_queries_per_batch self
        <= model_cost st'
        /\ model_cost st'
           < model_cost st + length new_seqs
             + n * (model_queries_per_batch self
                    + 2 * sequences_batch_size self)).
Proof.
  induction n as [| n IH]; intros new_seqs preds st s p st' H.
  - left. simpl in H. destruct preds; inversion H; subst. auto.
  - right. apply run_rounds_step in H.
    destruct H as (s1 & p1 & st1 & Hround & Hne & H).
    pose proof (propose_sequences_shape _ _ _ _ _ _ _ Hround) as [Hl HK].
    pose proof (propose_sequences_ok _ _ _ _ _ _ _ Hround)
      as (sequences & _ & _ & Hdisc & _).
    apply discover_spend in Hdisc.
    apply IH in H.
    rewrite (Nat.mul_succ_l n (model_queries_per_batch self)),
      (Nat.mul_succ_l n (model_queries_per_batch self
                         + 2 * sequences_batch_size self)).
    destruct H as [(-> & ->) | [Hlo Hhi]]; [simpl; lia |].
    revert Hlo Hhi.
    generalize (n * model_queries_per_batch self).
    generalize (n * (model_queries_per_batch self
                     + 2 * sequences_batch_size self)).
    intros hi lo Hlo Hhi. lia.
Qed.

Lemma run_rounds_lengths n :
  forall new_seqs preds st s p st',
    Forall (fun x => String.length x = seq_len self) new_seqs ->
    run_rounds self fuel n new_seqs preds st = (Finished s p, st') ->
    Forall (fun x => String.length x = seq_len self) s.
Proof.
  induction n as [| n IH]; intros new_seqs preds st s p st' Hall H.
  - simpl in H. destruct preds; inversion H; subst. exact Hall.
  - apply run_rounds_step in H.
    destruct H as (s1 & p1 & st1 & Hround & _ & H).
    eapply IH; [| exact H].
    eapply propose_sequences_lengths; eassumption.
Qed.

End Rounds.

(** X14: [run] with [num_iterations = 0] never sets its results: the
    loop body does not run, [preds] is never assigned, and the last line
    raises UnboundLocalError after the start population was stored in
    [new_seqs].  No query is made; with no sequences given the start
    population has been drawn from the random tape by then. *)
Theorem X14_run_zero_iterations self fuel st :
  (forall population,
      run self fuel (Some population) 0 st
      = (Failed (UnboundLocalError population), st))
  /\ (vocab self <> EmptyString ->
      exists population,
        run self fuel None 0 st
        = (Failed (UnboundLocalError population),
           advance_by (sequences_batch_size self * seq_len self) st)
        /\ length population = sequences_batch_size self)
  /\ (forall measured_sequences new_seqs preds st',
         run self fuel measured_sequences 0 st <> (Finished new_seqs preds, st')).
Proof.
  split; [reflexivity |]. split.
  - intro Hne.
    destruct (start_from_random_sequences_from self (sequences_batch_size self)
                Hne [] st) as (new & Hrun & Hlen & _).
    exists new. unfold run, start_from_random_sequences.
    simpl in Hrun. rewrite Hrun. split; [reflexivity | exact Hlen].
  - intros [population |] new_seqs preds st'; unfold run; [discriminate |].
    destruct (start_from_random_sequences self (sequences_batch_size self) st)
      as [[l | e | l] st1]; discriminate.
Qed.

Lemma X14_run_zero_iterations_witness :
  exists population,
    run (example_instance count_A_fitness (1 # 2) 1 1) 2000 None 0
      (initial_state example_tape)
    = (Failed (UnboundLocalError population),
       advance_by (4 * 4) (initial_state example_tape))
    /\ length population = 4.
Proof.
  destruct (X14_run_zero_iterations (example_instance count_A_fitness (1 # 2) 1 1)
              2000 (initial_state example_tape)) as (_ & H & _).
  apply H. discriminate.
Defined.

(** X15: when [run] ends normally it has made at least one round, and
    the stored [new_seqs] and [preds] are the return value of its last
    call of [propose_sequences]; they have the same length, between 1 and
    [sequences_batch_size - 1], so [sequences_batch_size] is at least 2.
    After two or more rounds the last call started from the return value
    of the call before it, in the state that call left, and that
    population has between 1 and [sequences_batch_size - 1] sequences. *)
Theorem X15_finished_run self fuel measured_sequences num_iterations st
    new_seqs preds st' :
  run self fuel measured_sequences num_iterations st
  = (Finished new_seqs preds, st') ->
  1 <= num_iterations
  /\ 2 <= sequences_batch_size self
  /\ length new_seqs = length preds
  /\ 1 <= length preds
  /\ length preds + 1 <= sequences_batch_size self
  /\ exists population st0,
       propose_sequences self fuel population st0 = (Ok (new_seqs, preds), st')
       /\ (num_iterations = 1 ->
           forall given, measured_sequences = Some given ->
                         population = given /\ st0 = st)
       /\ (2 <= num_iterations ->
           1 <= length population
           /\ length population + 1 <= sequences_batch_size self
           /\ exists before st_before scores,
                propose_sequences self fuel before st_before
                = (Ok (population, scores), st0)).
Proof.
  intro H.
  assert (Hrounds : exists population st1,
             run_rounds self fuel num_iterations population None st1
             = (Finished new_seqs preds, st')
             /\ forall given, measured_sequences = Some given ->
                              population = given /\ st1 = st).
  { unfold run in H. destruct measured_sequences as [population |].
    - exists population, st. split; [exact H |].
      intros given Hg. inversion Hg. auto.
    - destruct (start_from_random_sequences self (sequences_batch_size self) st)
        as [[l | e | l] st1]; [| discriminate | discriminate].
      exists l, st1. split; [exact H | discriminate]. }
  destruct Hrounds as (population0 & st1 & Hrounds & Hgiven).
  apply run_rounds_last in Hrounds.
  destruct Hrounds
    as [(_ & Hp & _) | (Hn & Hne & pop & st0 & Hlast & H1 & H2)];
    [discriminate |].
  pose proof (propose_sequences_shape _ _ _ _ _ _ _ Hlast) as [Hl HK].
  assert (1 <= length preds) by (destruct preds; [congruence | simpl; lia]).
  repeat (split; [lia |]).
  exists pop, st0. split; [exact Hlast |]. split; [| exact H2].
  intros Hone given Hg. destruct (H1 Hone) as [-> ->]. apply Hgiven. exact Hg.
Qed.

Lemma pair_fst_eq {A B} (p : A * B) (a : A) : fst p = a -> p = (a, snd p).
Proof. intros <-. apply surjective_pairing. Qed.

Lemma example_run :
  run (example_instance count_A_fitness (1 # 2) 1 1) 2000 None 2
    (initial_state example_tape)
  = (Finished ["AAAA"; "AACA"; "GATA"]%string [4; 3; 2]%Q,
     snd (run (example_instance count_A_fitness (1 # 2) 1 1) 2000 None 2
            (initial_state example_tape))).
Proof. apply pair_fst_eq. vm_compute. reflexivity. Defined.

(** Two rounds without ties, from the seed population of the examples. *)
Lemma tie_free_run :
  run (example_instance base4_fitness (1 # 2) 1 1) 2000
    (Some example_population) 2 (initial_state example_tape)
  = (Finished ["TTTT"; "TTTG"; "TTGG"]%string [255; 254; 250]%Q,
     snd (run (example_instance base4_fitness (1 # 2) 1 1) 2000
            (Some example_population) 2 (initial_state example_tape))).
Proof. apply pair_fst_eq. vm_compute. reflexivity. Defined.

Lemma X15_finished_run_witness :
  exists population st0,
    propose_sequences (example_instance base4_fitness (1 # 2) 1 1) 2000
      population st0
    = (Ok (["TTTT"; "TTTG"; "TTGG"]%string, [255; 254; 250]%Q),
       snd (run (example_instance base4_fitness (1 # 2) 1 1) 2000
              (Some example_population) 2 (initial_state example_tape)))
    /\ 1 <= length population
    /\ length population + 1 <= 4
    /\ exists before st_before scores,
         propose_sequences (example_instance base4_fitness (1 # 2) 1 1) 2000
           before st_before
         = (Ok (population, scores), st0).
Proof.
  destruct (X15_finished_run _ _ _ _ _ _ _ _ tie_free_run)
    as (_ & _ & _ & _ & _ & population & st0 & Hlast & _ & Hbefore).
  exists population, st0. split; [exact Hlast |].
  apply Hbefore. lia.
Defined.

(** X16: a run that ends normally after [num_iterations] rounds has
    charged the start population and at least [model_queries_per_batch]
    queries per round, and fewer than
    [model_queries_per_batch + 2 * sequences_batch_size] per round on top
    of the start population: each round scores its population, of fewer
    than [sequences_batch_size] sequences after the first round, and
    exceeds its budget by less than [sequences_batch_size]. *)
Theorem X16_run_cost self fuel measured_sequences num_iterations st
    new_seqs preds st' :
  run self fuel measured_sequences num_iterations st
  = (Finished new_seqs preds, st') ->
  model_cost st + start_size self measured_sequences
  + num_iterations * model_queries_per_batch self
  <= model_cost st'
  /\ model_cost st'
     < model_cost st + start_size self measured_sequences
       + num_iterations * (model_queries_per_batch self
                           + 2 * sequences_batch_size self).
Proof.
  intro H.
  assert (Hrounds : exists population st1,
             run_rounds self fuel num_iterations population None st1
             = (Finished new_seqs preds, st')
             /\ length population = start_size self measured_sequences
             /\ model_cost st1 = model_cost st).
  { unfold run in H. destruct measured_sequences as [population |].
    - exists population, st. auto.
    - destruct (start_from_random_sequences self (sequences_batch_size self) st)
        as [[l | e | l] st1] eqn:E; [| discriminate | discriminate].
      apply start_from_random_sequences_ok in E. destruct E as (Hl & Hc & _).
      exists l, st1. auto. }
  destruct Hrounds as (population & st1 & Hrounds & Hlen & Hcost).
  pose proof (run_rounds_last _ _ _ _ _ _ _ _ _ Hrounds) as Hlast.
  apply run_rounds_cost in Hrounds.
  destruct Hrounds as [[-> _] | Hb].
  - destruct Hlast as [(_ & Hp & _) | (Hn & _)]; [discriminate | lia].
  - rewrite Hlen, Hcost in Hb. exact Hb.
Qed.

Lemma X16_run_cost_witness :
  0 + 4 + 2 * 40
  <= model_cost
       (snd (run (example_instance count_A_fitness (1 # 2) 1 1) 2000 None 2
               (initial_state example_tape)))
  /\ model_cost
       (snd (run (example_instance count_A_fitness (1 # 2) 1 1) 2000 None 2
               (initial_state example_tape)))
     < 0 + 4 + 2 * (40 + 2 * 4).
Proof.
  exact (X16_run_cost _ _ _ _ _ _ _ _ example_run).
Defined.

(** X17: the sequence length is kept over the rounds: a run that starts
    from random sequences, or from given sequences that all have length
    [seq_len], stores only sequences of length [seq_len] when it ends
    normally. *)
Theorem X17_run_keeps_the_length self fuel measured_sequences num_iterations st
    new_seqs preds st' :
  (forall population,
      measured_sequences = Some population ->
      Forall (fun s => String.length s = seq_len self) population) ->
  run self fuel measured_sequences num_iterations st
  = (Finished new_seqs preds, st') ->
  Forall (fun s => String.length s = seq_len self) new_seqs.
Proof.
  intros Hstart H. unfold run in H.
  destruct measured_sequences as [population |].
  - eapply run_rounds_lengths; [| exact H]. apply Hstart. reflexivity.
  - destruct (start_from_random_sequences self (sequences_batch_size self) st)
      as [[l | e | l] st1] eqn:E; [| discriminate | discriminate].
    apply start_from_random_sequences_ok in E. destruct E as (_ & _ & Hall).
    eapply run_rounds_lengths; [| exact H]. apply Hall. constructor.
Qed.

Lemma example_run_given :
  run (example_instance count_A_fitness (1 # 2) 1 1) 2000
    (Some example_population) 1 (initial_state example_tape)
  = (Finished ["AACA"; "AAAC"; "AACG"]%string [3; 3; 2]%Q,
     snd (run (example_instance count_A_fitness (1 # 2) 1 1) 2000
            (Some example_population) 1 (initial_state example_tape))).
Proof. apply pair_fst_eq. vm_compute. reflexivity. Defined.

Lemma X17_run_keeps_the_length_witness :
  Forall (fun s => String.length s = 4) ["AACA"; "AAAC"; "AACG"]%string.
Proof.
  apply (X17_run_keeps_the_length
           (example_instance count_A_fitness (1 # 2) 1 1) 2000
           (Some example_population) 1
           (initial_state example_tape) _ [3; 3; 2]%Q
           (snd (run (example_instance count_A_fitness (1 # 2) 1 1) 2000
                   (Some example_population) 1 (initial_state example_tape)))).
  - intros population Hp. inversion Hp; subst. repeat constructor.
  - exact example_run_given.
Defined.

(* ===================================================================== *)
(** ** Chunks of a single root                                             *)
(* ===================================================================== *)

Lemma prune_zero_dimensional_ok root_fitness zipped st nodes st' :
  prune (Array0 root_fitness) zipped st = (Ok nodes, st') ->
  zipped = [] /\ nodes = [].
Proof.
  destruct zipped as [| [[idx child] fitness] zipped]; simpl; intro H.
  - ok_inv H. auto.
  - discriminate.
Qed.

Lemma combine_nil_r {A B} (l : list A) : combine l (@nil B) = [].
Proof. destruct l; reflexivity. Qed.

(** With root scores of dimension zero a step that returns has scored
    nothing: it records no sequence and leaves no node. *)
Lemma rollout_step_zero_dimensional self fuel measured root_fitness nodes
    sequences st nodes' sequences' st' :
  rollout_step self fuel measured (Array0 root_fitness) nodes sequences st
  = (Ok (nodes', sequences'), st') ->
  nodes' = [] /\ sequences' = sequences.
Proof.
  unfold rollout_step. intro H.
  ok_inv H. destruct a as [child_idxs children].
  apply gen_children_ok in Hrun; [| simpl; lia].
  destruct Hrun as (new & Hci & Hch & Hall & _). simpl in Hci, Hch. subst.
  ok_inv H. apply get_fitness_ok in Hrun.
  destruct Hrun as (fitnesses & _ & -> & ->).
  cbv zeta in H. rewrite tolist_squeeze in H.
  ok_inv H. apply prune_zero_dimensional_ok in Hrun. destruct Hrun as [Hz ->].
  ok_inv H. split; [reflexivity |].
  assert (Hnone : combine new fitnesses = []).
  { apply Forall2_length in Hall.
    destruct nodes as [| node nodes]; destruct new as [| child new];
      simpl in Hall; try discriminate; [reflexivity |].
    destruct fitnesses as [| fitness fitnesses]; [reflexivity | discriminate]. }
  rewrite Hnone. reflexivity.
Qed.

Section OneRoot.

Variable self : AdaLead.
Variable fuel : nat.

(** The scorer gives one score for one sequence, when it returns. *)
Hypothesis one_score :
  forall s, fitness_fn self [s] = None \/ exists x, fitness_fn self [s] = Some [x].

Section OneRootRound.

Variable measured : list string.
Variable previous : nat.

Lemma rollout_zero_dimensional n root_fitness :
  forall nodes sequences st sequences' st',
    rollout self fuel measured previous n (Array0 root_fitness) nodes sequences st
    = (Ok sequences', st') ->
    sequences' = sequences.
Proof.
  induction n as [| n IH]; intros nodes sequences st sequences' st' H;
    simpl in H; rewrite bind_get_state in H.
  - destruct (_ && _); [discriminate | ok_inv H; reflexivity].
  - destruct (_ && _); [| ok_inv H; reflexivity].
    ok_inv H. destruct a as [nodes1 sequences1].
    apply rollout_step_zero_dimensional in Hrun. destruct Hrun as [-> ->].
    eapply IH. exact H.
Qed.

Lemma rollout_chunk_one_root root sequences st sequences' st' :
  rollout_chunk self fuel measured previous [root] sequences st
  = (Ok sequences', st') ->
  sequences' = sequences.
Proof.
  unfold rollout_chunk. intro H. ok_inv H.
  apply get_fitness_ok in Hrun. destruct Hrun as (scores & Hfit & -> & ->).
  destruct (one_score root) as [Hnone | [x Hx]]; [congruence |].
  rewrite Hx in Hfit. inversion Hfit; subst.
  eapply rollout_zero_dimensional. exact H.
Qed.

Lemma for_each_one_root chunk_list :
  forall sequences st sequences' st',
    Forall (fun roots => length roots = 1) chunk_list ->
    for_each (rollout_chunk self fuel measured previous) chunk_list sequences st
    = (Ok sequences', st') ->
    sequences' = sequences.
Proof.
  induction chunk_list as [| roots chunk_list IH];
    intros sequences st sequences' st' Hall H; simpl in H.
  - ok_inv H. reflexivity.
  - inversion Hall as [| ? ? Hone Hall']; subst.
    destruct roots as [| root [| root' roots]]; try discriminate.
    ok_inv H. apply rollout_chunk_one_root in Hrun. subst.
    eapply IH; eassumption.
Qed.

Lemma chunks_aux_one_root n step :
  forall l : list string,
    step <> 0 -> step = 1 \/ length l <= 1 ->
    Forall (fun roots => length roots = 1) (chunks_aux n step l).
Proof.
  induction n as [| n IH]; intros l Hstep Hone; [constructor |].
  destruct l as [| x l]; [constructor |].
  cbn [chunks_aux]. constructor.
  - rewrite length_firstn. simpl length in *. lia.
  - apply IH; [exact Hstep |].
    destruct Hone as [E | E]; [left; exact E | right].
    rewrite length_skipn. simpl length in *. lia.
Qed.

Lemma budget_loop_one_root n :
  forall parents st sequences st',
    eval_batch_size self = 1 \/ length parents <= 1 ->
    budget_loop self fuel measured previous n parents [] st = (Ok sequences, st') ->
    sequences = [].
Proof.
  induction n as [| n IH]; intros parents st sequences st' Hone H;
    simpl in H; rewrite bind_get_state in H.
  - destruct (_ <? _); [discriminate | ok_inv H; reflexivity].
  - destruct (_ <? _); [| ok_inv H; reflexivity].
    ok_inv H. apply repeat_recombine_length in Hrun.
    ok_inv H. destruct (eval_batch_size self =? 0) eqn:E; [discriminate |].
    apply Nat.eqb_neq in E.
    apply for_each_one_root in Hrun0;
      [| apply chunks_aux_one_root; [exact E | lia]].
    subst. eapply IH; [| exact H]. lia.
Qed.

End OneRootRound.

Lemma discover_one_root population st sequences st' :
  eval_batch_size self = 1 \/ sequences_batch_size self = 1 ->
  discover self fuel population st = (Ok sequences, st') ->
  sequences = [].
Proof.
  intros Hone H. unfold discover in H.
  ok_inv H. ok_inv H. rewrite bind_get_state in H.
  destruct (np_resize _ (sequences_batch_size self)) as [parents | [| n]] eqn:E.
  - apply np_resize_wraps in E. destruct E as [Hlen _].
    eapply budget_loop_one_root; [| exact H]. lia.
  - eapply budget_loop_no_parents. exact H.
  - eapply budget_loop_zeros_ok. exact H.
Qed.

End OneRoot.

Lemma propose_sequences_one_sequence self fuel s st seqs scores st' :
  fitness_fn self [s] = None \/ (exists x, fitness_fn self [s] = Some [x]) ->
  propose_sequences self fuel [s] st <> (Ok (seqs, scores), st').
Proof.
  intros Hfit H. unfold propose_sequences in H. ok_inv H.
  assert (Hnone : a = []).
  { destruct Hfit as [Hnone | [x Hx]].
    - unfold discover in Hrun. ok_inv Hrun. apply get_fitness_ok in Hrun0.
      destruct Hrun0 as (fitnesses & Hf & _). congruence.
    - eapply discover_one_sequence; eassumption. }
  subst. discriminate.
Qed.

(** X18: with [eval_batch_size = 1], or with [sequences_batch_size = 1],
    every chunk of parents is a single root and a round never returns
    normally, for a scorer that gives one score for one sequence: the
    scores of the root are a zero-dimensional array, the first comparison
    of a child with [root_fitnesses[idx]] raises IndexError, and without
    that comparison nothing is discovered. *)
Theorem X18_single_root_chunks self fuel population st :
  (forall s, fitness_fn self [s] = None
             \/ exists x, fitness_fn self [s] = Some [x]) ->
  eval_batch_size self = 1 \/ sequences_batch_size self = 1 ->
  (forall sequences st',
      discover self fuel population st = (Ok sequences, st') -> sequences = [])
  /\ (forall seqs scores st',
         propose_sequences self fuel population st <> (Ok (seqs, scores), st')).
Proof.
  intros Hscore Hone. split.
  - intros sequences st' H. eapply discover_one_root; eassumption.
  - intros seqs scores st' H. unfold propose_sequences in H. ok_inv H.
    apply discover_one_root in Hrun; [| exact Hscore | exact Hone].
    subst. discriminate.
Qed.

Lemma X18_single_root_chunks_witness :
  match fst (propose_sequences one_root_instance 2000 example_population
               (initial_state example_tape)) with
  | Ok _ => False
  | _ => True
  end.
Proof.
  destruct (propose_sequences one_root_instance 2000 example_population
              (initial_state example_tape))
    as [[[seqs scores] | e | l] st'] eqn:E; simpl; [| exact I | exact I].
  destruct (X18_single_root_chunks one_root_instance 2000 example_population
              (initial_state example_tape)) as [_ Hnever].
  - intro s. right. eexists. reflexivity.
  - left. reflexivity.
  - exact (Hnever seqs scores st' E).
Defined.

(** X19: with [sequences_batch_size = 2] a run of two or more rounds
    never ends normally, for a scorer that gives one score for one
    sequence: a round returns at most one sequence, and a round that
    starts from a single sequence selects no parent and does not
    return. *)
Theorem X19_two_per_batch self fuel measured_sequences num_iterations st
    new_seqs preds st' :
  (forall s, fitness_fn self [s] = None
             \/ exists x, fitness_fn self [s] = Some [x]) ->
  sequences_batch_size self = 2 ->
  2 <= num_iterations ->
  run self fuel measured_sequences num_iterations st
  <> (Finished new_seqs preds, st').
Proof.
  intros Hscore HK Hn H.
  assert (Hrounds : exists population st1,
             run_rounds self fuel num_iterations population None st1
             = (Finished new_seqs preds, st')).
  { unfold run in H. destruct measured_sequences as [population |].
    - exists population, st. exact H.
    - destruct (start_from_random_sequences self (sequences_batch_size self) st)
        as [[l | e | l] st1]; [| discriminate | discriminate].
      exists l, st1. exact H. }
  destruct Hrounds as (population0 & st1 & Hrounds).
  apply run_rounds_last in Hrounds.
  destruct Hrounds as [(Hz & _) | (_ & _ & pop & st0 & Hlast & _ & H2)]; [lia |].
  destruct (H2 Hn) as (Hlo & Hhi & _).
  destruct pop as [| s [| s' pop]]; simpl in Hlo, Hhi; try lia.
  revert Hlast. apply propose_sequences_one_sequence. apply Hscore.
Qed.

Lemma X19_two_per_batch_witness :
  match fst (run two_per_batch_instance 2000 (Some example_population) 2
               (initial_state example_tape)) with
  | Finished _ _ => False
  | _ => True
  end.
Proof.
  destruct (run two_per_batch_instance 2000 (Some example_population) 2
              (initial_state example_tape))
    as [[new_seqs preds | e | l] st'] eqn:E; simpl; [| exact I | exact I].
  apply (X19_two_per_batch two_per_batch_instance 2000
           (Some example_population) 2 (initial_state example_tape)
           new_seqs preds st').
  - intro s. right. eexists. reflexivity.
  - reflexivity.
  - lia.
  - exact E.
Defined.
